(** * Hash-anchored edit engine: shallow embedding and verification

    The development follows the TypeScript sources of the hashline edit
    engine: [edit-operations] (the batch orchestrator and the six edit
    primitives), [edit-sorting] (deduplication, ordering, overlap check)
    and [autocorrect-replacement-lines] (the three repair heuristics),
    and the line counter of [diff-utils].

    JavaScript strings are sequences of UTF-16 code units; they are
    modelled as lists of code units, arrays as lists, [Map] and [Set] as
    finite maps and sets where only lookups matter and as association
    lists where the iteration order is observable. A call that may throw
    returns a [result]. The six edit primitives are embedded a second
    time over a store of arrays, to state what they do to the array they
    are given. Line numbers are integers. *)

From Stdlib Require Import ZArith String Ascii.
From stdpp Require Import base decidable option numbers list gmap gmultiset
  sorting.

Local Open Scope Z_scope.
Local Open Scope nat_scope.

(** ** JavaScript strings and arrays *)

Module Js.

(** A string is its sequence of UTF-16 code units. *)
Abbreviation jsstring := (list N).

(** Literals of the sources, written as ASCII strings. *)
Definition js (s : string) : jsstring :=
  (λ a, N_of_ascii a) <$> list_ascii_of_string s.

(** The class [\s] of ECMAScript regular expressions, which is also
    the set removed by [String.prototype.trim]: WhiteSpace and
    LineTerminator code points. *)
Definition isWhiteSpace (c : N) : bool :=
  ((9 <=? c) && (c <=? 13) || (c =? 32) || (c =? 160) || (c =? 5760)
   || (8192 <=? c) && (c <=? 8202) || (c =? 8232) || (c =? 8233)
   || (c =? 8239) || (c =? 8287) || (c =? 12288) || (c =? 65279))%N.

Definition dropWhile {A} (p : A → bool) : list A → list A :=
  fix go l := match l with
              | [] => []
              | x :: l' => if p x then go l' else l
              end.

Definition takeWhile {A} (p : A → bool) : list A → list A :=
  fix go l := match l with
              | [] => []
              | x :: l' => if p x then x :: go l' else []
              end.

(** [text.trim()] *)
Definition trim (text : jsstring) : jsstring :=
  reverse (dropWhile isWhiteSpace (reverse (dropWhile isWhiteSpace text))).

(** [text.startsWith(p)] *)
Fixpoint startsWith (p text : jsstring) : bool :=
  match p, text with
  | [], _ => true
  | a :: p', b :: text' => (a =? b)%N && startsWith p' text'
  | _ :: _, [] => false
  end.

(** [text.endsWith(p)] *)
Definition endsWith (p text : jsstring) : bool :=
  startsWith (reverse p) (reverse text).

(** [text.indexOf(p, from)]; [None] stands for [-1]. *)
Fixpoint indexOfFrom (p text : jsstring) (i : nat) : option nat :=
  if startsWith p text then Some i
  else match text with
       | [] => None
       | _ :: text' => indexOfFrom p text' (S i)
       end.

Definition indexOf (text p : jsstring) (from : nat) : option nat :=
  let k := from `min` length text in
  indexOfFrom p (drop k text) k.

(** [text.split(sep)] for a one-unit separator. *)
Fixpoint splitOn (sep : N) (text : jsstring) : list jsstring :=
  match text with
  | [] => [[]]
  | c :: text' =>
      if (c =? sep)%N then [] :: splitOn sep text'
      else match splitOn sep text' with
           | [] => [[c]]
           | x :: xs => (c :: x) :: xs
           end
  end.

(** [parts.join(sep)] *)
Fixpoint join (sep : jsstring) (parts : list jsstring) : jsstring :=
  match parts with
  | [] => []
  | [x] => x
  | x :: xs => x ++ sep ++ join sep xs
  end.

Definition LF : N := 10%N.

(** Relative index of [Array.prototype.splice] and [slice]: negative
    indices count from the end, and the result is clamped to the
    array. *)
Definition relIndex (len : nat) (i : Z) : nat :=
  if (i <? 0)%Z then Z.to_nat (Z.max (Z.of_nat len + i) 0)
  else Z.to_nat (Z.min i (Z.of_nat len)).

(** [arr.splice(start, del, ...items)] on in-range natural indices:
    the array after the call. [take] and [drop] clamp as the method
    does. *)
Definition spliceNat {A} (start del : nat) (items l : list A) : list A :=
  take start l ++ items ++ drop (start + del) l.

(** [arr.splice(start, del, ...items)] for arbitrary integers. *)
Definition splice {A} (start del : Z) (items l : list A) : list A :=
  spliceNat (relIndex (length l) start) (Z.to_nat del) items l.

(** [arr.slice(start, end)] *)
Definition slice {A} (start end_ : Z) (l : list A) : list A :=
  let k := relIndex (length l) start in
  let f := relIndex (length l) end_ in
  take (f - k) (drop k l).

(** [arr[i]] for an integer index; [None] stands for [undefined]. *)
Definition index {A} (l : list A) (i : Z) : option A :=
  if (i <? 0)%Z then None else l !! Z.to_nat i.

(** A stable sort, as [Array.prototype.sort] is: [before a b] says that
    the comparator is not positive on [(a, b)], so [a] may stay in
    front of [b]. *)
Definition insertSorted {A} (before : A → A → bool) (x : A) : list A → list A :=
  fix go l := match l with
              | [] => [x]
              | y :: l' => if before x y then x :: l else y :: go l'
              end.

Definition stableSort {A} (before : A → A → bool) (l : list A) : list A :=
  foldr (insertSorted before) [] l.

End Js.
Export Js.

(** ** autocorrect-replacement-lines *)

Module Autocorrect.

(** [text.replace(/\s+/g, "")] *)
Definition stripAllWhitespace (text : jsstring) : jsstring :=
  filter (λ c, isWhiteSpace c = false) text.

Definition continuationTokens : list jsstring :=
  js <$> ["&&"; "||"; "??"; "?"; ":"; "="; ","; "+"; "-"; "*"; "/"; "."; "("]%string.

(** Does [(?:tok|...)\s*$] match the whole of [text]? *)
Definition matchesContinuationTail (text : jsstring) : bool :=
  existsb (λ tok, startsWith tok text
                  && forallb isWhiteSpace (drop (length tok) text))
          continuationTokens.

(** [text.replace(/(?:&&|...|\()\s*$/u, "")]: the leftmost match is
    cut off. *)
Fixpoint stripTrailingContinuationTokens (text : jsstring) : jsstring :=
  if matchesContinuationTail text then []
  else match text with
       | [] => []
       | c :: text' => c :: stripTrailingContinuationTokens text'
       end.

Definition leadingWhitespace (text : jsstring) : jsstring :=
  match text with
  | [] => []
  | _ => takeWhile isWhiteSpace text
  end.

Record OriginalEntry := { entryLine : jsstring; entryCount : nat }.

Record Candidate := { start : nat; len : nat; replacement : jsstring }.

(** The first loop of [restoreOldWrappedLines]. *)
Definition canonicalToOriginal (originalLines : list jsstring)
  : gmap jsstring OriginalEntry :=
  foldl (λ m line,
           let canonical := stripAllWhitespace line in
           match m !! canonical with
           | Some existing =>
               <[canonical := {| entryLine := entryLine existing;
                                 entryCount := S (entryCount existing) |}]> m
           | None => <[canonical := {| entryLine := line; entryCount := 1 |}]> m
           end)
        ∅ originalLines.

(** [Map.prototype.set] on a map whose iteration order is observed: an
    existing key keeps its place. *)
Fixpoint mapSet {V} (k : jsstring) (v : V) (m : list (jsstring * V))
  : list (jsstring * V) :=
  match m with
  | [] => [(k, v)]
  | (k', v') :: m' =>
      if decide (k' = k) then (k, v) :: m' else (k', v') :: mapSet k v m'
  end.

(** The [(start, len)] pairs the two nested loops visit, in order. *)
Definition spanIndices (n : nat) : list (nat * nat) :=
  s ← seq 0 n; (λ l, (s, l)) <$> seq 2 (9 `min` (n - s - 1)).

(** The body of the inner loop up to its two [continue]s: the canonical
    form of the span at [(s, l)] and the candidate it yields, if any. *)
Definition spanCandidate (originals : gmap jsstring OriginalEntry)
    (replacementLines : list jsstring) (s l : nat)
  : option (jsstring * Candidate) :=
  let span := take l (drop s replacementLines) in
  if existsb (λ line, length (trim line) =? 0) span then None
  else
    let canonical := stripAllWhitespace (concat span) in
    match originals !! canonical with
    | None => None
    | Some original =>
        if negb (entryCount original =? 1) || (length canonical <? 6) then None
        else Some (canonical,
                   {| start := s; len := l; replacement := entryLine original |})
    end.

(** The rest of the body: the two [set] calls. *)
Definition scanStep (originals : gmap jsstring OriginalEntry)
    (replacementLines : list jsstring)
    (st : gmap jsstring nat * list (jsstring * Candidate)) (sl : nat * nat)
  : gmap jsstring nat * list (jsstring * Candidate) :=
  match spanCandidate originals replacementLines sl.1 sl.2 with
  | None => st
  | Some (canonical, candidate) =>
      (<[canonical := S (default 0 (st.1 !! canonical))]> st.1,
       mapSet canonical candidate st.2)
  end.

Definition scanCandidates (originalLines replacementLines : list jsstring)
  : gmap jsstring nat * list (jsstring * Candidate) :=
  foldl (scanStep (canonicalToOriginal originalLines) replacementLines)
        (∅, []) (spanIndices (length replacementLines)).

Definition uniqueCandidates (originalLines replacementLines : list jsstring)
  : list Candidate :=
  let '(candidateCounts, candidates) :=
    scanCandidates originalLines replacementLines in
  snd <$> filter (λ kc, default 0 (candidateCounts !! kc.1) = 1) candidates.

(** [uniqueCandidates.sort((a, b) => b.start - a.start)] *)
Definition sortByStartDesc : list Candidate → list Candidate :=
  stableSort (λ a b, start b <=? start a).

Definition restoreOldWrappedLines (originalLines replacementLines : list jsstring)
  : list jsstring :=
  if (length originalLines =? 0) || (length replacementLines <? 2)
  then replacementLines
  else
    let unique := uniqueCandidates originalLines replacementLines in
    if length unique =? 0 then replacementLines
    else
      foldl (λ correctedLines candidate,
               splice (Z.of_nat (start candidate)) (Z.of_nat (len candidate))
                      [replacement candidate] correctedLines)
            replacementLines (sortByStartDesc unique).

(** [merged.split(/;\s+/)]: [skipping] is set while the [\s+] of a
    match is being consumed, [cur] holds the current piece reversed. *)
Fixpoint splitSemicolonSpace (text : jsstring) (skipping : bool) (cur : jsstring)
  : list jsstring :=
  match text with
  | [] => [reverse cur]
  | c :: text' =>
      if skipping && isWhiteSpace c then splitSemicolonSpace text' true cur
      else if (c =? 59)%N && from_option isWhiteSpace false (head text')
           then reverse cur :: splitSemicolonSpace text' true []
           else splitSemicolonSpace text' false (c :: cur)
  end.

Definition semicolonSplitFallback (merged : jsstring) (expectedCount : nat)
    (replacementLines : list jsstring) : list jsstring :=
  let arr := splitSemicolonSpace merged false [] in
  let semicolonSplit :=
    filter (λ line : jsstring, 0 < length line)
      (trim <$>
         imap (λ idx line,
                 if (idx <? length arr - 1) && negb (endsWith (js ";") line)
                 then line ++ js ";" else line) arr) in
  if length semicolonSplit =? expectedCount then semicolonSplit
  else replacementLines.

(** The loop locating every part in [merged]; [None] when a part is
    not found. *)
Fixpoint locateParts (merged : jsstring) (parts : list jsstring) (offset : nat)
  : option (list nat) :=
  match parts with
  | [] => Some []
  | part :: parts' =>
      let found :=
        match indexOf merged part offset with
        | Some idx => Some (idx, length part)
        | None =>
            let stripped := stripTrailingContinuationTokens part in
            if decide (stripped ≠ part)
            then (λ idx, (idx, length stripped)) <$> indexOf merged stripped offset
            else None
        end in
      match found with
      | None => None
      | Some (idx, matchedLen) =>
          (idx ::.) <$> locateParts merged parts' (idx + matchedLen)
      end
  end.

(** The loop cutting [merged] at the located indices; [None] when a
    piece is empty after trimming. *)
Fixpoint expandAt (merged : jsstring) (indices : list nat)
  : option (list jsstring) :=
  match indices with
  | [] => Some []
  | i :: rest =>
      let e := match rest with [] => length merged | j :: _ => j end in
      let candidate := trim (take (e - i) (drop i merged)) in
      if length candidate =? 0 then None
      else (candidate ::.) <$> expandAt merged rest
  end.

Definition maybeExpandSingleLineMerge (originalLines replacementLines : list jsstring)
  : list jsstring :=
  match replacementLines with
  | [merged] =>
      if length originalLines <=? 1 then replacementLines
      else
        let parts :=
          filter (λ line : jsstring, 0 < length line) (trim <$> originalLines) in
        if negb (length parts =? length originalLines) then replacementLines
        else
          let fallback :=
            semicolonSplitFallback merged (length originalLines) replacementLines in
          match locateParts merged parts 0 with
          | None => fallback
          | Some indices =>
              match expandAt merged indices with
              | None => fallback
              | Some expanded =>
                  if length expanded =? length originalLines then expanded
                  else fallback
              end
          end
  | _ => replacementLines
  end.

Definition restoreIndentForPairedReplacement
    (originalLines replacementLines : list jsstring) : list jsstring :=
  if negb (length originalLines =? length replacementLines) then replacementLines
  else
    imap (λ idx line,
            if (length line =? 0) || (0 <? length (leadingWhitespace line))
            then line
            else
              let original := default [] (originalLines !! idx) in
              let indent := leadingWhitespace original in
              if (length indent =? 0) || bool_decide (trim original = trim line)
              then line
              else indent ++ line)
         replacementLines.

Definition autocorrectReplacementLines
    (originalLines replacementLines : list jsstring) : list jsstring :=
  let next := replacementLines in
  let next := maybeExpandSingleLineMerge originalLines next in
  let next := restoreOldWrappedLines originalLines next in
  let next := restoreIndentForPairedReplacement originalLines next in
  next.

End Autocorrect.
Export Autocorrect.

(** ** Edits, errors and the interfaces of the helper modules *)

Module Types.

(** [{ line, hash? }], the result of [parseLineRef]. *)
Record LineRef := { line : Z; hash : option jsstring }.

(** [string | string[]], the payload of an edit. *)
Inductive TextOrLines :=
| Text (text : jsstring)
| Lines (lines : list jsstring).

(** The tagged union [HashlineEdit]; [pos] of [replace] is required,
    the other anchors are optional. *)
Inductive HashlineEdit :=
| Replace (pos : jsstring) (end_ : option jsstring) (lines : TextOrLines)
| Append (pos : option jsstring) (lines : TextOrLines)
| Prepend (pos : option jsstring) (lines : TextOrLines).

Inductive InsertOp := OpAppend | OpPrepend.

(** The two edits named by the overlap message, each with [idx + 1]
    and its line span. *)
Record Overlap := {
  prevEdit : nat; prevStart : Z; prevEnd : Z;
  currEdit : nat; currStart : Z; currEnd : Z }.

(** What the engine throws. The first three come from the validation
    module, the others are the [Error]s built in the sources, with the
    values interpolated in their messages. *)
Inductive EngineError :=
| InvalidLineRefFormat (ref : jsstring)
| LineOutOfRange (ref : jsstring) (line : Z) (count : nat)
| StaleLineReference (ref : jsstring)
| InvalidRange (startLine endLine : Z)
| OverlappingRangeEdits (o : Overlap)
| EmptyInsertText (op : InsertOp) (anchor : option jsstring).

(** A call either returns or throws. *)
Inductive result (A : Type) :=
| Ok (a : A)
| Err (e : EngineError).
Global Arguments Ok {A} a.
Global Arguments Err {A} e.

Global Instance result_ret : MRet result := λ A a, Ok a.
Global Instance result_bind : MBind result := λ A B k c,
  match c with
  | Ok a => k a
  | Err e => Err e
  end.

(** [{ skipValidation?: boolean }] *)
Record EditApplyOptions := { skipValidation : option bool }.

Record HashlineApplyReport := {
  content : jsstring;
  noopEdits : nat;
  deduplicatedEdits : nat }.

Global Instance LineRef_eq_dec : EqDecision LineRef.
Proof. solve_decision. Defined.
Global Instance TextOrLines_eq_dec : EqDecision TextOrLines.
Proof. solve_decision. Defined.
Global Instance HashlineEdit_eq_dec : EqDecision HashlineEdit.
Proof. solve_decision. Defined.

(** The validation module ([parseLineRef]) and the hasher it uses are
    kept abstract: the engine is verified against this interface, for
    every parser and every hasher. *)
Class Validation := {
  parseLineRef : jsstring → result LineRef;
  computeLineHash : Z → jsstring → jsstring }.

(** So are the helpers of [edit-text-normalization], taken as pure
    functions of their arguments. An anchor line read out of range
    reaches the echo strippers as [undefined] ([None]). *)
Class TextNormalization := {
  toNewLines : TextOrLines → list jsstring;
  restoreLeadingIndent : jsstring → jsstring → jsstring;
  stripInsertAnchorEcho : option jsstring → list jsstring → list jsstring;
  stripInsertBeforeEcho : option jsstring → list jsstring → list jsstring;
  stripRangeBoundaryEcho :
    list jsstring → Z → Z → list jsstring → list jsstring }.

End Types.
Export Types.

(** [edit.pos ? ... : ...]: an absent or empty string is falsy. *)
Definition truthy (ref : option jsstring) : option jsstring :=
  match ref with
  | Some (c :: s) => Some (c :: s)
  | _ => None
  end.

(** ** validation *)

Section validation.
Context {V : Validation}.

(** Modelled from the spec: [validateLineRef] of the validation module,
    which is not among the sources. Parse the reference; fail when the
    line is below 1 or beyond the last line; when the reference
    carries a hash, recompute the hash of the line and fail when it
    differs; without a hash the bounds alone decide. *)
Definition validateLineRef (lines : list jsstring) (ref : jsstring)
  : result unit :=
  r ← parseLineRef ref;
  if ((line r <? 1) || (Z.of_nat (length lines) <? line r))%Z
  then Err (LineOutOfRange ref (line r) (length lines))
  else
    match hash r with
    | Some h =>
        if decide (h = computeLineHash (line r)
                         (default [] (index lines (line r - 1))))
        then Ok ()
        else Err (StaleLineReference ref)
    | None => Ok ()
    end.

(** Modelled from the spec: [validateLineRefs] of the validation
    module: every reference is validated in turn and the first
    violation is the failure. *)
Fixpoint validateLineRefs (lines : list jsstring) (refs : list jsstring)
  : result unit :=
  match refs with
  | [] => Ok ()
  | ref :: refs' =>
      _ ← validateLineRef lines ref;
      validateLineRefs lines refs'
  end.

End validation.

(** ** edit-sorting *)

(** The values of [getEditLineNumber]: a line number or
    [Number.NEGATIVE_INFINITY]. *)
Inductive AnchorLine :=
| NegativeInfinity
| Finite (n : Z).

Global Instance AnchorLine_eq_dec : EqDecision AnchorLine.
Proof. solve_decision. Defined.

Record Range := { rangeStart : Z; rangeEnd : Z; rangeIdx : nat }.

Section sorting.
Context {V : Validation} {T : TextNormalization}.

Definition getEditLineNumber (edit : HashlineEdit) : result AnchorLine :=
  match edit with
  | Replace pos end_ _ =>
      r ← parseLineRef (default pos end_); Ok (Finite (line r))
  | Append pos _ =>
      match truthy pos with
      | Some p => r ← parseLineRef p; Ok (Finite (line r))
      | None => Ok NegativeInfinity
      end
  | Prepend pos _ =>
      match truthy pos with
      | Some p => r ← parseLineRef p; Ok (Finite (line r))
      | None => Ok NegativeInfinity
      end
  end.

Definition editLineRefs (edit : HashlineEdit) : list jsstring :=
  match edit with
  | Replace pos end_ _ =>
      match truthy end_ with
      | Some e => [pos; e]
      | None => [pos]
      end
  | Append pos _ | Prepend pos _ =>
      match truthy pos with
      | Some p => [p]
      | None => []
      end
  end.

Definition collectLineRefs (edits : list HashlineEdit) : list jsstring :=
  edits ≫= editLineRefs.

(** The first loop of [detectOverlappingRanges]; [i] is the index of
    the head of [edits] in the array. *)
Fixpoint collectRanges (edits : list HashlineEdit) (i : nat)
  : result (list Range) :=
  match edits with
  | [] => Ok []
  | edit :: edits' =>
      match edit with
      | Replace pos end_ _ =>
          match truthy end_ with
          | Some e =>
              s ← parseLineRef pos;
              f ← parseLineRef e;
              ranges ← collectRanges edits' (S i);
              Ok ({| rangeStart := line s; rangeEnd := line f; rangeIdx := i |}
                    :: ranges)
          | None => collectRanges edits' (S i)
          end
      | _ => collectRanges edits' (S i)
      end
  end.

(** [(a, b) => a.start - b.start || a.end - b.end] is not positive. *)
Definition rangeBefore (a b : Range) : bool :=
  ((rangeStart a <? rangeStart b)
   || (rangeStart a =? rangeStart b) && (rangeEnd a <=? rangeEnd b))%Z.

(** The second loop: the first neighbours that touch or overlap. *)
Fixpoint firstOverlap (prev : Range) (rest : list Range) : option Overlap :=
  match rest with
  | [] => None
  | curr :: rest' =>
      if (rangeStart curr <=? rangeEnd prev)%Z
      then Some {| prevEdit := rangeIdx prev + 1;
                   prevStart := rangeStart prev; prevEnd := rangeEnd prev;
                   currEdit := rangeIdx curr + 1;
                   currStart := rangeStart curr; currEnd := rangeEnd curr |}
      else firstOverlap curr rest'
  end.

(** The message is determined by the [Overlap] it interpolates;
    [None] is [null]. *)
Definition detectOverlappingRanges (edits : list HashlineEdit)
  : result (option Overlap) :=
  ranges ← collectRanges edits 0;
  if length ranges <? 2 then Ok None
  else
    match stableSort rangeBefore ranges with
    | [] => Ok None
    | first :: rest => Ok (firstOverlap first rest)
    end.

Definition normalizeEditPayload (payload : TextOrLines) : jsstring :=
  join [LF] (toNewLines payload).

Definition buildDedupeKey (edit : HashlineEdit) : jsstring :=
  match edit with
  | Replace pos end_ lines =>
      js "replace|" ++ pos ++ js "|" ++ default [] end_ ++ js "|"
        ++ normalizeEditPayload lines
  | Append pos lines =>
      js "append|" ++ default [] pos ++ js "|" ++ normalizeEditPayload lines
  | Prepend pos lines =>
      js "prepend|" ++ default [] pos ++ js "|" ++ normalizeEditPayload lines
  end.

(** The loop of [dedupeEdits], with its three variables. *)
Fixpoint dedupeLoop (edits : list HashlineEdit) (seen : gset jsstring)
    (deduped : list HashlineEdit) (deduplicated : nat)
  : list HashlineEdit * nat :=
  match edits with
  | [] => (deduped, deduplicated)
  | edit :: edits' =>
      let key := buildDedupeKey edit in
      if decide (key ∈ seen)
      then dedupeLoop edits' seen deduped (deduplicated + 1)
      else dedupeLoop edits' ({[key]} ∪ seen) (deduped ++ [edit]) deduplicated
  end.

Definition dedupeEdits (edits : list HashlineEdit) : list HashlineEdit * nat :=
  dedupeLoop edits ∅ [] 0.

End sorting.

(** ** edit-operations *)

Section operations.
Context {V : Validation} {T : TextNormalization}.

(** [options?.skipValidation !== true] *)
Definition shouldValidate (options : option EditApplyOptions) : bool :=
  negb (bool_decide ((options ≫= skipValidation) = Some true)).

Definition arraysEqual (a b : list jsstring) : bool :=
  if negb (length a =? length b) then false
  else forallb (λ i, bool_decide (a !! i = b !! i)) (seq 0 (length a)).

(** [corrected.map((entry, idx) => idx !== 0 ? entry : restoreLeadingIndent(t, entry))] *)
Definition restoreFirst (template : jsstring) (corrected : list jsstring)
  : list jsstring :=
  imap (λ idx entry, if negb (idx =? 0) then entry
                     else restoreLeadingIndent template entry) corrected.

Definition applySetLine (lines : list jsstring) (anchor : jsstring)
    (newText : TextOrLines) (options : option EditApplyOptions)
  : result (list jsstring) :=
  _ ← (if shouldValidate options then validateLineRef lines anchor else Ok ());
  r ← parseLineRef anchor;
  let result := lines in
  let originalLine := default [] (index lines (line r - 1)) in
  let corrected := autocorrectReplacementLines [originalLine] (toNewLines newText) in
  let replacement := restoreFirst originalLine corrected in
  Ok (splice (line r - 1) 1 replacement result).

Definition applyReplaceLines (lines : list jsstring) (startAnchor endAnchor : jsstring)
    (newText : TextOrLines) (options : option EditApplyOptions)
  : result (list jsstring) :=
  _ ← (if shouldValidate options
       then _ ← validateLineRef lines startAnchor; validateLineRef lines endAnchor
       else Ok ());
  s ← parseLineRef startAnchor;
  e ← parseLineRef endAnchor;
  let startLine := line s in
  let endLine := line e in
  if (endLine <? startLine)%Z then Err (InvalidRange startLine endLine)
  else
    let result := lines in
    let originalRange := slice (startLine - 1) endLine lines in
    let stripped :=
      stripRangeBoundaryEcho lines startLine endLine (toNewLines newText) in
    let corrected := autocorrectReplacementLines originalRange stripped in
    let restored :=
      restoreFirst (default [] (index lines (startLine - 1))) corrected in
    Ok (splice (startLine - 1) (endLine - startLine + 1) restored result).

Definition applyInsertAfter (lines : list jsstring) (anchor : jsstring)
    (text : TextOrLines) (options : option EditApplyOptions)
  : result (list jsstring) :=
  _ ← (if shouldValidate options then validateLineRef lines anchor else Ok ());
  r ← parseLineRef anchor;
  let result := lines in
  let newLines :=
    stripInsertAnchorEcho (index lines (line r - 1)) (toNewLines text) in
  if length newLines =? 0 then Err (EmptyInsertText OpAppend (Some anchor))
  else Ok (splice (line r) 0 newLines result).

Definition applyInsertBefore (lines : list jsstring) (anchor : jsstring)
    (text : TextOrLines) (options : option EditApplyOptions)
  : result (list jsstring) :=
  _ ← (if shouldValidate options then validateLineRef lines anchor else Ok ());
  r ← parseLineRef anchor;
  let result := lines in
  let newLines :=
    stripInsertBeforeEcho (index lines (line r - 1)) (toNewLines text) in
  if length newLines =? 0 then Err (EmptyInsertText OpPrepend (Some anchor))
  else Ok (splice (line r - 1) 0 newLines result).

(** [lines.length === 1 && lines[0] === ""] *)
Definition isEmptyFile (lines : list jsstring) : bool :=
  (length lines =? 1) && bool_decide (lines !! 0 = Some []).

Definition applyAppend (lines : list jsstring) (text : TextOrLines)
  : result (list jsstring) :=
  let normalized := toNewLines text in
  if length normalized =? 0 then Err (EmptyInsertText OpAppend None)
  else if isEmptyFile lines then Ok normalized
  else Ok (lines ++ normalized).

Definition applyPrepend (lines : list jsstring) (text : TextOrLines)
  : result (list jsstring) :=
  let normalized := toNewLines text in
  if length normalized =? 0 then Err (EmptyInsertText OpPrepend None)
  else if isEmptyFile lines then Ok normalized
  else Ok (normalized ++ lines).

(** [EDIT_PRECEDENCE] *)
Definition editPrecedence (edit : HashlineEdit) : nat :=
  match edit with
  | Replace _ _ _ => 0
  | Append _ _ => 1
  | Prepend _ _ => 2
  end.

(** [x < y] on the values of [getEditLineNumber]. *)
Definition anchorLt (x y : AnchorLine) : bool :=
  match x, y with
  | NegativeInfinity, Finite _ => true
  | Finite a, Finite b => (a <? b)%Z
  | _, NegativeInfinity => false
  end.

(** The comparator of the batch sort is not positive on [(a, b)]:
    [lineB - lineA <= 0] when the lines differ, and the precedences
    decide otherwise. The edits come with their line numbers. *)
Definition editBefore (a b : AnchorLine * HashlineEdit) : bool :=
  let '(lineA, editA) := a in
  let '(lineB, editB) := b in
  if decide (lineB ≠ lineA) then anchorLt lineB lineA
  else editPrecedence editA <=? editPrecedence editB.

(** [[...edits].sort(comparator)]. The comparator calls
    [getEditLineNumber] on both its arguments and throws when a
    reference does not parse; it is called at all only when there are
    two elements or more, and then on every element. The sort is
    stable. When several references are malformed, which of them the
    throw names depends on the order in which the host calls the
    comparator, which ECMAScript leaves to the implementation (V8
    starts with the second element against the first); the model names
    the first in array order. Whether the sort returns, and what it
    returns, does not depend on that order. *)
Definition sortEdits (edits : list HashlineEdit) : result (list HashlineEdit) :=
  match edits with
  | [] | [_] => Ok edits
  | _ =>
      keyed ← mapM (λ edit, k ← getEditLineNumber edit; Ok (k, edit)) edits;
      Ok (snd <$> stableSort editBefore keyed)
  end.

(** One iteration of the loop over the sorted edits: the [switch]. *)
Definition applyEdit (lines : list jsstring) (edit : HashlineEdit)
  : result (list jsstring) :=
  let skip := Some {| skipValidation := Some true |} in
  match edit with
  | Replace pos end_ newText =>
      match truthy end_ with
      | Some e => applyReplaceLines lines pos e newText skip
      | None => applySetLine lines pos newText skip
      end
  | Append pos text =>
      match truthy pos with
      | Some p => applyInsertAfter lines p text skip
      | None => applyAppend lines text
      end
  | Prepend pos text =>
      match truthy pos with
      | Some p => applyInsertBefore lines p text skip
      | None => applyPrepend lines text
      end
  end.

(** The loop, threading [lines] and [noopEdits]. *)
Fixpoint applyEdits (edits : list HashlineEdit) (lines : list jsstring)
    (noop : nat) : result (list jsstring * nat) :=
  match edits with
  | [] => Ok (lines, noop)
  | edit :: edits' =>
      next ← applyEdit lines edit;
      if arraysEqual next lines then applyEdits edits' lines (noop + 1)
      else applyEdits edits' next noop
  end.

(** [content.length === 0 ? [] : content.split("\n")] *)
Definition contentLines (content : jsstring) : list jsstring :=
  if length content =? 0 then [] else splitOn LF content.

Definition applyHashlineEditsWithReport (content : jsstring)
    (edits : list HashlineEdit) : result HashlineApplyReport :=
  if length edits =? 0
  then Ok {| content := content; noopEdits := 0; deduplicatedEdits := 0 |}
  else
    let dedupeResult := dedupeEdits edits in
    sortedEdits ← sortEdits dedupeResult.1;
    let lines := contentLines content in
    let refs := collectLineRefs sortedEdits in
    _ ← validateLineRefs lines refs;
    overlapError ← detectOverlappingRanges sortedEdits;
    match overlapError with
    | Some o => Err (OverlappingRangeEdits o)
    | None =>
        '(lines, noop) ← applyEdits sortedEdits lines 0;
        Ok {| content := join [LF] lines;
              noopEdits := noop;
              deduplicatedEdits := dedupeResult.2 |}
    end.

Definition applyHashlineEdits (content : jsstring) (edits : list HashlineEdit)
  : result jsstring :=
  report ← applyHashlineEditsWithReport content edits;
  Ok (Types.content report).

End operations.

(** ** The helper modules, from their description

    An instance of the two interfaces, used to run the engine on
    concrete batches. *)

Module SpecHelpers.

Definition alphabet : jsstring := js "ZPMQVRWSNKTXJBYH".

Definition isDigit (c : N) : bool := ((48 <=? c) && (c <=? 57))%N.

Definition digitsValue (ds : jsstring) : Z :=
  foldl (λ acc c, acc * 10 + (Z.of_N c - 48))%Z 0%Z ds.

(** Modelled from the spec: [parseLineRef] of the validation module,
    which is not among the sources: it accepts exactly digits, or
    digits, [#] and two characters of the alphabet; any other shape is
    a parse failure. *)
Definition parseLineRef (ref : jsstring) : result LineRef :=
  let ds := takeWhile isDigit ref in
  let rest := dropWhile isDigit ref in
  if length ds =? 0 then Err (InvalidLineRefFormat ref)
  else
    match rest with
    | [] => Ok {| line := digitsValue ds; hash := None |}
    | [c; a; b] =>
        if (c =? 35)%N && bool_decide (a ∈ alphabet) && bool_decide (b ∈ alphabet)
        then Ok {| line := digitsValue ds; hash := Some [a; b] |}
        else Err (InvalidLineRefFormat ref)
    | _ => Err (InvalidLineRefFormat ref)
    end.

(** Modelled from the spec: [computeLineHash] of the hash module, which
    is not among the sources: a two-character code over the alphabet,
    derived from a hash of the line number and the line reduced to 256
    values. The spec leaves the 32-bit hash open; a sum of the code
    units stands for it here. *)
Definition computeLineHash (lineNumber : Z) (text : jsstring) : jsstring :=
  let h := (Z.to_nat (Z.abs lineNumber)
            + foldr (λ c acc, N.to_nat c + acc) 0 text) `mod` 256 in
  [default 0%N (alphabet !! (h `div` 16)); default 0%N (alphabet !! (h `mod` 16))].

(** Modelled from the spec: [toNewLines] of the text normalization
    module, which is not among the sources: a single string is split on
    newline, a sequence of strings is taken as it is. *)
Definition toNewLines (payload : TextOrLines) : list jsstring :=
  match payload with
  | Text text => splitOn LF text
  | Lines lines => lines
  end.

(** Modelled from the spec: [restoreLeadingIndent] of the text
    normalization module, which is not among the sources: a line
    without indentation of its own takes the indentation of the line
    it replaces. *)
Definition restoreLeadingIndent (template line : jsstring) : jsstring :=
  if length line =? 0 then line
  else if length (leadingWhitespace template) =? 0 then line
  else if 0 <? length (leadingWhitespace line) then line
  else if bool_decide (trim template = trim line) then line
  else leadingWhitespace template ++ line.

Definition echoes (anchorLine : option jsstring) (line : jsstring) : bool :=
  match anchorLine with
  | Some a => bool_decide (stripAllWhitespace a = stripAllWhitespace line)
  | None => false
  end.

(** Modelled from the spec: [stripInsertAnchorEcho] of the text
    normalization module, which is not among the sources: leading
    text that merely echoes the anchor line is stripped. *)
Definition stripInsertAnchorEcho (anchorLine : option jsstring)
    (newLines : list jsstring) : list jsstring :=
  match newLines with
  | first :: rest => if echoes anchorLine first then rest else newLines
  | [] => newLines
  end.

(** Modelled from the spec: [stripInsertBeforeEcho] of the text
    normalization module, which is not among the sources: a trailing
    echo of the anchor line is stripped. *)
Definition stripInsertBeforeEcho (anchorLine : option jsstring)
    (newLines : list jsstring) : list jsstring :=
  match reverse newLines with
  | last :: rest => if echoes anchorLine last then reverse rest else newLines
  | [] => newLines
  end.

(** Modelled from the spec: [stripRangeBoundaryEcho] of the text
    normalization module, which is not among the sources: boundary
    text that the replacement echoes from the lines immediately
    surrounding the range is stripped. *)
Definition stripRangeBoundaryEcho (lines : list jsstring) (startLine endLine : Z)
    (newLines : list jsstring) : list jsstring :=
  stripInsertBeforeEcho (index lines endLine)
    (stripInsertAnchorEcho (index lines (startLine - 2)) newLines).

Definition validation : Validation :=
  {| Types.parseLineRef := parseLineRef;
     Types.computeLineHash := computeLineHash |}.

Definition textNormalization : TextNormalization :=
  {| Types.toNewLines := toNewLines;
     Types.restoreLeadingIndent := restoreLeadingIndent;
     Types.stripInsertAnchorEcho := stripInsertAnchorEcho;
     Types.stripInsertBeforeEcho := stripInsertBeforeEcho;
     Types.stripRangeBoundaryEcho := stripRangeBoundaryEcho |}.

(** The engine with these helpers. *)
Definition run (content : jsstring) (edits : list HashlineEdit)
  : result HashlineApplyReport :=
  @applyHashlineEditsWithReport validation textNormalization content edits.

End SpecHelpers.

(** ** The edit primitives on a store of arrays

    In the sources the line arrays are objects: [[...lines]] allocates a
    copy, [splice] updates its receiver in place, and a caller may hold
    other references to the array it passes. This second embedding of
    the six primitives keeps the arrays in a store, so that what a call
    does to the array it is given can be stated. Strings are immutable
    and stay values, as do the arrays built and consumed inside one
    call. *)

Module Store.

Definition loc : Type := nat.

Abbreviation store := (gmap loc (list jsstring)).

(** A computation runs in a store and returns or throws. *)
Definition M (A : Type) : Type := store → store * result A.

Global Instance M_ret : MRet M := λ A a h, (h, Ok a).
Global Instance M_bind : MBind M := λ A B k c h,
  match c h with
  | (h', Ok a) => k a h'
  | (h', Err e) => (h', Err e)
  end.

(** A call into a pure function that may throw. *)
Definition call {A} (r : result A) : M A := λ h, (h, r).

(** Reading the elements of an array. *)
Definition elements (l : loc) : M (list jsstring) :=
  λ h, (h, Ok (default [] (h !! l))).

(** An array literal: a new object. *)
Definition newArray (v : list jsstring) : M loc :=
  λ h, let l := fresh (dom h) in (<[l := v]> h, Ok l).

(** A mutating method call on an array. *)
Definition update (l : loc) (f : list jsstring → list jsstring) : M unit :=
  λ h, (alter f l h, Ok ()).

Section primitives.
Context {V : Validation} {T : TextNormalization}.

Definition applySetLine (lines : loc) (anchor : jsstring)
    (newText : TextOrLines) (options : option EditApplyOptions) : M loc :=
  _ ← (if shouldValidate options
       then v ← elements lines; call (validateLineRef v anchor)
       else mret ());
  r ← call (parseLineRef anchor);
  result ← (v ← elements lines; newArray v);
  v ← elements lines;
  let originalLine := default [] (index v (line r - 1)) in
  let corrected :=
    autocorrectReplacementLines [originalLine] (toNewLines newText) in
  let replacement := restoreFirst originalLine corrected in
  _ ← update result (splice (line r - 1) 1 replacement);
  mret result.

Definition applyReplaceLines (lines : loc) (startAnchor endAnchor : jsstring)
    (newText : TextOrLines) (options : option EditApplyOptions) : M loc :=
  _ ← (if shouldValidate options
       then
         _ ← (v ← elements lines; call (validateLineRef v startAnchor));
         v ← elements lines; call (validateLineRef v endAnchor)
       else mret ());
  s ← call (parseLineRef startAnchor);
  e ← call (parseLineRef endAnchor);
  let startLine := line s in
  let endLine := line e in
  if (endLine <? startLine)%Z then call (Err (InvalidRange startLine endLine))
  else
    result ← (v ← elements lines; newArray v);
    v ← elements lines;
    let originalRange := slice (startLine - 1) endLine v in
    let stripped :=
      stripRangeBoundaryEcho v startLine endLine (toNewLines newText) in
    let corrected := autocorrectReplacementLines originalRange stripped in
    let restored :=
      restoreFirst (default [] (index v (startLine - 1))) corrected in
    _ ← update result (splice (startLine - 1) (endLine - startLine + 1) restored);
    mret result.

Definition applyInsertAfter (lines : loc) (anchor : jsstring)
    (text : TextOrLines) (options : option EditApplyOptions) : M loc :=
  _ ← (if shouldValidate options
       then v ← elements lines; call (validateLineRef v anchor)
       else mret ());
  r ← call (parseLineRef anchor);
  result ← (v ← elements lines; newArray v);
  v ← elements lines;
  let newLines :=
    stripInsertAnchorEcho (index v (line r - 1)) (toNewLines text) in
  if length newLines =? 0
  then call (Err (EmptyInsertText OpAppend (Some anchor)))
  else
    _ ← update result (splice (line r) 0 newLines);
    mret result.

Definition applyInsertBefore (lines : loc) (anchor : jsstring)
    (text : TextOrLines) (options : option EditApplyOptions) : M loc :=
  _ ← (if shouldValidate options
       then v ← elements lines; call (validateLineRef v anchor)
       else mret ());
  r ← call (parseLineRef anchor);
  result ← (v ← elements lines; newArray v);
  v ← elements lines;
  let newLines :=
    stripInsertBeforeEcho (index v (line r - 1)) (toNewLines text) in
  if length newLines =? 0
  then call (Err (EmptyInsertText OpPrepend (Some anchor)))
  else
    _ ← update result (splice (line r - 1) 0 newLines);
    mret result.

Definition applyAppend (lines : loc) (text : TextOrLines) : M loc :=
  let normalized := toNewLines text in
  if length normalized =? 0 then call (Err (EmptyInsertText OpAppend None))
  else
    v ← elements lines;
    if isEmptyFile v then newArray normalized
    else v ← elements lines; newArray (v ++ normalized).

Definition applyPrepend (lines : loc) (text : TextOrLines) : M loc :=
  let normalized := toNewLines text in
  if length normalized =? 0 then call (Err (EmptyInsertText OpPrepend None))
  else
    v ← elements lines;
    if isEmptyFile v then newArray normalized
    else v ← elements lines; newArray (normalized ++ v).

End primitives.

(** What a call [c], run in [h] on an array holding [v], must do to
    agree with the value-level primitive [pure] and leave the arrays of
    [h] alone: every array of [h] is still there with its elements, a
    returned array is a new object holding the result of [pure], and a
    throw is the throw of [pure]. *)
Definition leavesInput (c : M loc) (h : store) (pure : result (list jsstring))
  : Prop :=
  let '(h', r) := c h in
  h ⊆ h' ∧
  match r with
  | Ok res => h !! res = None ∧ ∃ out, h' !! res = Some out ∧ pure = Ok out
  | Err e => pure = Err e
  end.

End Store.

(** ** diff-utils *)

Module DiffUtils.

(** [Map.prototype.get] *)
Fixpoint mapGet {V} (k : jsstring) (m : list (jsstring * V)) : option V :=
  match m with
  | [] => None
  | (k', v) :: m' => if decide (k' = k) then Some v else mapGet k m'
  end.

(** The loops that fill [oldSet] and [newSet]. *)
Definition countLines (lines : list jsstring) : list (jsstring * nat) :=
  foldl (λ m line, mapSet line (default 0 (mapGet line m) + 1) m) [] lines.

(** The loops that add up [deletions] and [additions]. *)
Definition surplus (counts others : list (jsstring * nat)) : nat :=
  foldl (λ total lc,
           let other := default 0 (mapGet lc.1 others) in
           if other <? lc.2 then total + (lc.2 - other) else total)
        0 counts.

Record LineDiffs := { additions : nat; deletions : nat }.

Definition countLineDiffs (oldContent newContent : jsstring) : LineDiffs :=
  let oldLines := splitOn LF oldContent in
  let newLines := splitOn LF newContent in
  let oldSet := countLines oldLines in
  let newSet := countLines newLines in
  let deletions := surplus oldSet newSet in
  let additions := surplus newSet oldSet in
  {| additions := additions; deletions := deletions |}.

End DiffUtils.

Export DiffUtils.

(** ** Notions used in the statements *)

(** A reference that [parseLineRef] accepts. *)
Definition parses {V : Validation} (ref : jsstring) : Prop :=
  ∃ r, parseLineRef ref = Ok r.

(** The interval [a] ends before [b] starts: they neither touch nor
    overlap. *)
Definition disjointBefore (a b : Range) : Prop :=
  (rangeEnd a < rangeStart b)%Z.

(** The errors built in the loop over the sorted edits. *)
Definition raisedByEdit (e : EngineError) : Prop :=
  match e with
  | InvalidRange _ _ | EmptyInsertText _ _ => True
  | _ => False
  end.

(** The original lines with a given canonical form. *)
Definition withCanonical (k : jsstring) (originalLines : list jsstring)
  : list jsstring :=
  filter (λ line, stripAllWhitespace line = k) originalLines.

(** The spans on which the body of the inner loop of
    [restoreOldWrappedLines] reaches the two [set] calls, with their
    canonical forms and candidates, in order. *)
Definition scanHits (originalLines replacementLines : list jsstring)
  : list (jsstring * Candidate) :=
  omap (λ sl, spanCandidate (canonicalToOriginal originalLines)
                            replacementLines sl.1 sl.2)
       (spanIndices (length replacementLines)).

(** How often the canonical form [k] was hit. *)
Definition hitCount (k : jsstring) (hits : list (jsstring * Candidate)) : nat :=
  length (filter (λ kc, kc.1 = k) hits).

(** The callback of [restoreIndentForPairedReplacement]. *)
Definition indentLine (originalLines : list jsstring) (idx : nat) (line : jsstring)
  : jsstring :=
  if (length line =? 0) || (0 <? length (leadingWhitespace line)) then line
  else
    let original := default [] (originalLines !! idx) in
    let indent := leadingWhitespace original in
    if (length indent =? 0) || bool_decide (trim original = trim line) then line
    else indent ++ line.

(** Lines that are trimmed and not empty. *)
Definition tidy (lines : list jsstring) : Prop :=
  ∀ line, line ∈ lines → line ≠ [] ∧ trim line = line.

(** The comparator of the batch sort is not positive on two edits
    whose line numbers parse. *)
Definition appliedBefore {V : Validation} (a b : HashlineEdit) : Prop :=
  ∃ lineA lineB,
    getEditLineNumber a = Ok lineA
    ∧ getEditLineNumber b = Ok lineB
    ∧ editBefore (lineA, a) (lineB, b) = true.

(** Does the batch sort see the edit with line [k] and precedence
    [p]? *)
Definition hasSortKey {V : Validation} (k : AnchorLine) (p : nat)
    (edit : HashlineEdit) : bool :=
  match getEditLineNumber edit with
  | Ok k' => bool_decide (k' = k) && (editPrecedence edit =? p)
  | Err _ => false
  end.

(** The map holds, for each line, how often it occurs in the
    multiset, and no entry for the lines that do not occur. *)
Definition tallies (m : list (jsstring * nat)) (X : gmultiset jsstring)
  : Prop :=
  NoDup m.*1
  ∧ ∀ k, mapGet k m = if decide (multiplicity k X = 0) then None
                      else Some (multiplicity k X).

(** The lines from index [from] on in which each of the spans [spans],
    taken from the top of the file down, is replaced by its original
    line, the lines outside the spans staying where they are. This is
    the outcome the statement speaks of, not the way the code gets
    there. *)
Fixpoint replaceSpansFrom (from : nat) (spans : list Candidate)
    (lines : list jsstring) : list jsstring :=
  match spans with
  | [] => drop from lines
  | c :: spans' =>
      take (start c - from) (drop from lines)
      ++ [replacement c]
      ++ replaceSpansFrom (start c + len c) spans' lines
  end.

(** The span of [a] ends before the span of [b] starts. *)
Definition spanBefore (a b : Candidate) : Prop := start a + len a ≤ start b.





(** * Properties *)

(** ** Strings and arrays *)

Section js_facts.

Lemma splitOn_nonempty sep text : splitOn sep text ≠ [].
Proof.
  destruct text as [|c text]; simpl; [done|].
  destruct (c =? sep)%N; [done|]. by destruct (splitOn sep text).
Qed.

Lemma join_cons sep x y ys :
  join sep (x :: y :: ys) = x ++ sep ++ join sep (y :: ys).
Proof. done. Qed.

(** Joining what [split] gave restores the string. *)
Lemma join_splitOn sep text : join [sep] (splitOn sep text) = text.
Proof.
  induction text as [|c text IH]; simpl; [done|].
  destruct (N.eqb_spec c sep) as [->|Hne].
  - pose proof (splitOn_nonempty sep text) as Hn.
    destruct (splitOn sep text) as [|x xs] eqn:E; [done|].
    rewrite join_cons, IH. done.
  - pose proof (splitOn_nonempty sep text) as Hn.
    destruct (splitOn sep text) as [|x xs] eqn:E; [done|].
    destruct xs as [|y ys]; simpl in *; by rewrite <- IH.
Qed.

(** The loop of [arraysEqual] decides equality of the two arrays. *)
Lemma forallb_lookup_eq (a b : list jsstring) :
  length a = length b →
  forallb (λ i, bool_decide (a !! i = b !! i)) (seq 0 (length a)) = true →
  a = b.
Proof.
  intros Hlen Hall. apply list_eq. intros i.
  destruct (decide (i < length a)) as [Hi|Hi].
  - rewrite forallb_forall in Hall.
    specialize (Hall i). rewrite bool_decide_eq_true in Hall.
    apply Hall, in_seq. lia.
  - rewrite !lookup_ge_None_2; [done|lia..].
Qed.

Lemma relIndex_nonneg len (i : nat) :
  relIndex len (Z.of_nat i) = i `min` len.
Proof.
  unfold relIndex. destruct (Z.ltb_spec (Z.of_nat i) 0); lia.
Qed.

(** On natural indices [splice] needs no clamping. *)
Lemma splice_nat {A} (s d : nat) (items l : list A) :
  splice (Z.of_nat s) (Z.of_nat d) items l = spliceNat s d items l.
Proof.
  unfold splice, spliceNat. rewrite relIndex_nonneg, Nat2Z.id.
  destruct (decide (s ≤ length l)) as [Hs|Hs].
  - by rewrite Nat.min_l by done.
  - rewrite Nat.min_r by lia.
    rewrite !take_ge by lia. rewrite !drop_ge by lia. done.
Qed.

End js_facts.

Section operations_facts.
Context {V : Validation} {T : TextNormalization}.

Lemma arraysEqual_spec (a b : list jsstring) :
  arraysEqual a b = true ↔ a = b.
Proof.
  unfold arraysEqual. split.
  - destruct (Nat.eqb_spec (length a) (length b)) as [Hlen|]; simpl; [|done].
    by apply forallb_lookup_eq.
  - intros ->. rewrite Nat.eqb_refl. simpl.
    apply forallb_forall. intros i _. by apply bool_decide_eq_true.
Qed.

Lemma arraysEqual_refl (a : list jsstring) : arraysEqual a a = true.
Proof. by apply arraysEqual_spec. Qed.

End operations_facts.

(** ** Whole-file append and prepend *)

Section whole_file.
Context {V : Validation} {T : TextNormalization}.

Lemma length_eqb_0 {A} (l : list A) : (length l =? 0) = bool_decide (l = []).
Proof. by destruct l. Qed.

Lemma dedupeEdits_singleton edit : dedupeEdits [edit] = ([edit], 0).
Proof.
  unfold dedupeEdits. simpl.
  destruct (decide (buildDedupeKey edit ∈ (∅ : gset jsstring))) as [Hin|]; [|done].
  by apply not_elem_of_empty in Hin.
Qed.

(** A batch of one edit without references that changes the lines. *)
Lemma run_single_whole_file content edit out :
  editLineRefs edit = [] →
  (∀ i, collectRanges [edit] i = Ok []) →
  applyEdit (contentLines content) edit = Ok out →
  out ≠ contentLines content →
  applyHashlineEditsWithReport content [edit]
  = Ok {| content := join [LF] out; noopEdits := 0; deduplicatedEdits := 0 |}.
Proof.
  intros Hrefs Hranges Happly Hout.
  unfold applyHashlineEditsWithReport.
  rewrite dedupeEdits_singleton. simpl.
  unfold collectLineRefs. simpl. rewrite Hrefs. simpl.
  unfold detectOverlappingRanges. rewrite Hranges. simpl.
  rewrite Happly. simpl.
  destruct (arraysEqual out (contentLines content)) eqn:E; [|done].
  by apply arraysEqual_spec in E.
Qed.

End whole_file.

(** C6. [applyAppend] and [applyPrepend] on the one-empty-line file
    [[""]] return exactly the payload lines when the payload is not
    empty, so the sentinel line is replaced and no blank line is left
    before or after; on an empty payload each throws its
    empty-insert-text error, whatever the file. *)
Theorem append_prepend_on_empty_file {V : Validation} {T : TextNormalization}
    (text : TextOrLines) :
  (toNewLines text ≠ [] →
   applyAppend [[]] text = Ok (toNewLines text)
   ∧ applyPrepend [[]] text = Ok (toNewLines text))
  ∧ (toNewLines text = [] →
     ∀ lines,
       applyAppend lines text = Err (EmptyInsertText OpAppend None)
       ∧ applyPrepend lines text = Err (EmptyInsertText OpPrepend None)).
Proof.
  split.
  - intros Hne. unfold applyAppend, applyPrepend.
    rewrite length_eqb_0, bool_decide_eq_false_2 by done. done.
  - intros Hnil lines. unfold applyAppend, applyPrepend.
    by rewrite Hnil.
Qed.

Lemma append_prepend_on_empty_file_witness :
  (@applyAppend SpecHelpers.textNormalization [[]] (Text (js "x")) = Ok [js "x"]
   ∧ @applyPrepend SpecHelpers.textNormalization [[]] (Text (js "x")) = Ok [js "x"])
  ∧ (@applyAppend SpecHelpers.textNormalization [[]] (Lines [])
     = Err (EmptyInsertText OpAppend None)
     ∧ @applyPrepend SpecHelpers.textNormalization [[]] (Lines [])
       = Err (EmptyInsertText OpPrepend None)).
Proof.
  split.
  - apply (@append_prepend_on_empty_file SpecHelpers.validation
             SpecHelpers.textNormalization (Text (js "x"))).
    vm_compute. discriminate.
  - apply (@append_prepend_on_empty_file SpecHelpers.validation
             SpecHelpers.textNormalization (Lines [])).
    reflexivity.
Defined.

(** C9. Empty content is the empty line sequence, not one empty line:
    a batch that only appends (or only prepends) a non-empty payload to
    the whole file returns the payload lines joined by newline, with no
    empty line before or after, and counts no no-op and no duplicate. *)
Theorem whole_file_insert_into_empty_content {V : Validation} {T : TextNormalization}
    (pos : option jsstring) (payload : TextOrLines) :
  truthy pos = None →
  toNewLines payload ≠ [] →
  contentLines [] = []
  ∧ applyHashlineEditsWithReport [] [Append pos payload]
    = Ok {| content := join [LF] (toNewLines payload);
            noopEdits := 0; deduplicatedEdits := 0 |}
  ∧ applyHashlineEditsWithReport [] [Prepend pos payload]
    = Ok {| content := join [LF] (toNewLines payload);
            noopEdits := 0; deduplicatedEdits := 0 |}.
Proof.
  intros Hpos Hne. split; [done|].
  assert ((length (toNewLines payload) =? 0) = false) as Hlen.
  { rewrite length_eqb_0. by apply bool_decide_eq_false_2. }
  split.
  - apply run_single_whole_file; simpl; try done.
    + by rewrite Hpos.
    + rewrite Hpos. unfold applyAppend. by rewrite Hlen.
  - apply run_single_whole_file; simpl; try done.
    + by rewrite Hpos.
    + rewrite Hpos. unfold applyPrepend. rewrite Hlen. simpl.
      by rewrite app_nil_r.
Qed.

Lemma whole_file_insert_into_empty_content_witness :
  SpecHelpers.run [] [Append None (Lines [js "first"; js "second"])]
  = Ok {| content := js "first" ++ [LF] ++ js "second";
          noopEdits := 0; deduplicatedEdits := 0 |}.
Proof.
  refine (proj1 (proj2 (@whole_file_insert_into_empty_content
            SpecHelpers.validation SpecHelpers.textNormalization
            None (Lines [js "first"; js "second"]) _ _))).
  - reflexivity.
  - vm_compute. discriminate.
Defined.

(** ** Indentation restoration for paired replacements *)

Section paired_indent.
Local Arguments leadingWhitespace : simpl never.
Local Arguments trim : simpl never.

Lemma leadingWhitespace_length_0 (text : jsstring) :
  (0 <? length (leadingWhitespace text)) = false ↔ leadingWhitespace text = [].
Proof.
  destruct (leadingWhitespace text); simpl; split; intros; done.
Qed.

(** The callback of the [map] in [restoreIndentForPairedReplacement],
    by cases. *)
Lemma restoreIndent_lookup (originalLines replacementLines : list jsstring)
    idx line original :
  length originalLines = length replacementLines →
  replacementLines !! idx = Some line →
  originalLines !! idx = Some original →
  restoreIndentForPairedReplacement originalLines replacementLines !! idx
  = Some (if decide (line ≠ [] ∧ leadingWhitespace line = []
                     ∧ trim original ≠ trim line)
          then leadingWhitespace original ++ line
          else line).
Proof.
  intros Hlen Hline Horig. unfold restoreIndentForPairedReplacement.
  rewrite Hlen, Nat.eqb_refl. simpl.
  rewrite list_lookup_imap, Hline. simpl. f_equal.
  rewrite Horig. simpl.
  destruct (length line =? 0) eqn:Hl0; simpl.
  { apply Nat.eqb_eq, nil_length_inv in Hl0.
    rewrite decide_False; [done|]. by intros [Hne _]. }
  destruct (0 <? length (leadingWhitespace line)) eqn:Hws.
  - rewrite decide_False; [done|].
    intros (_ & Hl & _). apply leadingWhitespace_length_0 in Hl. congruence.
  - apply leadingWhitespace_length_0 in Hws.
    assert (line ≠ []) by (intros ->; done).
    destruct (length (leadingWhitespace original) =? 0) eqn:Hind; simpl.
    + apply Nat.eqb_eq, nil_length_inv in Hind. rewrite Hind.
      by destruct (decide _).
    + case_bool_decide as Htrim.
      * rewrite decide_False; [done|]. by intros (_ & _ & Hne).
      * rewrite decide_True; [done|]. done.
Qed.

End paired_indent.

(** C5, as amended. In the indentation-restoration step of
    [autocorrectReplacementLines], when the corrected replacement and
    the original have equal line counts, every non-empty corrected line
    that has no leading whitespace of its own and whose trimmed form
    differs from the trimmed form of the original line at the same
    position is returned prefixed with that original line's leading
    whitespace; every other corrected line, the empty line among them,
    is returned unchanged. *)
Theorem paired_replacement_indent (originalLines replacementLines : list jsstring) :
  let corrected :=
    restoreOldWrappedLines originalLines
      (maybeExpandSingleLineMerge originalLines replacementLines) in
  length originalLines = length corrected →
  length (autocorrectReplacementLines originalLines replacementLines)
  = length corrected
  ∧ ∀ idx line original,
      corrected !! idx = Some line →
      originalLines !! idx = Some original →
      autocorrectReplacementLines originalLines replacementLines !! idx
      = Some (if decide (line ≠ [] ∧ leadingWhitespace line = []
                         ∧ trim original ≠ trim line)
              then leadingWhitespace original ++ line
              else line).
Proof.
  intros corrected Hlen. split.
  - unfold autocorrectReplacementLines, restoreIndentForPairedReplacement.
    fold corrected. rewrite Hlen, Nat.eqb_refl. simpl. apply length_imap.
  - intros idx line original Hline Horig.
    by apply restoreIndent_lookup.
Qed.

Lemma paired_replacement_indent_witness :
  autocorrectReplacementLines [js "    return a"; js "  }"] [js "return b"; js "}"]
  !! 0 = Some (js "    return b").
Proof.
  refine (proj2 (paired_replacement_indent
                   [js "    return a"; js "  }"] [js "return b"; js "}"] _)
                0 (js "return b") (js "    return a") _ _).
  - reflexivity.
  - reflexivity.
  - reflexivity.
Defined.

(** C5 as stated fails on an empty corrected line: it has no leading
    whitespace and its trimmed form differs from that of the indented
    original line, yet it is returned as it is, not as the bare
    indentation. *)
Lemma paired_replacement_indent_counterexample :
  let originalLines := [js "  foo"] in
  let corrected := [[]] in
  length originalLines = length corrected
  ∧ leadingWhitespace [] = []
  ∧ trim [] ≠ trim (js "  foo")
  ∧ restoreIndentForPairedReplacement originalLines corrected !! 0 = Some []
  ∧ restoreIndentForPairedReplacement originalLines corrected !! 0
    ≠ Some (leadingWhitespace (js "  foo") ++ []).
Proof. vm_compute. repeat split; discriminate. Qed.

(** ** No-op edits *)

Section noop.
Context {V : Validation} {T : TextNormalization}.

(** A one-line replacement of a one-line original passes the three
    heuristics unchanged when it is the original. *)
Lemma autocorrect_same_line (l : jsstring) :
  autocorrectReplacementLines [l] [l] = [l].
Proof.
  unfold autocorrectReplacementLines. simpl.
  unfold restoreIndentForPairedReplacement. simpl.
  destruct (length l =? 0); simpl; [done|].
  destruct (0 <? length (leadingWhitespace l)) eqn:E; [done|].
  apply Nat.ltb_ge in E.
  assert (length (leadingWhitespace l) = 0) as -> by lia.
  done.
Qed.

Lemma validateLineRef_ok lines ref :
  validateLineRef lines ref = Ok () →
  ∃ r, parseLineRef ref = Ok r
       ∧ (1 ≤ line r ≤ Z.of_nat (length lines))%Z.
Proof.
  unfold validateLineRef. destruct (parseLineRef ref) as [r|e]; simpl; [|done].
  destruct (Z.ltb_spec (line r) 1); simpl; [done|].
  destruct (Z.ltb_spec (Z.of_nat (length lines)) (line r)); simpl; [done|].
  intros _. exists r. split; [done|lia].
Qed.

(** Replacing one element by itself. *)
Lemma splice_same {A} (l : list A) (i : nat) (x : A) :
  l !! i = Some x → splice (Z.of_nat i) 1 [x] l = l.
Proof.
  intros Hx. change 1%Z with (Z.of_nat 1). rewrite splice_nat.
  unfold spliceNat. rewrite <- (take_drop_middle l i x) at 3 by done.
  by rewrite Nat.add_1_r.
Qed.

Lemma applyEdits_cons edit rest lines next n :
  applyEdit lines edit = Ok next →
  applyEdits (edit :: rest) lines n
  = if decide (next = lines) then applyEdits rest lines (n + 1)
    else applyEdits rest next n.
Proof.
  intros Hnext. simpl. rewrite Hnext. simpl.
  destruct (arraysEqual next lines) eqn:E.
  - apply arraysEqual_spec in E. by rewrite decide_True.
  - rewrite decide_False; [done|]. intros ->.
    by rewrite arraysEqual_refl in E.
Qed.

Lemma contentLines_join content :
  join [LF] (contentLines content) = content.
Proof.
  unfold contentLines. destruct content as [|c content]; [done|].
  change (length (c :: content) =? 0) with false. cbv iota.
  apply join_splitOn.
Qed.

Lemma replace_own_text content ref r payload (i : nat) text :
  validateLineRef (contentLines content) ref = Ok () →
  parseLineRef ref = Ok r →
  line r = Z.of_nat (S i) →
  contentLines content !! i = Some text →
  toNewLines payload = [text] →
  restoreLeadingIndent text text = text →
  applyHashlineEditsWithReport content [Replace ref None payload]
  = Ok {| content := content; noopEdits := 1; deduplicatedEdits := 0 |}.
Proof.
  intros Hvalid Hparse Hline Htext Hpayload Hindent.
  unfold applyHashlineEditsWithReport.
  rewrite dedupeEdits_singleton. simpl.
  unfold collectLineRefs. simpl. rewrite Hvalid. simpl.
  unfold detectOverlappingRanges. simpl.
  unfold applySetLine. simpl.
  rewrite Hparse. simpl. rewrite Hline.
  replace (Z.of_nat (S i) - 1)%Z with (Z.of_nat i) by lia.
  unfold index. destruct (Z.ltb_spec (Z.of_nat i) 0); [lia|].
  rewrite Nat2Z.id, Htext, Hpayload. simpl.
  rewrite autocorrect_same_line.
  change (restoreFirst text [text]) with [restoreLeadingIndent text text].
  rewrite Hindent, splice_same by done. rewrite arraysEqual_refl. simpl.
  by rewrite contentLines_join.
Qed.

End noop.

(** C7. An edit whose candidate line sequence equals the pre-edit
    sequence is discarded and counted in [noopEdits]: the loop goes on
    with the lines it had. In particular, for a content of at least two
    lines, the batch whose single edit replaces line 2, cited by a valid
    reference, with that line's own text returns the content unchanged
    and reports [noopEdits = 1]. The payload is the line's text when
    [toNewLines] turns it into that one line; of the indentation helper
    it is used that it restores a line onto itself. *)
Theorem noop_edits_are_counted {V : Validation} {T : TextNormalization} :
  (∀ edit rest lines next n,
     applyEdit lines edit = Ok next →
     applyEdits (edit :: rest) lines n
     = if decide (next = lines) then applyEdits rest lines (n + 1)
       else applyEdits rest next n)
  ∧ (∀ content ref r payload text,
       2 ≤ length (contentLines content) →
       validateLineRef (contentLines content) ref = Ok () →
       parseLineRef ref = Ok r →
       line r = 2%Z →
       contentLines content !! 1 = Some text →
       toNewLines payload = [text] →
       restoreLeadingIndent text text = text →
       applyHashlineEditsWithReport content [Replace ref None payload]
       = Ok {| content := content; noopEdits := 1; deduplicatedEdits := 0 |}).
Proof.
  split.
  - intros. by apply applyEdits_cons.
  - intros content ref r payload text _ Hvalid Hparse Hline Htext Hpayload Hindent.
    by apply (replace_own_text content ref r payload 1 text).
Qed.

Lemma noop_edits_are_counted_witness :
  let content := js "a" ++ [LF] ++ js "b" ++ [LF] ++ js "c" in
  let same := Replace (js "2#WV") None (Text (js "b")) in
  SpecHelpers.run content [same]
  = Ok {| content := content; noopEdits := 1; deduplicatedEdits := 0 |}
  ∧ @applyEdits SpecHelpers.validation SpecHelpers.textNormalization
      [same] [js "a"; js "b"; js "c"] 0
    = Ok ([js "a"; js "b"; js "c"], 1).
Proof.
  intros content same.
  pose proof (noop_edits_are_counted (V := SpecHelpers.validation)
                (T := SpecHelpers.textNormalization)) as [Hstep Hline2].
  split.
  - apply (Hline2 content (js "2#WV") {| line := 2; hash := Some (js "WV") |}
             (Text (js "b")) (js "b")).
    + vm_compute. lia.
    + reflexivity.
    + reflexivity.
    + reflexivity.
    + reflexivity.
    + reflexivity.
    + reflexivity.
  - rewrite (Hstep same [] [js "a"; js "b"; js "c"] [js "a"; js "b"; js "c"] 0).
    + reflexivity.
    + reflexivity.
Defined.

(** ** Deduplication *)

Section dedupe.
Context {V : Validation} {T : TextNormalization}.

(** What the loop adds to [deduped]: the edits whose key is neither in
    [seen] nor carried by an earlier edit, in their order. *)
Lemma dedupeLoop_spec edits : ∀ seen deduped n,
  ∃ kept,
    dedupeLoop edits seen deduped n
    = (deduped ++ kept, n + (length edits - length kept))
    ∧ kept `sublist_of` edits
    ∧ NoDup (buildDedupeKey <$> kept)
    ∧ (∀ e, e ∈ kept → buildDedupeKey e ∉ seen)
    ∧ (∀ pre e post,
         edits = pre ++ e :: post →
         buildDedupeKey e ∉ seen →
         buildDedupeKey e ∉ buildDedupeKey <$> pre →
         e ∈ kept).
Proof.
  induction edits as [|edit edits IH]; intros seen deduped n.
  - exists []. simpl. rewrite app_nil_r, Nat.add_0_r.
    split_and!; try done.
    + constructor.
    + by intros e ?%elem_of_nil.
    + intros pre e post Heq. by destruct pre.
  - simpl. destruct (decide (buildDedupeKey edit ∈ seen)) as [Hin|Hnin].
    + destruct (IH seen deduped (n + 1)) as (kept & -> & Hsub & Hnd & Hfresh & Hfirst).
      exists kept. pose proof (sublist_length _ _ Hsub).
      split_and!; try done.
      * f_equal. lia.
      * by apply sublist_cons.
      * intros pre e post Heq He Hpre.
        destruct pre as [|e' pre]; simplify_eq/=; [done|].
        apply (Hfirst pre e post); [done..|].
        intros Hin'. apply Hpre. by right.
    + destruct (IH ({[buildDedupeKey edit]} ∪ seen) (deduped ++ [edit]) n)
        as (kept & -> & Hsub & Hnd & Hfresh & Hfirst).
      exists (edit :: kept). pose proof (sublist_length _ _ Hsub).
      split_and!.
      * rewrite <- app_assoc. simpl. f_equal.
      * by apply sublist_skip.
      * rewrite fmap_cons. apply NoDup_cons. split; [|done].
        intros (e & Hkey & He)%list_elem_of_fmap.
        apply (Hfresh e He). rewrite <- Hkey. set_solver.
      * intros e [->|He]%elem_of_cons; [done|].
        specialize (Hfresh e He). set_solver.
      * intros pre e post Heq He Hpre.
        destruct pre as [|e' pre]; simplify_eq/=; [by left|].
        right. apply (Hfirst pre e post); [done| |].
        -- intros [Hk|Hk]%elem_of_union; [|done].
           apply elem_of_singleton in Hk. apply Hpre. rewrite Hk. by left.
        -- intros Hin'. apply Hpre. by right.
Qed.






End dedupe.



(** ** The stable sort *)

Section stableSort_facts.
Context {A : Type} (before : A → A → bool).

Lemma insertSorted_Permutation x l : insertSorted before x l ≡ₚ x :: l.
Proof.
  induction l as [|y l IH]; simpl; [done|].
  destruct (before x y); [done|].
  rewrite IH. apply Permutation_swap.
Qed.

Lemma stableSort_Permutation l : stableSort before l ≡ₚ l.
Proof.
  induction l as [|x l IH]; simpl; [done|].
  rewrite insertSorted_Permutation. by rewrite IH.
Qed.

Hypothesis before_total : ∀ a b, before a b = false → before b a = true.
Hypothesis before_trans :
  ∀ a b c, before a b = true → before b c = true → before a c = true.

Lemma insertSorted_sorted x l :
  StronglySorted (λ a b, before a b = true) l →
  StronglySorted (λ a b, before a b = true) (insertSorted before x l).
Proof.
  induction 1 as [|y l Hs IH Hall]; simpl.
  - repeat constructor.
  - destruct (before x y) eqn:E.
    + constructor; [by constructor|].
      constructor; [done|].
      eapply Forall_impl; [exact Hall|]. intros z Hz. by eapply before_trans.
    + constructor; [done|].
      rewrite insertSorted_Permutation. constructor; [|done].
      by apply before_total.
Qed.

Lemma stableSort_sorted l :
  StronglySorted (λ a b, before a b = true) (stableSort before l).
Proof.
  induction l as [|x l IH]; simpl; [constructor|].
  by apply insertSorted_sorted.
Qed.

End stableSort_facts.

Lemma StronglySorted_lookup {A} (R : A → A → Prop) (l : list A) i j a b :
  StronglySorted R l → i < j → l !! i = Some a → l !! j = Some b → R a b.
Proof.
  intros Hs. revert i j. induction Hs as [|x l Hs IH Hall]; intros i j Hij Ha Hb.
  - done.
  - destruct j as [|j]; [lia|]. destruct i as [|i]; simpl in *.
    + injection Ha as ->. rewrite Forall_forall in Hall.
      apply Hall. by eapply list_elem_of_lookup_2.
    + apply (IH i j); [lia|done..].
Qed.

(** ** The order of application *)

Section ordering.
Context {V : Validation} {T : TextNormalization}.

Lemma anchorLt_total x y : anchorLt x y = false → x ≠ y → anchorLt y x = true.
Proof.
  destruct x as [|a], y as [|b]; simpl; try done.
  intros Hlt Hne. apply Z.ltb_ge in Hlt. apply Z.ltb_lt.
  assert (a ≠ b) by congruence. lia.
Qed.

Lemma anchorLt_trans x y z :
  anchorLt x y = true → anchorLt y z = true → anchorLt x z = true.
Proof.
  destruct x, y, z; simpl; try done. rewrite !Z.ltb_lt. lia.
Qed.

Lemma anchorLt_irrefl x : anchorLt x x = false.
Proof. destruct x; simpl; [done|]. apply Z.ltb_irrefl. Qed.

Lemma anchorLt_asym x y : anchorLt x y = true → anchorLt y x = false.
Proof.
  destruct x, y; simpl; try done. rewrite Z.ltb_lt, Z.ltb_ge. lia.
Qed.

(** What [editBefore] says of two edits with their lines. *)
Lemma editBefore_spec lineA a lineB b :
  editBefore (lineA, a) (lineB, b) = true ↔
  anchorLt lineB lineA = true
  ∨ lineA = lineB ∧ editPrecedence a ≤ editPrecedence b.
Proof.
  unfold editBefore. destruct (decide (lineB ≠ lineA)) as [Hne|Heq].
  - split; [by left|]. intros [?|[? _]]; [done|congruence].
  - apply dec_stable in Heq. subst lineB. rewrite Nat.leb_le. split.
    + intros. by right.
    + intros [Hlt|[_ ?]]; [|done]. by rewrite anchorLt_irrefl in Hlt.
Qed.

Lemma editBefore_total a b : editBefore a b = false → editBefore b a = true.
Proof.
  destruct a as [lineA a], b as [lineB b]. intros Hab.
  apply editBefore_spec.
  destruct (decide (lineA = lineB)) as [->|Hne].
  - right. split; [done|].
    destruct (decide (editPrecedence b ≤ editPrecedence a)) as [|Hn]; [done|].
    assert (editBefore (lineB, a) (lineB, b) = true) as Habs; [|congruence].
    apply editBefore_spec. right. split; [done|lia].
  - left. destruct (anchorLt lineA lineB) eqn:E; [done|].
    assert (editBefore (lineA, a) (lineB, b) = true) as Habs; [|congruence].
    apply editBefore_spec. left. by apply anchorLt_total.
Qed.

Lemma editBefore_trans a b c :
  editBefore a b = true → editBefore b c = true → editBefore a c = true.
Proof.
  destruct a as [lineA a], b as [lineB b], c as [lineC c].
  rewrite !editBefore_spec.
  intros [Hab|[-> Hab]] [Hbc|[-> Hbc]].
  - left. by eapply anchorLt_trans.
  - by left.
  - by left.
  - right. split; [done|lia].
Qed.

(** What the [mapM] in [sortEdits] returns. *)
Lemma keyed_spec edits keyed :
  mapM (λ edit, k ← getEditLineNumber edit; Ok (k, edit)) edits = Ok keyed →
  snd <$> keyed = edits
  ∧ Forall (λ ke, getEditLineNumber ke.2 = Ok ke.1) keyed.
Proof.
  revert keyed. induction edits as [|edit edits IH]; intros keyed; simpl.
  - intros [= <-]. by split.
  - destruct (getEditLineNumber edit) as [k|] eqn:Hk; simpl; [|done].
    destruct (mapM _ edits) as [keyed'|]; simpl; [|done].
    intros [= <-]. destruct (IH keyed' eq_refl) as [Hsnd Hall].
    split; [by rewrite fmap_cons, Hsnd|]. by constructor.
Qed.

(** The sorted batch is a rearrangement of the batch in which the
    comparator holds between every edit and every later one. *)
Lemma sortEdits_spec edits sorted :
  sortEdits edits = Ok sorted →
  sorted ≡ₚ edits
  ∧ ∀ i j a b,
      i < j → sorted !! i = Some a → sorted !! j = Some b →
      ∃ lineA lineB,
        getEditLineNumber a = Ok lineA
        ∧ getEditLineNumber b = Ok lineB
        ∧ editBefore (lineA, a) (lineB, b) = true.
Proof.
  unfold sortEdits. destruct edits as [|e1 [|e2 edits]].
  - intros [= <-]. split; [done|]. intros i j a b _ Ha. done.
  - intros [= <-]. split; [done|]. intros i j a b Hij Ha Hb.
    destruct j as [|j]; [lia|]. done.
  - set (batch := e1 :: e2 :: edits).
    destruct (mapM _ batch) as [keyed|] eqn:Hkeyed; simpl; [|done].
    intros [= <-]. apply keyed_spec in Hkeyed as [Hsnd Hall].
    split.
    + rewrite stableSort_Permutation. by rewrite Hsnd.
    + intros i j a b Hij Ha Hb.
      rewrite list_lookup_fmap in Ha, Hb.
      destruct (stableSort editBefore keyed !! i) as [[lineA a']|] eqn:Hi;
        simplify_eq/=.
      destruct (stableSort editBefore keyed !! j) as [[lineB b']|] eqn:Hj;
        simplify_eq/=.
      exists lineA, lineB.
      assert (∀ ke, ke ∈ stableSort editBefore keyed →
                    getEditLineNumber ke.2 = Ok ke.1) as Hkeys.
      { intros ke Hin. rewrite stableSort_Permutation in Hin.
        rewrite Forall_forall in Hall. by apply Hall. }
      split_and!.
      * apply (Hkeys (lineA, a)). by eapply list_elem_of_lookup_2.
      * apply (Hkeys (lineB, b)). by eapply list_elem_of_lookup_2.
      * apply (StronglySorted_lookup (λ x y, editBefore x y = true)
                 (stableSort editBefore keyed) i j (lineA, a) (lineB, b));
          [|done..].
        apply stableSort_sorted.
        -- apply editBefore_total.
        -- apply editBefore_trans.
Qed.

(** Only a whole-file insertion has the sentinel as its line. *)
Lemma getEditLineNumber_sentinel edit :
  getEditLineNumber edit = Ok NegativeInfinity ↔ editLineRefs edit = [].
Proof.
  destruct edit as [pos end_ p|pos p|pos p]; simpl.
  - split.
    + destruct (parseLineRef _); simpl; done.
    + by destruct (truthy end_).
  - destruct (truthy pos) as [r|]; [|done].
    split; [|done]. destruct (parseLineRef r); simpl; done.
  - destruct (truthy pos) as [r|]; [|done].
    split; [|done]. destruct (parseLineRef r); simpl; done.
Qed.

(** A successful run applies the sorted, deduplicated batch to the
    lines of the content, in list order. *)
Lemma run_ok_inv content edits report :
  applyHashlineEditsWithReport content edits = Ok report →
  edits ≠ [] →
  ∃ sorted lines,
    sortEdits (dedupeEdits edits).1 = Ok sorted
    ∧ validateLineRefs (contentLines content) (collectLineRefs sorted) = Ok ()
    ∧ detectOverlappingRanges sorted = Ok None
    ∧ applyEdits sorted (contentLines content) 0 = Ok (lines, noopEdits report)
    ∧ Types.content report = join [LF] lines
    ∧ deduplicatedEdits report = (dedupeEdits edits).2.
Proof.
  unfold applyHashlineEditsWithReport. intros Hrun Hne.
  destruct edits as [|e edits]; [done|].
  change (length (e :: edits) =? 0) with false in Hrun. cbv iota in Hrun.
  destruct (sortEdits _) as [sorted|] eqn:Hsort; simpl in Hrun; [|done].
  destruct (validateLineRefs _ _) as [[]|] eqn:Hval; simpl in Hrun; [|done].
  destruct (detectOverlappingRanges sorted) as [[o|]|] eqn:Hov;
    simpl in Hrun; try done.
  destruct (applyEdits sorted _ 0) as [[lines noop]|] eqn:Happ;
    simpl in Hrun; [|done].
  injection Hrun as <-. by exists sorted, lines.
Qed.

End ordering.

(** C2, as amended. The deduplicated batch is applied in descending
    order of the derived anchor line, bottom-of-file edits first: the
    applied sequence is a rearrangement of the batch in which no edit has
    a smaller line than a later one. Whole-file edits without a [pos],
    appends and prepends alike, get the sentinel below every line
    number, so both are applied last, after every anchored edit, and
    among them the appends before the prepends. A successful run applies
    exactly this sequence, in this order, to the lines of the content. *)
Theorem edits_apply_in_descending_order {V : Validation} {T : TextNormalization} :
  (∀ deduped sorted,
     sortEdits deduped = Ok sorted →
     sorted ≡ₚ deduped
     ∧ ∀ i j a b,
         i < j → sorted !! i = Some a → sorted !! j = Some b →
         ∃ lineA lineB,
           getEditLineNumber a = Ok lineA
           ∧ getEditLineNumber b = Ok lineB
           ∧ anchorLt lineA lineB = false
           ∧ (editLineRefs a = [] →
              lineA = NegativeInfinity
              ∧ editLineRefs b = []
              ∧ editPrecedence a ≤ editPrecedence b))
  ∧ (∀ line, anchorLt NegativeInfinity (Finite line) = true)
  ∧ (∀ content edits report,
       edits ≠ [] →
       applyHashlineEditsWithReport content edits = Ok report →
       ∃ sorted lines,
         sortEdits (dedupeEdits edits).1 = Ok sorted
         ∧ applyEdits sorted (contentLines content) 0
           = Ok (lines, noopEdits report)
         ∧ Types.content report = join [LF] lines).
Proof.
  split_and!.
  - intros deduped sorted Hsort.
    apply sortEdits_spec in Hsort as [Hperm Hsorted].
    split; [done|]. intros i j a b Hij Ha Hb.
    destruct (Hsorted i j a b Hij Ha Hb) as (lineA & lineB & HA & HB & Hbefore).
    exists lineA, lineB. split_and!; try done.
    + apply editBefore_spec in Hbefore as [Hlt|[-> _]].
      * by apply anchorLt_asym.
      * apply anchorLt_irrefl.
    + intros Hwhole. apply getEditLineNumber_sentinel in Hwhole.
      assert (lineA = NegativeInfinity) as -> by congruence.
      apply editBefore_spec in Hbefore as [Hlt|[<- Hprec]].
      * by destruct lineB.
      * split_and!; [done| |done]. by apply getEditLineNumber_sentinel.
  - done.
  - intros content edits report Hne Hrun.
    destruct (run_ok_inv content edits report Hrun Hne)
      as (sorted & lines & Hsort & _ & _ & Happ & Hcontent & _).
    by exists sorted, lines.
Qed.

Lemma edits_apply_in_descending_order_witness :
  let top := Prepend None (Text (js "top")) in
  let after1 := Append (Some (js "1")) (Text (js "x")) in
  let bottom := Append None (Text (js "bottom")) in
  let line3 := Replace (js "3") None (Text (js "y")) in
  (∃ lineA lineB,
     getEditLineNumber (V := SpecHelpers.validation) bottom = Ok lineA
     ∧ getEditLineNumber (V := SpecHelpers.validation) top = Ok lineB
     ∧ anchorLt lineA lineB = false
     ∧ (editLineRefs bottom = [] →
        lineA = NegativeInfinity
        ∧ editLineRefs top = []
        ∧ editPrecedence bottom ≤ editPrecedence top))
  ∧ (∃ sorted lines,
       sortEdits (V := SpecHelpers.validation)
         (@dedupeEdits SpecHelpers.textNormalization [after1; line3]).1
       = Ok sorted
       ∧ @applyEdits SpecHelpers.validation SpecHelpers.textNormalization
           sorted (contentLines (js "a" ++ [LF] ++ js "b" ++ [LF] ++ js "c")) 0
         = Ok (lines, 0)
       ∧ js "a" ++ [LF] ++ js "x" ++ [LF] ++ js "b" ++ [LF] ++ js "y"
         = join [LF] lines).
Proof.
  intros top after1 bottom line3. split;
  [|refine (proj2 (proj2 (edits_apply_in_descending_order
                            (V := SpecHelpers.validation)
                            (T := SpecHelpers.textNormalization)))
                  (js "a" ++ [LF] ++ js "b" ++ [LF] ++ js "c")
                  [after1; line3]
                  {| content :=
                       js "a" ++ [LF] ++ js "x" ++ [LF] ++ js "b" ++ [LF] ++ js "y";
                     noopEdits := 0; deduplicatedEdits := 0 |} _ _);
    [discriminate|reflexivity]].
  refine (proj2 (proj1 (edits_apply_in_descending_order
                          (V := SpecHelpers.validation)
                          (T := SpecHelpers.textNormalization))
                       [top; after1; bottom; line3]
                       [line3; after1; bottom; top] _)
                2 3 bottom top _ _ _).
  - reflexivity.
  - lia.
  - reflexivity.
  - reflexivity.
Defined.

(** C2 as stated fails for the whole-file prepend: submitted first and
    without a [pos], it is applied last, after the replacement of line
    1, not first. *)
Lemma whole_file_prepend_counterexample :
  let top := Prepend None (Text (js "top")) in
  let line1 := Replace (js "1") None (Text (js "x")) in
  sortEdits (V := SpecHelpers.validation) [top; line1] = Ok [line1; top]
  ∧ SpecHelpers.run (js "a") [top; line1]
    = Ok {| content := js "top" ++ [LF] ++ js "x";
            noopEdits := 0; deduplicatedEdits := 0 |}.
Proof. split; vm_compute; reflexivity. Qed.

(** ** Overlapping ranges *)

Section overlap.
Context {V : Validation} {T : TextNormalization}.

Lemma validateLineRefs_ok lines refs :
  validateLineRefs lines refs = Ok () ↔
  ∀ ref, ref ∈ refs → validateLineRef lines ref = Ok ().
Proof.
  induction refs as [|ref refs IH]; simpl.
  - split; [|done]. by intros _ ref ?%elem_of_nil.
  - destruct (validateLineRef lines ref) as [[]|e] eqn:E; simpl.
    + rewrite IH. split.
      * intros Hrest r [->|?]%elem_of_cons; [done|by apply Hrest].
      * intros Hall r Hr. apply Hall. by right.
    + split; [done|]. intros Hall.
      specialize (Hall ref (list_elem_of_here _ _)). congruence.
Qed.

(** The ranges are those of the ranged replaces of the batch, each
    with its index; no other edit contributes. *)
Lemma collectRanges_spec edits : ∀ i ranges,
  collectRanges edits i = Ok ranges →
  NoDup (rangeIdx <$> ranges)
  ∧ (∀ r, r ∈ ranges →
       i ≤ rangeIdx r
       ∧ ∃ pos e payload s f,
           edits !! (rangeIdx r - i) = Some (Replace pos (Some e) payload)
           ∧ e ≠ []
           ∧ parseLineRef pos = Ok s ∧ rangeStart r = line s
           ∧ parseLineRef e = Ok f ∧ rangeEnd r = line f)
  ∧ (∀ k pos e payload,
       edits !! k = Some (Replace pos (Some e) payload) → e ≠ [] →
       ∃ r, r ∈ ranges ∧ rangeIdx r = i + k).
Proof.
  induction edits as [|edit edits IH]; intros i ranges Hranges.
  - simpl in Hranges. injection Hranges as <-.
    split_and!; [constructor|by intros r ?%elem_of_nil|done].
  - assert (∀ ranges', collectRanges edits (S i) = Ok ranges' →
              (∀ pos e payload, edit = Replace pos (Some e) payload → e = []) →
              ranges = ranges' →
              NoDup (rangeIdx <$> ranges)
              ∧ (∀ r, r ∈ ranges →
                   i ≤ rangeIdx r
                   ∧ ∃ pos e payload s f,
                       (edit :: edits) !! (rangeIdx r - i)
                       = Some (Replace pos (Some e) payload)
                       ∧ e ≠ []
                       ∧ parseLineRef pos = Ok s ∧ rangeStart r = line s
                       ∧ parseLineRef e = Ok f ∧ rangeEnd r = line f)
              ∧ (∀ k pos e payload,
                   (edit :: edits) !! k = Some (Replace pos (Some e) payload) →
                   e ≠ [] → ∃ r, r ∈ ranges ∧ rangeIdx r = i + k)) as Hskip.
    { intros ranges' Hrest Hnot ->.
      destruct (IH _ _ Hrest) as (Hnd & Hsound & Hcomplete).
      split_and!; [done| |].
      - intros r Hr. destruct (Hsound r Hr) as (Hle & Hedit).
        split; [lia|].
        replace (rangeIdx r - i) with (S (rangeIdx r - S i)) by lia. done.
      - intros [|k] pos e payload Hk Hne; simpl in Hk.
        + injection Hk as ->. by specialize (Hnot _ _ _ eq_refl).
        + destruct (Hcomplete k pos e payload Hk Hne) as (r & Hr & Hidx).
          exists r. split; [done|lia]. }
    simpl in Hranges.
    destruct edit as [pos end_ payload|pos payload|pos payload];
      [|by eapply Hskip..].
    destruct end_ as [[|c e]|]; simpl in Hranges;
      [by eapply Hskip; [done|intros ??? [= _ <- _]|]
      | |by eapply Hskip].
    destruct (parseLineRef pos) as [s|] eqn:Hs; simpl in Hranges; [|done].
    destruct (parseLineRef (c :: e)) as [f|] eqn:Hf; simpl in Hranges; [|done].
    destruct (collectRanges edits (S i)) as [ranges'|] eqn:Hrest;
      simpl in Hranges; [|done].
    injection Hranges as <-.
    destruct (IH _ _ Hrest) as (Hnd & Hsound & Hcomplete).
    split_and!.
    + rewrite fmap_cons. simpl. apply NoDup_cons. split; [|done].
      intros (r & Hidx & Hr)%list_elem_of_fmap.
      destruct (Hsound r Hr) as [Hle _]. lia.
    + intros r [->|Hr]%elem_of_cons; simpl.
      * split; [done|]. rewrite Nat.sub_diag. simpl.
        by exists pos, (c :: e), payload, s, f.
      * destruct (Hsound r Hr) as (Hle & Hedit). split; [lia|].
        replace (rangeIdx r - i) with (S (rangeIdx r - S i)) by lia. done.
    + intros [|k] pos' e' payload' Hk Hne; simpl in Hk.
      * eexists. split; [by left|]. simpl. lia.
      * destruct (Hcomplete k pos' e' payload' Hk Hne) as (r & Hr & Hidx).
        exists r. split; [by right|lia].
Qed.

(** When its references parse, a batch has its ranges. *)
Lemma collectRanges_parses edits : ∀ i,
  (∀ ref, ref ∈ collectLineRefs edits → parses ref) →
  ∃ ranges, collectRanges edits i = Ok ranges.
Proof.
  induction edits as [|edit edits IH]; intros i Hparse; simpl; [by eexists|].
  assert (∀ ref, ref ∈ collectLineRefs edits → parses ref) as Hrest.
  { intros ref Hr. apply Hparse. unfold collectLineRefs in *. simpl.
    apply elem_of_app. by right. }
  assert (∀ ref, ref ∈ editLineRefs edit → parses ref) as Hhere.
  { intros ref Hr. apply Hparse. unfold collectLineRefs in *. simpl.
    apply elem_of_app. by left. }
  destruct edit as [pos end_ payload|pos payload|pos payload]; [|by apply IH..].
  simpl in Hhere. destruct (truthy end_) as [e|]; [|by apply IH].
  destruct (Hhere pos) as [s ->]; [set_solver|].
  destruct (Hhere e) as [f ->]; [set_solver|]. simpl.
  destruct (IH (S i) Hrest) as [ranges ->]. simpl. by eexists.
Qed.

Lemma rangeBefore_start a b :
  rangeBefore a b = true → (rangeStart a ≤ rangeStart b)%Z.
Proof.
  unfold rangeBefore. intros [Hlt|[Heq _]%andb_true_iff]%orb_true_iff.
  - apply Z.ltb_lt in Hlt. lia.
  - apply Z.eqb_eq in Heq. lia.
Qed.

Lemma rangeBefore_total a b : rangeBefore a b = false → rangeBefore b a = true.
Proof.
  unfold rangeBefore.
  destruct (Z.ltb_spec (rangeStart a) (rangeStart b)); simpl; [done|].
  destruct (Z.eqb_spec (rangeStart a) (rangeStart b)) as [Heq|]; simpl.
  - intros Hle%Z.leb_gt. rewrite Heq, Z.ltb_irrefl, Z.eqb_refl. simpl.
    apply Z.leb_le. lia.
  - intros _. apply orb_true_iff. left. apply Z.ltb_lt. lia.
Qed.

Lemma rangeBefore_trans a b c :
  rangeBefore a b = true → rangeBefore b c = true → rangeBefore a c = true.
Proof.
  unfold rangeBefore.
  rewrite !orb_true_iff, !andb_true_iff, !Z.ltb_lt, !Z.eqb_eq, !Z.leb_le. lia.
Qed.

(** No report: every interval ends before each later one starts. *)
Lemma firstOverlap_None rest : ∀ prev,
  StronglySorted (λ a b, rangeBefore a b = true) (prev :: rest) →
  firstOverlap prev rest = None →
  StronglySorted disjointBefore (prev :: rest).
Proof.
  induction rest as [|curr rest IH]; intros prev Hsorted Hnone.
  - repeat constructor.
  - simpl in Hnone.
    destruct (Z.leb_spec (rangeStart curr) (rangeEnd prev)) as [|Hlt]; [done|].
    apply StronglySorted_inv in Hsorted as [Hsorted Hall].
    constructor; [by apply IH|].
    constructor; [done|].
    apply StronglySorted_inv in Hsorted as [_ Hcurr].
    eapply Forall_impl; [exact Hcurr|]. intros b Hb.
    apply rangeBefore_start in Hb. unfold disjointBefore. lia.
Qed.

(** A report names two neighbours of the sorted intervals, the first
    that touch or overlap. *)
Lemma firstOverlap_Some rest : ∀ prev o,
  firstOverlap prev rest = Some o →
  ∃ k a b,
    (prev :: rest) !! k = Some a ∧ (prev :: rest) !! S k = Some b
    ∧ (rangeStart b ≤ rangeEnd a)%Z
    ∧ o = {| prevEdit := rangeIdx a + 1;
             prevStart := rangeStart a; prevEnd := rangeEnd a;
             currEdit := rangeIdx b + 1;
             currStart := rangeStart b; currEnd := rangeEnd b |}
    ∧ ∀ k' a' b',
        k' < k → (prev :: rest) !! k' = Some a' →
        (prev :: rest) !! S k' = Some b' → disjointBefore a' b'.
Proof.
  induction rest as [|curr rest IH]; intros prev o Hsome; [done|].
  simpl in Hsome.
  destruct (Z.leb_spec (rangeStart curr) (rangeEnd prev)) as [Hle|Hlt].
  - injection Hsome as <-. exists 0, prev, curr.
    split_and!; try done. intros k' a' b' Hk'. lia.
  - destruct (IH curr o Hsome) as (k & a & b & Ha & Hb & Hle & Ho & Hfirst).
    exists (S k), a, b. split_and!; try done.
    intros [|k'] a' b' Hk' Ha' Hb'; simpl in *.
    + by simplify_eq.
    + apply (Hfirst k'); [lia|done..].
Qed.

End overlap.

Section batch_errors.
Context {V : Validation} {T : TextNormalization}.

(** With its references parsed, applying an edit fails only with an
    inverted range or an empty insertion. *)
Lemma applyEdit_Err lines edit e :
  (∀ ref, ref ∈ editLineRefs edit → parses ref) →
  applyEdit lines edit = Err e → raisedByEdit e.
Proof.
  intros Hparse. destruct edit as [pos end_ payload|pos payload|pos payload];
    simpl in *.
  - destruct (truthy end_) as [f|].
    + destruct (Hparse pos) as [s Hs]; [set_solver|].
      destruct (Hparse f) as [f' Hf]; [set_solver|].
      unfold applyReplaceLines. simpl. rewrite Hs, Hf. simpl.
      destruct (line f' <? line s)%Z; [|done]. by intros [= <-].
    + destruct (Hparse pos) as [s Hs]; [set_solver|].
      unfold applySetLine. simpl. by rewrite Hs.
  - destruct (truthy pos) as [p|].
    + destruct (Hparse p) as [s Hs]; [set_solver|].
      unfold applyInsertAfter. simpl. rewrite Hs. simpl.
      destruct (length _ =? 0); [|done]. by intros [= <-].
    + unfold applyAppend. destruct (length _ =? 0); [by intros [= <-]|].
      by destruct (isEmptyFile lines).
  - destruct (truthy pos) as [p|].
    + destruct (Hparse p) as [s Hs]; [set_solver|].
      unfold applyInsertBefore. simpl. rewrite Hs. simpl.
      destruct (length _ =? 0); [|done]. by intros [= <-].
    + unfold applyPrepend. destruct (length _ =? 0); [by intros [= <-]|].
      by destruct (isEmptyFile lines).
Qed.

Lemma applyEdits_Err edits : ∀ lines n e,
  (∀ ref, ref ∈ collectLineRefs edits → parses ref) →
  applyEdits edits lines n = Err e → raisedByEdit e.
Proof.
  induction edits as [|edit edits IH]; intros lines n e Hparse; [done|].
  assert (∀ ref, ref ∈ collectLineRefs edits → parses ref) as Hrest.
  { intros ref Hr. apply Hparse. unfold collectLineRefs in *. simpl.
    apply elem_of_app. by right. }
  assert (∀ ref, ref ∈ editLineRefs edit → parses ref) as Hhere.
  { intros ref Hr. apply Hparse. unfold collectLineRefs in *. simpl.
    apply elem_of_app. by left. }
  simpl. destruct (applyEdit lines edit) as [next|e'] eqn:Hedit; simpl.
  - destruct (arraysEqual next lines); by apply IH.
  - intros [= <-]. by eapply applyEdit_Err.
Qed.

Lemma validated_parses lines refs :
  validateLineRefs lines refs = Ok () → ∀ ref, ref ∈ refs → parses ref.
Proof.
  intros Hval ref Hr. rewrite validateLineRefs_ok in Hval.
  destruct (validateLineRef_ok lines ref (Hval ref Hr)) as (r & Hr' & _).
  by exists r.
Qed.

(** The run of a non-empty batch, once sorted and validated. *)
Lemma run_validated content edits sorted :
  edits ≠ [] →
  sortEdits (dedupeEdits edits).1 = Ok sorted →
  validateLineRefs (contentLines content) (collectLineRefs sorted) = Ok () →
  applyHashlineEditsWithReport content edits
  = overlapError ← detectOverlappingRanges sorted;
    match overlapError with
    | Some o => Err (OverlappingRangeEdits o)
    | None =>
        '(lines, noop) ← applyEdits sorted (contentLines content) 0;
        Ok {| content := join [LF] lines;
              noopEdits := noop;
              deduplicatedEdits := (dedupeEdits edits).2 |}
    end.
Proof.
  intros Hne Hsort Hval. unfold applyHashlineEditsWithReport.
  destruct edits as [|e edits]; [done|].
  change (length (e :: edits) =? 0) with false. cbv iota.
  rewrite Hsort. simpl. by rewrite Hval.
Qed.

End batch_errors.

Section overlap_verdict.
Context {V : Validation} {T : TextNormalization}.

Lemma lookup_idx_ne (l : list Range) a b i j :
  NoDup (rangeIdx <$> l) →
  l !! i = Some a → l !! j = Some b → i ≠ j → rangeIdx a ≠ rangeIdx b.
Proof.
  intros Hnd Ha Hb Hij Heq. apply Hij.
  apply (NoDup_lookup _ i j (rangeIdx a) Hnd).
  - by rewrite list_lookup_fmap, Ha.
  - by rewrite list_lookup_fmap, Hb, Heq.
Qed.

(** The verdict of the check in terms of the intervals. *)
Lemma detectOverlappingRanges_spec edits verdict :
  detectOverlappingRanges edits = Ok verdict →
  ∃ ranges,
    collectRanges edits 0 = Ok ranges
    ∧ match verdict with
      | Some o =>
          ∃ a b,
            a ∈ ranges ∧ b ∈ ranges ∧ rangeIdx a ≠ rangeIdx b
            ∧ rangeBefore a b = true
            ∧ (rangeStart b ≤ rangeEnd a)%Z
            ∧ o = {| prevEdit := rangeIdx a + 1;
                     prevStart := rangeStart a; prevEnd := rangeEnd a;
                     currEdit := rangeIdx b + 1;
                     currStart := rangeStart b; currEnd := rangeEnd b |}
      | None =>
          ∀ a b,
            a ∈ ranges → b ∈ ranges → rangeIdx a ≠ rangeIdx b →
            rangeBefore a b = true → (rangeEnd a < rangeStart b)%Z
      end.
Proof.
  unfold detectOverlappingRanges.
  destruct (collectRanges edits 0) as [ranges|] eqn:Hranges; simpl; [|done].
  intros Hverdict. exists ranges. split; [done|].
  destruct (collectRanges_spec _ _ _ Hranges) as (Hnd & _ & _).
  pose proof (stableSort_Permutation rangeBefore ranges) as Hperm.
  pose proof (stableSort_sorted rangeBefore rangeBefore_total
                rangeBefore_trans ranges) as Hsorted.
  assert (NoDup (rangeIdx <$> stableSort rangeBefore ranges)) as Hnd'.
  { by rewrite Hperm. }
  destruct (length ranges <? 2) eqn:Hlen.
  - injection Hverdict as <-. intros a b Ha Hb Hne.
    apply Nat.ltb_lt in Hlen.
    destruct ranges as [|r [|r' ranges]]; simpl in Hlen; [|  |lia].
    + by apply elem_of_nil in Ha.
    + apply list_elem_of_singleton in Ha, Hb. congruence.
  - destruct (stableSort rangeBefore ranges) as [|first rest] eqn:Hordered.
    { apply Permutation_nil_l in Hperm. subst. done. }
    injection Hverdict as <-.
    destruct (firstOverlap first rest) as [o|] eqn:Hfirst.
    + destruct (firstOverlap_Some _ _ _ Hfirst)
        as (k & a & b & Ha & Hb & Hle & -> & _).
      exists a, b. split_and!; try done.
      * rewrite <- Hperm. by eapply list_elem_of_lookup_2.
      * rewrite <- Hperm. by eapply list_elem_of_lookup_2.
      * apply (lookup_idx_ne (first :: rest) a b k (S k)); [done..|lia].
      * apply (StronglySorted_lookup _ _ k (S k) a b Hsorted); [lia|done..].
    + pose proof (firstOverlap_None _ _ Hsorted Hfirst) as Hdisjoint.
      intros a b Ha Hb Hne Hab.
      rewrite <- Hperm in Ha, Hb.
      apply list_elem_of_lookup in Ha as [i Hi], Hb as [j Hj].
      destruct (Nat.lt_total i j) as [Hij|[->|Hji]].
      * apply (StronglySorted_lookup _ _ i j a b Hdisjoint); done.
      * congruence.
      * pose proof (StronglySorted_lookup _ _ j i b a Hdisjoint Hji Hj Hi)
          as Hba.
        pose proof (StronglySorted_lookup _ _ j i b a Hsorted Hji Hj Hi)
          as Hba'. simpl in Hba'.
        unfold disjointBefore in Hba. unfold rangeBefore in Hab, Hba'.
        rewrite !orb_true_iff, !andb_true_iff, !Z.ltb_lt, !Z.eqb_eq,
          !Z.leb_le in Hab, Hba'. lia.
Qed.

End overlap_verdict.

(** C3, as amended. Only ranged replaces take part in the overlap check:
    the intervals are those of the replaces with an [end], and
    single-line replaces, appends and prepends contribute none. The
    check reports when two neighbours of the intervals sorted by start
    then end touch or overlap ([next.start <= prev.end]), with the line
    spans of both; it passes exactly when, of any two intervals, the one
    sorted first ends before the other starts, as for lines 2-3 and 4-5.
    In a batch the check runs on the edits that survive deduplication,
    once the batch is sorted and its references are validated: a report
    makes the batch fail with [OverlappingRangeEdits], and without a
    report the batch does not fail with that error. *)
Theorem overlapping_ranges_are_rejected {V : Validation} {T : TextNormalization} :
  (∀ edits verdict,
     detectOverlappingRanges edits = Ok verdict →
     ∃ ranges,
       collectRanges edits 0 = Ok ranges
       ∧ (∀ r, r ∈ ranges →
            ∃ pos e payload s f,
              edits !! rangeIdx r = Some (Replace pos (Some e) payload)
              ∧ e ≠ []
              ∧ parseLineRef pos = Ok s ∧ rangeStart r = line s
              ∧ parseLineRef e = Ok f ∧ rangeEnd r = line f)
       ∧ (∀ k pos e payload,
            edits !! k = Some (Replace pos (Some e) payload) → e ≠ [] →
            ∃ r, r ∈ ranges ∧ rangeIdx r = k)
       ∧ match verdict with
         | Some o =>
             ∃ a b,
               a ∈ ranges ∧ b ∈ ranges ∧ rangeIdx a ≠ rangeIdx b
               ∧ rangeBefore a b = true
               ∧ (rangeStart b ≤ rangeEnd a)%Z
               ∧ prevStart o = rangeStart a ∧ prevEnd o = rangeEnd a
               ∧ currStart o = rangeStart b ∧ currEnd o = rangeEnd b
         | None =>
             ∀ a b,
               a ∈ ranges → b ∈ ranges → rangeIdx a ≠ rangeIdx b →
               rangeBefore a b = true → (rangeEnd a < rangeStart b)%Z
         end)
  ∧ (∀ content edits sorted,
       edits ≠ [] →
       sortEdits (dedupeEdits edits).1 = Ok sorted →
       validateLineRefs (contentLines content) (collectLineRefs sorted) = Ok () →
       ∃ verdict,
         detectOverlappingRanges sorted = Ok verdict
         ∧ match verdict with
           | Some o =>
               applyHashlineEditsWithReport content edits
               = Err (OverlappingRangeEdits o)
           | None =>
               ∀ o, applyHashlineEditsWithReport content edits
                    ≠ Err (OverlappingRangeEdits o)
           end).
Proof.
  split.
  - intros edits verdict Hverdict.
    destruct (detectOverlappingRanges_spec edits verdict Hverdict)
      as (ranges & Hranges & Hcases).
    exists ranges. destruct (collectRanges_spec _ _ _ Hranges) as (_ & Hsound & Hcomplete).
    split_and!; [done| | |].
    + intros r Hr. destruct (Hsound r Hr) as (_ & Hedit).
      by rewrite Nat.sub_0_r in Hedit.
    + intros k pos e payload Hk Hne. by apply (Hcomplete k pos e payload).
    + destruct verdict as [o|]; [|done].
      destruct Hcases as (a & b & Ha & Hb & Hne & Hab & Hle & ->).
      by exists a, b.
  - intros content edits sorted Hne Hsort Hval.
    rewrite (run_validated content edits sorted Hne Hsort Hval).
    pose proof (validated_parses _ _ Hval) as Hparse.
    destruct (collectRanges_parses sorted 0 Hparse) as [ranges Hranges].
    assert (∃ verdict, detectOverlappingRanges sorted = Ok verdict)
      as [verdict Hverdict].
    { unfold detectOverlappingRanges. rewrite Hranges. simpl.
      destruct (length ranges <? 2); [by eexists|].
      destruct (stableSort rangeBefore ranges); by eexists. }
    exists verdict. split; [done|]. rewrite Hverdict. simpl.
    destruct verdict as [o|]; [done|]. intros o.
    destruct (applyEdits sorted (contentLines content) 0) as [[lines noop]|e]
      eqn:Happ; simpl; [done|].
    intros [= ->]. by apply (applyEdits_Err _ _ _ _ Hparse) in Happ.
Qed.

Lemma overlapping_ranges_are_rejected_witness :
  let content :=
    js "a" ++ [LF] ++ js "b" ++ [LF] ++ js "c" ++ [LF] ++ js "d" ++ [LF] ++ js "e" in
  let r23 := Replace (js "2") (Some (js "3")) (Text (js "x")) in
  let r45 := Replace (js "4") (Some (js "5")) (Text (js "y")) in
  let r34 := Replace (js "3") (Some (js "4")) (Text (js "z")) in
  (∃ verdict,
     detectOverlappingRanges (V := SpecHelpers.validation) [r45; r23] = Ok verdict
     ∧ match verdict with
       | Some o => SpecHelpers.run content [r23; r45] = Err (OverlappingRangeEdits o)
       | None => ∀ o, SpecHelpers.run content [r23; r45]
                      ≠ Err (OverlappingRangeEdits o)
       end)
  ∧ (∃ verdict,
       detectOverlappingRanges (V := SpecHelpers.validation) [r34; r23] = Ok verdict
       ∧ match verdict with
         | Some o => SpecHelpers.run content [r23; r34] = Err (OverlappingRangeEdits o)
         | None => ∀ o, SpecHelpers.run content [r23; r34]
                        ≠ Err (OverlappingRangeEdits o)
         end)
  ∧ (∀ a b,
       a ∈ [{| rangeStart := 4; rangeEnd := 5; rangeIdx := 0 |};
            {| rangeStart := 2; rangeEnd := 3; rangeIdx := 1 |}] →
       b ∈ [{| rangeStart := 4; rangeEnd := 5; rangeIdx := 0 |};
            {| rangeStart := 2; rangeEnd := 3; rangeIdx := 1 |}] →
       rangeIdx a ≠ rangeIdx b →
       rangeBefore a b = true → (rangeEnd a < rangeStart b)%Z).
Proof.
  intros content r23 r45 r34. split_and!.
  - refine (proj2 (overlapping_ranges_are_rejected
                     (V := SpecHelpers.validation)
                     (T := SpecHelpers.textNormalization))
                  content [r23; r45] [r45; r23] _ _ _).
    + discriminate.
    + reflexivity.
    + reflexivity.
  - refine (proj2 (overlapping_ranges_are_rejected
                     (V := SpecHelpers.validation)
                     (T := SpecHelpers.textNormalization))
                  content [r23; r34] [r34; r23] _ _ _).
    + discriminate.
    + reflexivity.
    + reflexivity.
  - destruct (proj1 (overlapping_ranges_are_rejected
                       (V := SpecHelpers.validation)
                       (T := SpecHelpers.textNormalization))
                    [r45; r23] None eq_refl)
      as (ranges & Hranges & _ & _ & Hdisjoint).
    injection Hranges as <-. exact Hdisjoint.
Defined.

(** C3 as stated fails in two ways. A batch that holds the same ranged
    replace twice holds two ranged replaces with overlapping intervals,
    yet it succeeds: the duplicate is dropped before the check. And the
    edits named by the error are numbered by their place in the sorted
    batch: of the submitted replaces of lines 2-4 (first) and 3-5
    (second), the error calls the first "edit 2" and the second
    "edit 1". *)
Lemma overlapping_ranges_counterexample :
  let content :=
    js "a" ++ [LF] ++ js "b" ++ [LF] ++ js "c" ++ [LF] ++ js "d" ++ [LF] ++ js "e" in
  let r23 := Replace (js "2") (Some (js "3")) (Text (js "x")) in
  let r24 := Replace (js "2") (Some (js "4")) (Text (js "x")) in
  let r35 := Replace (js "3") (Some (js "5")) (Text (js "y")) in
  SpecHelpers.run content [r23; r23]
  = Ok {| content := js "a" ++ [LF] ++ js "x" ++ [LF] ++ js "d" ++ [LF] ++ js "e";
          noopEdits := 0; deduplicatedEdits := 1 |}
  ∧ SpecHelpers.run content [r24; r35]
    = Err (OverlappingRangeEdits
             {| prevEdit := 2; prevStart := 2; prevEnd := 4;
                currEdit := 1; currStart := 3; currEnd := 5 |}).
Proof. split; vm_compute; reflexivity. Qed.

(** ** Failing batches *)

Section failure.
Context {T : TextNormalization}.

(** The loop over the sorted edits passes [skipValidation: true] and
    so never consults the hasher. *)
Lemma applyEdit_hash_independent parse hash1 hash2 lines edit :
  applyEdit (V := {| parseLineRef := parse; computeLineHash := hash1 |}) lines edit
  = applyEdit (V := {| parseLineRef := parse; computeLineHash := hash2 |}) lines edit.
Proof. destruct edit as [pos [e|] p|[pos|] p|[pos|] p]; reflexivity. Qed.

Lemma applyEdits_hash_independent parse hash1 hash2 edits : ∀ lines n,
  applyEdits (V := {| parseLineRef := parse; computeLineHash := hash1 |})
             edits lines n
  = applyEdits (V := {| parseLineRef := parse; computeLineHash := hash2 |})
               edits lines n.
Proof.
  induction edits as [|edit edits IH]; intros lines n; [done|].
  simpl. rewrite (applyEdit_hash_independent parse hash1 hash2).
  destruct (applyEdit (V := _) lines edit) as [next|]; simpl; [|done].
  destruct (arraysEqual next lines); apply IH.
Qed.

End failure.

(** C1. A call that fails returns an error and nothing else: no report
    and no content; the content is a string value that the call cannot
    change, and the line sequences built while applying the batch are
    dropped with the failure. The references collected from the sorted
    batch are validated against the lines of the content as given,
    before the first edit is applied: a violation found there is the
    outcome of the call whatever the edits would do, and a call that
    succeeds has all of them valid against those lines. The loop that
    applies the edits validates nothing against the lines it produces:
    it does not depend on the hasher, and with references that parse it
    fails only with an inverted range or an empty insertion. *)
Theorem failed_batch_is_aborted {V : Validation} {T : TextNormalization} :
  (∀ content edits e,
     applyHashlineEditsWithReport content edits = Err e →
     applyHashlineEdits content edits = Err e)
  ∧ (∀ content edits sorted e,
       edits ≠ [] →
       sortEdits (dedupeEdits edits).1 = Ok sorted →
       validateLineRefs (contentLines content) (collectLineRefs sorted) = Err e →
       applyHashlineEditsWithReport content edits = Err e)
  ∧ (∀ content edits report,
       edits ≠ [] →
       applyHashlineEditsWithReport content edits = Ok report →
       ∃ sorted,
         sortEdits (dedupeEdits edits).1 = Ok sorted
         ∧ ∀ ref, ref ∈ collectLineRefs sorted →
                  validateLineRef (contentLines content) ref = Ok ())
  ∧ (∀ hash' edits lines n,
       applyEdits edits lines n
       = applyEdits (V := {| parseLineRef := parseLineRef;
                             computeLineHash := hash' |}) edits lines n)
  ∧ (∀ edits lines n e,
       (∀ ref, ref ∈ collectLineRefs edits → parses ref) →
       applyEdits edits lines n = Err e →
       raisedByEdit e).
Proof.
  split_and!.
  - intros content edits e Hrun. unfold applyHashlineEdits. by rewrite Hrun.
  - intros content edits sorted e Hne Hsort Hval.
    unfold applyHashlineEditsWithReport.
    destruct edits as [|edit edits]; [done|].
    change (length (edit :: edits) =? 0) with false. cbv iota.
    rewrite Hsort. simpl. by rewrite Hval.
  - intros content edits report Hne Hrun.
    destruct (run_ok_inv content edits report Hrun Hne)
      as (sorted & lines & Hsort & Hval & _).
    exists sorted. split; [done|]. by apply validateLineRefs_ok.
  - intros hash' edits lines n. destruct V as [parse hash0].
    apply applyEdits_hash_independent.
  - intros edits lines n e Hparse Happ. by eapply applyEdits_Err.
Qed.

Lemma failed_batch_is_aborted_witness :
  let content := js "a" ++ [LF] ++ js "b" ++ [LF] ++ js "c" in
  let stale := Replace (js "2#ZZ") None (Text (js "x")) in
  let bottom := Append (Some (js "3")) (Text (js "y")) in
  let empty := Append None (Lines []) in
  SpecHelpers.run content [stale; bottom] = Err (StaleLineReference (js "2#ZZ"))
  ∧ @applyHashlineEdits SpecHelpers.validation SpecHelpers.textNormalization
      content [bottom; empty]
    = Err (EmptyInsertText OpAppend None)
  ∧ (∃ sorted,
       sortEdits (V := SpecHelpers.validation)
         (@dedupeEdits SpecHelpers.textNormalization [bottom]).1 = Ok sorted
       ∧ ∀ ref, ref ∈ collectLineRefs sorted →
                validateLineRef (V := SpecHelpers.validation)
                  (contentLines content) ref = Ok ())
  ∧ raisedByEdit (EmptyInsertText OpAppend None).
Proof.
  intros content stale bottom empty.
  pose proof (failed_batch_is_aborted (V := SpecHelpers.validation)
                (T := SpecHelpers.textNormalization))
    as (Hfail & Hvalidate & Hvalid & _ & Hloop).
  split_and!.
  - apply (Hvalidate content [stale; bottom] [bottom; stale]).
    + discriminate.
    + reflexivity.
    + reflexivity.
  - apply (Hfail content [bottom; empty]). reflexivity.
  - apply (Hvalid content [bottom]
             {| Types.content := content ++ [LF] ++ js "y";
                noopEdits := 0; deduplicatedEdits := 0 |}).
    + discriminate.
    + reflexivity.
  - apply (Hloop [empty] [] 0).
    + intros ref Hin. simpl in Hin. by apply elem_of_nil in Hin.
    + reflexivity.
Defined.

(** ** The primitives leave their input array alone *)

Section store_facts.
Context {V : Validation} {T : TextNormalization}.

Lemma fresh_lookup (h : Store.store) : h !! fresh (dom h) = None.
Proof. apply not_elem_of_dom, is_fresh. Qed.

Lemma alloc_subseteq (h : Store.store) v : h ⊆ <[fresh (dom h) := v]> h.
Proof. apply insert_subseteq, fresh_lookup. Qed.

(** A copy that is then updated in place. *)
Lemma alloc_update_subseteq (h : Store.store) v f :
  h ⊆ alter f (fresh (dom h)) (<[fresh (dom h) := v]> h).
Proof.
  rewrite alter_insert_eq. apply insert_subseteq, fresh_lookup.
Qed.

Lemma alloc_update_lookup (h : Store.store) v f :
  alter f (fresh (dom h)) (<[fresh (dom h) := v]> h) !! fresh (dom h)
  = Some (f v).
Proof. by rewrite alter_insert_eq, lookup_insert_eq. Qed.

Lemma lookup_after_alloc (h : Store.store) lines v w :
  h !! lines = Some v → <[fresh (dom h) := w]> h !! lines = Some v.
Proof.
  intros Hv. rewrite lookup_insert_ne; [done|].
  intros Heq. pose proof (fresh_lookup h). congruence.
Qed.

Lemma alloc_lookup (h : Store.store) v :
  <[fresh (dom h) := v]> h !! fresh (dom h) = Some v.
Proof. apply lookup_insert_eq. Qed.

(** Runs a primitive on the store: unfolds the computation, reads the
    input array through [Hv] and cases on the calls that may throw. *)
Ltac run_store Hv :=
  unfold Store.leavesInput, Store.elements, Store.call, Store.newArray,
    Store.update;
  unfold mbind, mret, Store.M_bind, Store.M_ret, result_bind; simpl;
  repeat (rewrite ?Hv, ?(lookup_after_alloc _ _ _ _ Hv); simpl;
          match goal with
          | |- context [if shouldValidate ?o then _ else _] =>
              destruct (shouldValidate o)
          | |- context [validateLineRef ?l ?a] =>
              destruct (validateLineRef l a) as [[]|]
          | |- context [parseLineRef ?a] => destruct (parseLineRef a)
          | |- context [if ?b then _ else _] => destruct b
          end; simpl);
  rewrite ?Hv, ?(lookup_after_alloc _ _ _ _ Hv); simpl;
  try done;
  try (split; [apply alloc_subseteq|done]);
  try (split;
   [first [apply alloc_update_subseteq | apply alloc_subseteq | done]
   |split; [apply fresh_lookup|];
    eexists; split;
    [first [apply alloc_update_lookup | apply alloc_lookup]|done]]; fail).

Lemma applySetLine_leavesInput h lines v anchor newText options :
  h !! lines = Some v →
  Store.leavesInput (Store.applySetLine lines anchor newText options) h
                    (applySetLine v anchor newText options).
Proof.
  intros Hv. unfold Store.applySetLine, applySetLine. run_store Hv.
Qed.

Lemma applyReplaceLines_leavesInput h lines v startAnchor endAnchor newText options :
  h !! lines = Some v →
  Store.leavesInput
    (Store.applyReplaceLines lines startAnchor endAnchor newText options) h
    (applyReplaceLines v startAnchor endAnchor newText options).
Proof.
  intros Hv. unfold Store.applyReplaceLines, applyReplaceLines. run_store Hv.
Qed.

Lemma applyInsertAfter_leavesInput h lines v anchor text options :
  h !! lines = Some v →
  Store.leavesInput (Store.applyInsertAfter lines anchor text options) h
                    (applyInsertAfter v anchor text options).
Proof.
  intros Hv. unfold Store.applyInsertAfter, applyInsertAfter. run_store Hv.
Qed.

Lemma applyInsertBefore_leavesInput h lines v anchor text options :
  h !! lines = Some v →
  Store.leavesInput (Store.applyInsertBefore lines anchor text options) h
                    (applyInsertBefore v anchor text options).
Proof.
  intros Hv. unfold Store.applyInsertBefore, applyInsertBefore. run_store Hv.
Qed.

Lemma applyAppend_leavesInput h lines v text :
  h !! lines = Some v →
  Store.leavesInput (Store.applyAppend lines text) h (applyAppend v text).
Proof.
  intros Hv. unfold Store.applyAppend, applyAppend. run_store Hv.
Qed.

Lemma applyPrepend_leavesInput h lines v text :
  h !! lines = Some v →
  Store.leavesInput (Store.applyPrepend lines text) h (applyPrepend v text).
Proof.
  intros Hv. unfold Store.applyPrepend, applyPrepend. run_store Hv.
Qed.

End store_facts.

(** C10. None of the six primitives mutates the array of lines it is
    given. Run in any store where [lines] holds the elements [v], each
    call leaves [lines] holding [v], and every other array of the store
    as it was; when it returns, the returned array is an object that did
    not exist before the call, distinct from [lines], and it holds what
    the value-level primitive computes from [v]; when it throws, it
    throws what the value-level primitive throws. The helpers of the
    validation and text normalization modules are taken not to mutate
    their arguments. *)
Theorem primitives_leave_input_unchanged {V : Validation} {T : TextNormalization}
    (h : Store.store) (lines : Store.loc) (v : list jsstring) :
  h !! lines = Some v →
  let unchanged (c : Store.M Store.loc) (pure : result (list jsstring)) :=
    ∃ h' r,
      c h = (h', r)
      ∧ h' !! lines = Some v
      ∧ h ⊆ h'
      ∧ match r with
        | Ok res =>
            res ≠ lines ∧ h !! res = None
            ∧ ∃ out, h' !! res = Some out ∧ pure = Ok out
        | Err e => pure = Err e
        end in
  (∀ anchor newText options,
     unchanged (Store.applySetLine lines anchor newText options)
               (applySetLine v anchor newText options))
  ∧ (∀ startAnchor endAnchor newText options,
       unchanged (Store.applyReplaceLines lines startAnchor endAnchor newText options)
                 (applyReplaceLines v startAnchor endAnchor newText options))
  ∧ (∀ anchor text options,
       unchanged (Store.applyInsertAfter lines anchor text options)
                 (applyInsertAfter v anchor text options))
  ∧ (∀ anchor text options,
       unchanged (Store.applyInsertBefore lines anchor text options)
                 (applyInsertBefore v anchor text options))
  ∧ (∀ text, unchanged (Store.applyAppend lines text) (applyAppend v text))
  ∧ (∀ text, unchanged (Store.applyPrepend lines text) (applyPrepend v text)).
Proof.
  intros Hv unchanged.
  assert (∀ c pure, Store.leavesInput c h pure → unchanged c pure) as Hleaves.
  { intros c pure. unfold Store.leavesInput, unchanged.
    destruct (c h) as [h' r]. intros [Hsub Hr]. exists h', r.
    split_and!; [done| |done|].
    - by eapply lookup_weaken.
    - destruct r as [res|e]; [|done].
      destruct Hr as [Hfresh Hout]. split_and!; [|done..].
      intros ->. congruence. }
  split_and!; intros; apply Hleaves.
  - by apply applySetLine_leavesInput.
  - by apply applyReplaceLines_leavesInput.
  - by apply applyInsertAfter_leavesInput.
  - by apply applyInsertBefore_leavesInput.
  - by apply applyAppend_leavesInput.
  - by apply applyPrepend_leavesInput.
Qed.

Lemma primitives_leave_input_unchanged_witness :
  let h : Store.store := {[ 0 := [js "a"; js "b"] ]} in
  ∃ h' r,
    Store.applySetLine (V := SpecHelpers.validation)
      (T := SpecHelpers.textNormalization) 0 (js "2") (Text (js "c")) None h
    = (h', r)
    ∧ h' !! 0 = Some [js "a"; js "b"]
    ∧ h ⊆ h'
    ∧ match r with
      | Ok res =>
          res ≠ 0 ∧ h !! res = None
          ∧ ∃ out, h' !! res = Some out
                   ∧ applySetLine (V := SpecHelpers.validation)
                       (T := SpecHelpers.textNormalization)
                       [js "a"; js "b"] (js "2") (Text (js "c")) None
                     = Ok out
      | Err e =>
          applySetLine (V := SpecHelpers.validation)
            (T := SpecHelpers.textNormalization)
            [js "a"; js "b"] (js "2") (Text (js "c")) None
          = Err e
      end.
Proof.
  intros h.
  refine (proj1 (primitives_leave_input_unchanged
                   (V := SpecHelpers.validation)
                   (T := SpecHelpers.textNormalization)
                   h 0 [js "a"; js "b"] _)
                (js "2") (Text (js "c")) None).
  reflexivity.
Defined.

(** ** Stale-wrap restoration *)

Section stale_wrap.
Local Arguments trim : simpl never.
Local Arguments stripAllWhitespace : simpl never.

Implicit Types (originalLines replacementLines : list jsstring).
Implicit Types (hits : list (jsstring * Candidate)).

(** The map built by the first loop: under each canonical form, the
    first original line having it and the number of lines having it. *)
Lemma canonicalToOriginal_lookup originalLines k :
  canonicalToOriginal originalLines !! k
  = match withCanonical k originalLines with
    | [] => None
    | first :: rest =>
        Some {| entryLine := first; entryCount := S (length rest) |}
    end.
Proof.
  unfold canonicalToOriginal, withCanonical.
  induction originalLines as [|line originalLines IH] using rev_ind.
  - simpl. by rewrite lookup_empty.
  - rewrite foldl_app, filter_app. simpl.
    set (m := foldl _ ∅ originalLines) in *.
    destruct (decide (stripAllWhitespace line = k)) as [Hk|Hk].
    + rewrite (filter_cons_True _ line []) by done. rewrite filter_nil.
      rewrite Hk. rewrite IH.
      destruct (filter _ originalLines) as [|first rest]; simpl.
      * by rewrite lookup_insert_eq.
      * rewrite lookup_insert_eq. rewrite length_app. simpl.
        do 3 f_equal. lia.
    + rewrite (filter_cons_False _ line []) by done.
      rewrite filter_nil, app_nil_r, <- IH.
      destruct (m !! stripAllWhitespace line); by rewrite lookup_insert_ne.
Qed.

Lemma hitCount_app k hits hits' :
  hitCount k (hits ++ hits') = hitCount k hits + hitCount k hits'.
Proof. unfold hitCount. by rewrite filter_app, length_app. Qed.

Lemma hitCount_cons k kc hits :
  hitCount k (kc :: hits)
  = (if decide (kc.1 = k) then 1 else 0) + hitCount k hits.
Proof.
  unfold hitCount. rewrite filter_cons. by destruct (decide (kc.1 = k)).
Qed.

Lemma hitCount_0 k hits : hitCount k hits = 0 ↔ k ∉ hits.*1.
Proof.
  unfold hitCount. rewrite length_zero_iff_nil. split.
  - intros Hnil (kc & -> & Hin)%list_elem_of_fmap.
    by eapply (filter_nil_not_elem_of _ _ kc Hnil).
  - intros Hnin. induction hits as [|kc hits IH]; [done|].
    rewrite filter_cons_False.
    + apply IH. intros Hin. apply Hnin. rewrite fmap_cons. by right.
    + intros Hk. apply Hnin. rewrite fmap_cons, <- Hk. by left.
Qed.

Lemma omap_cons' {A B} (f : A → option B) x l :
  omap f (x :: l) = match f x with Some y => y :: omap f l | None => omap f l end.
Proof. done. Qed.

(** The two maps after the loops, in terms of the hits. *)
Lemma scan_foldl originals replacementLines spans : ∀ counts candidates,
  let hits := omap (λ sl, spanCandidate originals replacementLines sl.1 sl.2)
                   spans in
  let st := foldl (scanStep originals replacementLines) (counts, candidates)
                  spans in
  (∀ k, default 0 (st.1 !! k) = default 0 (counts !! k) + hitCount k hits)
  ∧ st.2 = foldl (λ m kc, mapSet kc.1 kc.2 m) candidates hits.
Proof.
  induction spans as [|[s l] spans IH]; intros counts candidates.
  - split; [|done]. intros k. unfold hitCount. simpl. lia.
  - intros hits st. subst hits st. rewrite omap_cons'. cbn [foldl].
    unfold scanStep at 2 4. cbn [fst snd].
    destruct (spanCandidate originals replacementLines s l) as [[k0 c0]|];
      [|apply IH].
    destruct (IH (<[k0 := S (default 0 (counts !! k0))]> counts)
                 (mapSet k0 c0 candidates)) as [Hcounts Hcands].
    split; [|done]. intros k. rewrite Hcounts, hitCount_cons. cbn [fst].
    destruct (decide (k0 = k)) as [->|Hne].
    + rewrite lookup_insert_eq. simpl. lia.
    + rewrite lookup_insert_ne by done. lia.
Qed.

Lemma mapSet_keys {W} k (v : W) (m : list (jsstring * W)) k' :
  k' ∈ (mapSet k v m).*1 → k' = k ∨ k' ∈ m.*1.
Proof.
  induction m as [|[k1 v1] m IH]; simpl.
  - intros ->%list_elem_of_singleton. by left.
  - destruct (decide (k1 = k)) as [->|Hne]; simpl.
    + intros [->|Hin]%elem_of_cons; [by left|]. right. by right.
    + intros [->|Hin]%elem_of_cons; [right; by left|].
      destruct (IH Hin) as [->|Hm]; [by left|]. right. by right.
Qed.

Lemma mapSet_fresh {W} k (v : W) (m : list (jsstring * W)) :
  k ∉ m.*1 → mapSet k v m = m ++ [(k, v)].
Proof.
  induction m as [|[k1 v1] m IH]; simpl; [done|].
  intros Hnin. destruct (decide (k1 = k)) as [->|Hne].
  - exfalso. apply Hnin. by left.
  - f_equal. apply IH. intros Hin. apply Hnin. by right.
Qed.

Lemma mapSet_filter_other {W} (P : jsstring → Prop) `{∀ k, Decision (P k)}
    k (v : W) (m : list (jsstring * W)) :
  ¬ P k → filter (λ kc, P kc.1) (mapSet k v m) = filter (λ kc, P kc.1) m.
Proof.
  intros HP. induction m as [|[k1 v1] m IH]; simpl.
  - by rewrite filter_cons_False.
  - destruct (decide (k1 = k)) as [->|Hne].
    + by rewrite !filter_cons_False.
    + rewrite !filter_cons. simpl. by rewrite IH.
Qed.

Lemma foldl_mapSet_keys hits : ∀ m k,
  k ∈ (foldl (λ m kc, mapSet kc.1 kc.2 m) m hits).*1 → k ∈ m.*1 ∨ k ∈ hits.*1.
Proof.
  induction hits as [|[k0 c0] hits IH]; intros m k; simpl; [by left|].
  intros [Hm|Hh]%IH.
  - apply mapSet_keys in Hm as [->|Hm]; [right; by left|by left].
  - right. by right.
Qed.

(** Among the candidates, those whose canonical form was hit once are
    the hits themselves, in the order of the scan. *)
Lemma foldl_mapSet_filter (P : jsstring → Prop) `{∀ k, Decision (P k)} hits :
  (∀ k, P k → hitCount k hits ≤ 1) →
  filter (λ kc, P kc.1) (foldl (λ m kc, mapSet kc.1 kc.2 m) [] hits)
  = filter (λ kc, P kc.1) hits.
Proof.
  induction hits as [|[k0 c0] hits IH] using rev_ind; intros Hone; [done|].
  rewrite foldl_app, filter_app. simpl.
  assert (∀ k, P k → hitCount k hits ≤ 1) as Hone'.
  { intros k Hk. specialize (Hone k Hk). rewrite hitCount_app in Hone. lia. }
  destruct (decide (P k0)) as [HP|HP].
  - specialize (Hone k0 HP). rewrite hitCount_app in Hone.
    unfold hitCount at 2 in Hone. rewrite filter_cons_True in Hone by done.
    simpl in Hone. assert (hitCount k0 hits = 0) as Hzero by lia.
    apply hitCount_0 in Hzero.
    rewrite mapSet_fresh.
    + rewrite filter_app, IH by done. done.
    + intros [Hin|Hin]%foldl_mapSet_keys; [|done]. by apply elem_of_nil in Hin.
  - rewrite mapSet_filter_other by done.
    rewrite IH by done. rewrite filter_cons_False by done.
    by rewrite filter_nil, app_nil_r.
Qed.

(** The unique candidates in terms of the hits. *)
Lemma uniqueCandidates_hits originalLines replacementLines :
  let hits := scanHits originalLines replacementLines in
  uniqueCandidates originalLines replacementLines
  = (filter (λ kc, hitCount kc.1 hits = 1) hits).*2.
Proof.
  intros hits. unfold uniqueCandidates, scanCandidates.
  pose proof (scan_foldl (canonicalToOriginal originalLines) replacementLines
                (spanIndices (length replacementLines)) ∅ []) as [Hcounts Hcands].
  fold (scanHits originalLines replacementLines) in Hcounts, Hcands.
  fold hits in Hcounts, Hcands.
  destruct (foldl _ _ _) as [counts candidates]. simpl in *.
  f_equal. rewrite Hcands.
  etransitivity;
    [|etransitivity;
      [apply (foldl_mapSet_filter (λ k, hitCount k hits = 1) hits);
       intros k Hk; lia|]].
  - apply list_filter_iff. intros [k c]. simpl.
    by rewrite Hcounts, lookup_empty.
  - by apply list_filter_iff.
Qed.

(** The spans visited: every start, every length from 2 to 10 that
    fits. *)
Lemma elem_of_spanIndices n s l :
  (s, l) ∈ spanIndices n ↔ 2 ≤ l ≤ 10 ∧ s + l ≤ n.
Proof.
  unfold spanIndices. rewrite list_elem_of_bind. split.
  - intros (s0 & Hl & Hs0). apply list_elem_of_fmap in Hl as (l0 & [= -> ->] & Hl0).
    apply elem_of_seq in Hl0, Hs0. lia.
  - intros [Hl Hfit]. exists s. split.
    + apply list_elem_of_fmap. exists l. split; [done|]. apply elem_of_seq. lia.
    + apply elem_of_seq. lia.
Qed.

Lemma NoDup_spanIndices n : NoDup (spanIndices n).
Proof.
  unfold spanIndices. apply NoDup_bind.
  - intros s1 s2 [s l] _ _ H1 H2.
    apply list_elem_of_fmap in H1 as (l1 & [= -> ->] & _).
    by apply list_elem_of_fmap in H2 as (l2 & [= -> ->] & _).
  - intros s _. apply NoDup_fmap_2_strong; [|apply NoDup_seq].
    by intros l1 l2 _ _ [= ->].
  - apply NoDup_seq.
Qed.

Lemma existsb_false {A} (p : A → bool) (l : list A) :
  existsb p l = false ↔ ∀ x, x ∈ l → p x = false.
Proof.
  induction l as [|y l IH]; simpl.
  - split; [|done]. by intros _ x ?%elem_of_nil.
  - rewrite orb_false_iff, IH. split.
    + intros [Hy Hl] x [->|Hx]%elem_of_cons; [done|by apply Hl].
    + intros Hall. split; [apply Hall; by left|].
      intros x Hx. apply Hall. by right.
Qed.

(** When the body of the inner loop records a candidate. *)
Lemma spanCandidate_Some originalLines replacementLines s l k c :
  spanCandidate (canonicalToOriginal originalLines) replacementLines s l
  = Some (k, c) ↔
  (∀ line, line ∈ take l (drop s replacementLines) → trim line ≠ [])
  ∧ k = stripAllWhitespace (concat (take l (drop s replacementLines)))
  ∧ 6 ≤ length k
  ∧ ∃ line,
      withCanonical k originalLines = [line]
      ∧ c = {| start := s; len := l; replacement := line |}.
Proof.
  unfold spanCandidate.
  set (span := take l (drop s replacementLines)).
  set (canonical := stripAllWhitespace (concat span)).
  destruct (existsb _ span) eqn:Hblank.
  { split; [done|]. intros (Hnone & _).
    assert (existsb (λ line, length (trim line) =? 0) span = false) as Hf;
      [|congruence].
    apply existsb_false. intros line Hline. apply Nat.eqb_neq.
    specialize (Hnone line Hline). by destruct (trim line). }
  assert (∀ line, line ∈ span → trim line ≠ []) as Hnone.
  { intros line Hline Htrim. rewrite existsb_false in Hblank.
    specialize (Hblank line Hline). by rewrite Htrim in Hblank. }
  rewrite canonicalToOriginal_lookup.
  destruct (withCanonical canonical originalLines) as [|first rest] eqn:Hwith.
  { split; [done|]. intros (_ & -> & _ & line & Hline & _). congruence. }
  simpl. destruct rest as [|second rest]; simpl.
  - destruct (Nat.ltb_spec (length canonical) 6) as [Hshort|Hlong].
    + split; [done|]. intros (_ & -> & Hlen & _). lia.
    + split.
      * intros [= <- <-]. split_and!; try done. by exists first.
      * intros (_ & -> & _ & line & Hline & ->).
        rewrite Hwith in Hline. by injection Hline as ->.
  - split; [done|]. intros (_ & -> & _ & line & Hline & _).
    rewrite Hwith in Hline. done.
Qed.

Lemma spanCandidate_span originals replacementLines s l k c :
  spanCandidate originals replacementLines s l = Some (k, c) →
  start c = s ∧ len c = l.
Proof.
  unfold spanCandidate. destruct (existsb _ _); [done|].
  destruct (originals !! _); [|done].
  destruct (_ || _); [done|]. by intros [= <- <-].
Qed.

Lemma NoDup_all_equal {A} (l : list A) a :
  NoDup l → a ∈ l → (∀ x, x ∈ l → x = a) → length l = 1.
Proof.
  intros Hnd Ha Hall. destruct l as [|x [|y l]]; simpl.
  - by apply elem_of_nil in Ha.
  - done.
  - assert (x = a) as -> by (apply Hall; by left).
    assert (y = a) as -> by (apply Hall; right; by left).
    apply NoDup_cons in Hnd as [Hnin _]. exfalso. apply Hnin. by left.
Qed.

Lemma NoDup_scanHits originalLines replacementLines :
  NoDup (scanHits originalLines replacementLines).
Proof.
  unfold scanHits.
  generalize (NoDup_spanIndices (length replacementLines)).
  generalize (spanIndices (length replacementLines)).
  intros spans. induction 1 as [|[s l] spans Hnin Hnd IH].
  - constructor.
  - rewrite omap_cons'. simpl.
    destruct (spanCandidate _ _ s l) as [[k c]|] eqn:Hsl; [|done].
    apply NoDup_cons. split; [|done].
    intros ([s' l'] & Hin & Hsl')%list_elem_of_omap. simpl in Hsl'.
    apply spanCandidate_span in Hsl as [<- <-].
    apply spanCandidate_span in Hsl' as [<- <-]. done.
Qed.

(** A candidate is unique when its canonical form was hit by its span
    alone. *)
Lemma elem_of_uniqueCandidates originalLines replacementLines c :
  c ∈ uniqueCandidates originalLines replacementLines ↔
  ∃ k,
    (start c, len c) ∈ spanIndices (length replacementLines)
    ∧ spanCandidate (canonicalToOriginal originalLines) replacementLines
        (start c) (len c) = Some (k, c)
    ∧ ∀ s' l' c',
        (s', l') ∈ spanIndices (length replacementLines) →
        spanCandidate (canonicalToOriginal originalLines) replacementLines s' l'
        = Some (k, c') →
        (s', l') = (start c, len c).
Proof.
  rewrite uniqueCandidates_hits.
  set (hits := scanHits originalLines replacementLines).
  assert (∀ k c, (k, c) ∈ hits ↔
                 (start c, len c) ∈ spanIndices (length replacementLines)
                 ∧ spanCandidate (canonicalToOriginal originalLines)
                     replacementLines (start c) (len c) = Some (k, c))
    as Hhit.
  { intros k0 c0. unfold hits, scanHits. rewrite list_elem_of_omap. split.
    - intros ([s l] & Hin & Hsl). simpl in Hsl.
      destruct (spanCandidate_span _ _ _ _ _ _ Hsl) as [<- <-]. done.
    - intros [Hin Hsl]. by exists (start c0, len c0). }
  split.
  - intros ([k c0] & -> & [Hone Hin]%list_elem_of_filter)%list_elem_of_fmap.
    simpl in *. exists k. apply Hhit in Hin as [Hspan Hsl].
    split_and!; [done..|].
    intros s' l' c' Hspan' Hsl'.
    destruct (spanCandidate_span _ _ _ _ _ _ Hsl') as [<- <-].
    assert ((k, c') ∈ filter (λ kc, kc.1 = k) hits) as Hc'.
    { apply list_elem_of_filter. split; [done|]. by apply Hhit. }
    assert ((k, c0) ∈ filter (λ kc, kc.1 = k) hits) as Hc0.
    { apply list_elem_of_filter. split; [done|]. by apply Hhit. }
    unfold hitCount in Hone.
    destruct (filter (λ kc, kc.1 = k) hits) as [|x [|y rest]]; simplify_eq/=.
    apply list_elem_of_singleton in Hc', Hc0. congruence.
  - intros (k & Hspan & Hsl & Honly).
    apply list_elem_of_fmap. exists (k, c). split; [done|].
    apply list_elem_of_filter. split; [|by apply Hhit]. simpl.
    apply (NoDup_all_equal _ (k, c)).
    + apply NoDup_filter, NoDup_scanHits.
    + apply list_elem_of_filter. split; [done|]. by apply Hhit.
    + intros [k' c'] [Hk Hin]%list_elem_of_filter. simpl in Hk. subst k'.
      apply Hhit in Hin as [Hspan' Hsl'].
      specialize (Honly _ _ _ Hspan' Hsl'). injection Honly as Hs Hl.
      rewrite Hs, Hl in Hsl'. congruence.
Qed.

Lemma foldl_pointwise {A B} (f g : A → B → A) l : ∀ a,
  (∀ a x, f a x = g a x) → foldl f a l = foldl g a l.
Proof.
  induction l as [|x l IH]; intros a Hfg; simpl; [done|].
  rewrite Hfg. by apply IH.
Qed.

Lemma no_elements {A} (l : list A) : (∀ x, x ∉ l) → l = [].
Proof.
  destruct l as [|x l]; [done|]. intros Hnone.
  exfalso. apply (Hnone x). by left.
Qed.

(** The early returns of [restoreOldWrappedLines] are cases of its
    last lines: without original lines or with fewer than two
    replacement lines there is no candidate. *)
Lemma restoreOldWrappedLines_fold originalLines replacementLines :
  restoreOldWrappedLines originalLines replacementLines
  = foldl (λ lines c, spliceNat (start c) (len c) [replacement c] lines)
          replacementLines
          (sortByStartDesc (uniqueCandidates originalLines replacementLines)).
Proof.
  unfold restoreOldWrappedLines.
  destruct ((length originalLines =? 0) || (length replacementLines <? 2))
    eqn:Hearly.
  - rewrite (no_elements (uniqueCandidates originalLines replacementLines));
      [done|].
    intros c (k & Hspan & Hsl & _)%elem_of_uniqueCandidates.
    apply orb_true_iff in Hearly as [Hnone|Hshort].
    + apply Nat.eqb_eq, nil_length_inv in Hnone. subst originalLines.
      apply spanCandidate_Some in Hsl as (_ & _ & _ & line & Hline & _).
      done.
    + apply Nat.ltb_lt in Hshort. apply elem_of_spanIndices in Hspan. lia.
  - destruct (length (uniqueCandidates originalLines replacementLines) =? 0)
      eqn:Hnone.
    + apply Nat.eqb_eq, nil_length_inv in Hnone. by rewrite Hnone.
    + apply foldl_pointwise. intros lines c. apply splice_nat.
Qed.

Lemma StronglySorted_weaken {A} (R R' : A → A → Prop) (l : list A) :
  (∀ a b, R a b → R' a b) → StronglySorted R l → StronglySorted R' l.
Proof.
  intros Himpl. induction 1 as [|x l _ IH Hall]; constructor; [done|].
  eapply Forall_impl; [exact Hall|]. intros b. apply Himpl.
Qed.

Lemma StronglySorted_reverse {A} (R : A → A → Prop) (l : list A) :
  StronglySorted R l → StronglySorted (flip R) (reverse l).
Proof.
  induction 1 as [|x l _ IH Hall]; [constructor|].
  rewrite reverse_cons. apply StronglySorted_app_2; [|done|repeat constructor].
  intros y x' Hy ->%list_elem_of_singleton. rewrite elem_of_reverse in Hy.
  rewrite Forall_forall in Hall. by apply Hall.
Qed.

(** Replacing spans that do not overlap from the last one backward
    replaces each of them where it stands. *)
Lemma foldl_splice_disjoint (lines : list jsstring) spans : ∀ from,
  StronglySorted spanBefore spans →
  Forall (λ c, from ≤ start c ∧ start c + len c ≤ length lines) spans →
  foldl (λ lines c, spliceNat (start c) (len c) [replacement c] lines)
        lines (reverse spans)
  = take from lines ++ replaceSpansFrom from spans lines.
Proof.
  induction spans as [|c spans IH]; intros from Hsorted Hfit.
  - simpl. by rewrite take_drop.
  - apply StronglySorted_cons in Hsorted as [Hafter Hsorted].
    apply Forall_cons in Hfit as [[Hfrom Hend] Hfit].
    rewrite reverse_cons, foldl_snoc.
    rewrite (IH (start c + len c)); [|done|].
    + unfold spliceNat. cbn [replaceSpansFrom].
      rewrite take_app_le by (rewrite length_take; lia).
      rewrite take_take, Nat.min_l by lia.
      rewrite drop_app_length' by (rewrite length_take; lia).
      rewrite (app_assoc (take from lines)). f_equal.
      rewrite take_drop_commute.
      replace (from + (start c - from)) with (start c) by lia.
      rewrite <- (take_drop from (take (start c) lines)) at 1.
      by rewrite take_take, Nat.min_l by lia.
    + rewrite Forall_forall in Hafter, Hfit. apply Forall_forall.
      intros c' Hc'. split; [by apply Hafter|]. by apply Hfit.
Qed.

(** There is one way to put spans that do not overlap in descending
    order of their start. *)
Lemma sortByStartDesc_disjoint (spans ascending : list Candidate) :
  Forall (λ c, 1 ≤ len c) spans →
  ascending ≡ₚ spans →
  StronglySorted spanBefore ascending →
  sortByStartDesc spans = reverse ascending.
Proof.
  intros Hlen Hperm Hsorted.
  apply (StronglySorted_unique_strong (λ a b, start b ≤ start a)).
  - intros a b Ha Hb Hab Hba.
    assert (a ∈ ascending) as Ha'.
    { rewrite Hperm. unfold sortByStartDesc in Ha.
      by rewrite stableSort_Permutation in Ha. }
    rewrite elem_of_reverse in Hb.
    assert (1 ≤ len a ∧ 1 ≤ len b) as [Hla Hlb].
    { rewrite Forall_forall in Hlen. rewrite Hperm in Ha', Hb. auto. }
    apply list_elem_of_lookup in Ha' as [i Hi].
    apply list_elem_of_lookup in Hb as [j Hj].
    destruct (Nat.lt_total i j) as [Hij|[->|Hji]].
    + pose proof (StronglySorted_lookup _ _ i j a b Hsorted Hij Hi Hj) as Hd.
      unfold spanBefore in Hd. lia.
    + congruence.
    + pose proof (StronglySorted_lookup _ _ j i b a Hsorted Hji Hj Hi) as Hd.
      unfold spanBefore in Hd. lia.
  - eapply StronglySorted_weaken; [|apply stableSort_sorted].
    + intros a b Hab. by apply Nat.leb_le.
    + intros x y Hxy. apply Nat.leb_gt in Hxy. apply Nat.leb_le. lia.
    + intros x y z Hxy Hyz. apply Nat.leb_le in Hxy, Hyz.
      apply Nat.leb_le. lia.
  - eapply StronglySorted_weaken; [|apply StronglySorted_reverse, Hsorted].
    intros a b Hab. unfold flip, spanBefore in Hab. lia.
  - rewrite reverse_Permutation, Hperm. apply stableSort_Permutation.
Qed.

End stale_wrap.

(** C4, as amended. In the stale-wrap restoration step of
    [autocorrectReplacementLines], a match is a contiguous span of 2 to
    10 replacement lines, none of them empty or all whitespace, whose
    concatenation with all whitespace removed has at least 6 characters,
    is the canonical form of exactly one original line, and is the
    canonical form of no other such span. When no two matches overlap,
    every match is replaced by its original line and the lines outside
    the matches stay where they are, which is what replacing from the
    last match backward gives; without a match the replacement is
    returned unchanged. A span that fails one of the conditions is no
    match and is skipped. What happens to matches that overlap is left
    open. *)
Theorem stale_wrap_restoration (originalLines replacementLines : list jsstring) :
  let matches := uniqueCandidates originalLines replacementLines in
  let span s l := take l (drop s replacementLines) in
  let canonical s l := stripAllWhitespace (concat (span s l)) in
  let nonblank s l := ∀ line, line ∈ span s l → trim line ≠ [] in
  (∀ c,
     c ∈ matches ↔
     2 ≤ len c ≤ 10
     ∧ start c + len c ≤ length replacementLines
     ∧ nonblank (start c) (len c)
     ∧ 6 ≤ length (canonical (start c) (len c))
     ∧ filter (λ line, stripAllWhitespace line = canonical (start c) (len c))
              originalLines = [replacement c]
     ∧ ∀ s' l',
         2 ≤ l' ≤ 10 → s' + l' ≤ length replacementLines → nonblank s' l' →
         canonical s' l' = canonical (start c) (len c) →
         (s', l') = (start c, len c))
  ∧ (∀ ascending,
       ascending ≡ₚ matches →
       StronglySorted spanBefore ascending →
       restoreOldWrappedLines originalLines replacementLines
       = replaceSpansFrom 0 ascending replacementLines)
  ∧ (matches = [] →
     restoreOldWrappedLines originalLines replacementLines = replacementLines).
Proof.
  intros matches span canonical nonblank.
  assert (∀ c, c ∈ matches →
            2 ≤ len c ≤ 10 ∧ start c + len c ≤ length replacementLines)
    as Hfit.
  { intros c (k & Hspan & _)%elem_of_uniqueCandidates.
    by apply elem_of_spanIndices in Hspan. }
  split_and!.
  - intros c. unfold matches. rewrite elem_of_uniqueCandidates. split.
    + intros (k & Hspan & Hsl & Honly).
      apply elem_of_spanIndices in Hspan as [Hlen Hend].
      pose proof Hsl as Hsl0.
      apply spanCandidate_Some in Hsl as (Hnb & Hk & Hlong & line & Hline & Hc).
      assert (replacement c = line) as Hrepl by (by rewrite Hc).
      subst k. do 4 (split; [done|]). split.
      * by rewrite Hrepl.
      * intros s' l' Hl' Hfit' Hnb' Hsame.
        apply (Honly s' l' {| start := s'; len := l'; replacement := line |}).
        -- by apply elem_of_spanIndices.
        -- unfold canonical, span in Hsame.
           apply spanCandidate_Some.
           split; [exact Hnb'|]. split; [by rewrite Hsame|].
           split; [done|]. by exists line.
    + intros (Hlen & Hend & Hnb & Hlong & Hline & Honly).
      exists (canonical (start c) (len c)). split_and!.
      * by apply elem_of_spanIndices.
      * apply spanCandidate_Some. split_and!; try done.
        exists (replacement c). split; [done|]. by destruct c.
      * intros s' l' c' Hspan' Hsl'.
        apply elem_of_spanIndices in Hspan' as [Hlen' Hfit'].
        apply spanCandidate_Some in Hsl' as (Hnb' & Hk' & _).
        by apply Honly.
  - intros ascending Hperm Hsorted.
    rewrite restoreOldWrappedLines_fold. fold matches.
    rewrite (sortByStartDesc_disjoint matches ascending); [|..|done|done].
    + rewrite (foldl_splice_disjoint replacementLines ascending 0); [done..|].
      apply Forall_forall. intros c Hc. rewrite Hperm in Hc.
      apply Hfit in Hc. lia.
    + apply Forall_forall. intros c Hc%Hfit. lia.
  - intros Hnone. rewrite restoreOldWrappedLines_fold.
    fold matches. by rewrite Hnone.
Qed.

Lemma stale_wrap_restoration_witness :
  restoreOldWrappedLines
    [js "abcdef"; js "ghijkl"]
    [js "abc"; js "def"; js "x"; js "ghi"; js "jkl"]
  = [js "abcdef"; js "x"; js "ghijkl"].
Proof.
  refine (proj1 (proj2 (stale_wrap_restoration
            [js "abcdef"; js "ghijkl"]
            [js "abc"; js "def"; js "x"; js "ghi"; js "jkl"]))
          [{| start := 0; len := 2; replacement := js "abcdef" |};
           {| start := 3; len := 2; replacement := js "ghijkl" |}]
          _ _).
  - vm_compute. reflexivity.
  - repeat constructor.
Defined.

(** C4 as stated fails on short lines and on blank lines. The two
    replacement lines [a] and [b] are the only span, their concatenation
    is the canonical form of the one original line [ab] and of no other,
    yet the span is not replaced, because the canonical form has fewer
    than 6 characters. And of the replacement lines [abc], a blank line,
    [def], the whole is the only span whose concatenation without
    whitespace is the canonical form of the one original line [abcdef],
    yet it is not replaced, because it holds a blank line. It fails
    also where two matches overlap, there by no guard: of the
    replacement lines [abc], [def], [ghi] the first two are the only
    span for the original line [abcdef] and the last two the only span
    for the original line [defghi]; the second replacement takes out the
    line the first has put in, and [defghi] is not in the result. *)
Lemma stale_wrap_restoration_counterexample :
  (let originalLines := [js "ab"] in
   let replacementLines := [js "a"; js "b"] in
   spanIndices (length replacementLines) = [(0, 2)]
   ∧ filter (λ line, stripAllWhitespace line
                     = stripAllWhitespace (concat replacementLines))
            originalLines = [js "ab"]
   ∧ restoreOldWrappedLines originalLines replacementLines = replacementLines
   ∧ autocorrectReplacementLines originalLines replacementLines
     = replacementLines
   ∧ restoreOldWrappedLines originalLines replacementLines ≠ [js "ab"])
  ∧ (let originalLines := [js "abcdef"] in
     let replacementLines := [js "abc"; js " "; js "def"] in
     filter (λ sl, bool_decide
                     (stripAllWhitespace
                        (concat (take sl.2 (drop sl.1 replacementLines)))
                      = stripAllWhitespace (js "abcdef")))
            (spanIndices (length replacementLines)) = [(0, 3)]
     ∧ restoreOldWrappedLines originalLines replacementLines = replacementLines
     ∧ restoreOldWrappedLines originalLines replacementLines ≠ [js "abcdef"])
  ∧ (let originalLines := [js "abcdef"; js "defghi"] in
     let replacementLines := [js "abc"; js "def"; js "ghi"] in
     uniqueCandidates originalLines replacementLines
     = [{| start := 0; len := 2; replacement := js "abcdef" |};
        {| start := 1; len := 2; replacement := js "defghi" |}]
     ∧ restoreOldWrappedLines originalLines replacementLines = [js "abcdef"]
     ∧ autocorrectReplacementLines originalLines replacementLines
       = [js "abcdef"]).
Proof. vm_compute. repeat split; discriminate. Qed.

(** * Further properties of the engine *)

(** ** Accounting of a run *)

Section accounting.
Context {V : Validation} {T : TextNormalization}.

(** The loop counts at most one no-op per edit, and when it counts one
    for every edit it ends with the lines it started from. *)
Lemma applyEdits_count edits : ∀ lines n lines' n',
  applyEdits edits lines n = Ok (lines', n') →
  n ≤ n' ≤ n + length edits ∧ (n' = n + length edits → lines' = lines).
Proof.
  induction edits as [|edit edits IH]; intros lines n lines' n'; simpl.
  - intros [= <- <-]. split; [lia|done].
  - destruct (applyEdit lines edit) as [next|]; simpl; [|done].
    destruct (arraysEqual next lines).
    + intros [Hn Hall]%IH. split; [lia|]. intros Heq. apply Hall. lia.
    + intros [Hn Hall]%IH. split; [lia|]. intros Heq. lia.
Qed.

Lemma dedupeEdits_count edits :
  (dedupeEdits edits).2 + length (dedupeEdits edits).1 = length edits.
Proof.
  unfold dedupeEdits.
  destruct (dedupeLoop_spec edits ∅ [] 0) as (kept & -> & Hsub & _).
  simpl. apply sublist_length in Hsub. lia.
Qed.

End accounting.

(** X1. In every report the no-ops and the dropped duplicates together
    are at most the edits submitted, and when they account for every
    edit, so that no edit changed a line, the content comes back exactly
    as it was given. The empty batch is the case of zero edits. *)
Theorem report_accounts_for_edits {V : Validation} {T : TextNormalization}
    (content : jsstring) (edits : list HashlineEdit) (report : HashlineApplyReport) :
  applyHashlineEditsWithReport content edits = Ok report →
  noopEdits report + deduplicatedEdits report ≤ length edits
  ∧ (noopEdits report + deduplicatedEdits report = length edits →
     Types.content report = content).
Proof.
  intros Hrun. destruct edits as [|edit edits].
  { injection Hrun as <-. simpl. split; [lia|done]. }
  destruct (run_ok_inv content (edit :: edits) report Hrun)
    as (sorted & lines & Hsort & _ & _ & Happ & Hcontent & Hdedup); [done|].
  apply sortEdits_spec in Hsort as [Hperm _].
  apply applyEdits_count in Happ as [Hn Hall].
  pose proof (dedupeEdits_count (edit :: edits)) as Hcount.
  rewrite Hperm in Hn, Hall. rewrite Hdedup. split; [lia|].
  intros Heq. rewrite Hcontent, Hall by lia. apply contentLines_join.
Qed.

Lemma report_accounts_for_edits_witness :
  let content := js "a" ++ [LF] ++ js "b" in
  let same := Replace (js "1") None (Text (js "a")) in
  let report := {| content := content; noopEdits := 1; deduplicatedEdits := 1 |} in
  noopEdits report + deduplicatedEdits report ≤ 2
  ∧ (noopEdits report + deduplicatedEdits report = 2 →
     Types.content report = content).
Proof.
  intros content same report.
  apply (report_accounts_for_edits (V := SpecHelpers.validation)
           (T := SpecHelpers.textNormalization) content [same; same] report).
  reflexivity.
Defined.

(** ** What one edit does to the lines *)

Section primitives_frame.
Context {V : Validation} {T : TextNormalization}.

Lemma relIndex_in_range len (i : Z) :
  (0 ≤ i ≤ Z.of_nat len)%Z → relIndex len i = Z.to_nat i.
Proof.
  intros Hi. unfold relIndex. destruct (Z.ltb_spec i 0); lia.
Qed.

Lemma splice_in_range {A} (s d : Z) (items l : list A) :
  (0 ≤ s ≤ Z.of_nat (length l))%Z → (0 ≤ d)%Z →
  splice s d items l
  = take (Z.to_nat s) l ++ items ++ drop (Z.to_nat s + Z.to_nat d) l.
Proof.
  intros Hs Hd. unfold splice, spliceNat. by rewrite relIndex_in_range.
Qed.

(** An insertion, wherever it lands, cuts the lines in two and puts the
    new lines between the parts. *)
Lemma splice_insert {A} (s : Z) (items l : list A) :
  ∃ k, splice s 0 items l = take k l ++ items ++ drop k l
       ∧ ((0 ≤ s ≤ Z.of_nat (length l))%Z → k = Z.to_nat s).
Proof.
  exists (relIndex (length l) s). unfold splice, spliceNat. simpl.
  rewrite Nat.add_0_r. split; [done|]. apply relIndex_in_range.
Qed.

Lemma slice_in_range {A} (s e : Z) (l : list A) :
  (0 ≤ s)%Z → (s ≤ e ≤ Z.of_nat (length l))%Z →
  slice s e l = take (Z.to_nat e - Z.to_nat s) (drop (Z.to_nat s) l).
Proof.
  intros Hs He. unfold slice. by rewrite !relIndex_in_range by lia.
Qed.

Lemma validated_skip lines anchor options :
  (if shouldValidate options then validateLineRef lines anchor else Ok ())
  = Ok () ∨
  ∃ e, (if shouldValidate options then validateLineRef lines anchor else Ok ())
       = Err e.
Proof.
  destruct (shouldValidate options); [|by left].
  destruct (validateLineRef lines anchor) as [[]|e]; [by left|right; by exists e].
Qed.

End primitives_frame.

(** X2. An anchored insertion never removes or reorders a line: when
    [applyInsertAfter] or [applyInsertBefore] returns, the result is the
    given lines cut at one place with the new lines, of which there is at
    least one, put in between. For an anchor within the file the place
    is right after, respectively right before, the anchor line. *)
Theorem anchored_insert_keeps_lines {V : Validation} {T : TextNormalization}
    (lines : list jsstring) (anchor : jsstring) (text : TextOrLines)
    (options : option EditApplyOptions) (out : list jsstring) :
  (applyInsertAfter lines anchor text options = Ok out →
   ∃ r k,
     parseLineRef anchor = Ok r
     ∧ let newLines :=
         stripInsertAnchorEcho (index lines (line r - 1)) (toNewLines text) in
       newLines ≠ []
       ∧ out = take k lines ++ newLines ++ drop k lines
       ∧ ((1 ≤ line r ≤ Z.of_nat (length lines))%Z → k = Z.to_nat (line r)))
  ∧ (applyInsertBefore lines anchor text options = Ok out →
     ∃ r k,
       parseLineRef anchor = Ok r
       ∧ let newLines :=
           stripInsertBeforeEcho (index lines (line r - 1)) (toNewLines text) in
         newLines ≠ []
         ∧ out = take k lines ++ newLines ++ drop k lines
         ∧ ((1 ≤ line r ≤ Z.of_nat (length lines))%Z
            → k = Z.to_nat (line r) - 1)).
Proof.
  split.
  - unfold applyInsertAfter.
    destruct (validated_skip lines anchor options) as [->|[e ->]]; [|done].
    simpl. destruct (parseLineRef anchor) as [r|]; simpl; [|done].
    destruct (length _ =? 0) eqn:Hlen; [done|]. intros [= <-].
    destruct (splice_insert (line r)
                (stripInsertAnchorEcho (index lines (line r - 1)) (toNewLines text))
                lines) as (k & Hk & Hin).
    exists r, k. split; [done|]. split_and!; [|done|].
    + intros Hnil. by rewrite Hnil in Hlen.
    + intros Hr. apply Hin. lia.
  - unfold applyInsertBefore.
    destruct (validated_skip lines anchor options) as [->|[e ->]]; [|done].
    simpl. destruct (parseLineRef anchor) as [r|]; simpl; [|done].
    destruct (length _ =? 0) eqn:Hlen; [done|]. intros [= <-].
    destruct (splice_insert (line r - 1)
                (stripInsertBeforeEcho (index lines (line r - 1)) (toNewLines text))
                lines) as (k & Hk & Hin).
    exists r, k. split; [done|]. split_and!; [|done|].
    + intros Hnil. by rewrite Hnil in Hlen.
    + intros Hr. rewrite Hin by lia. lia.
Qed.

Lemma anchored_insert_keeps_lines_witness :
  ∃ r k newLines,
    SpecHelpers.parseLineRef (js "1") = Ok r
    ∧ newLines ≠ []
    ∧ [js "a"; js "x"; js "b"]
      = take k [js "a"; js "b"] ++ newLines ++ drop k [js "a"; js "b"].
Proof.
  destruct (proj1 (anchored_insert_keeps_lines (V := SpecHelpers.validation)
                     (T := SpecHelpers.textNormalization)
                     [js "a"; js "b"] (js "1") (Text (js "x")) None
                     [js "a"; js "x"; js "b"]) eq_refl)
    as (r & k & Hr & Hne & Hout & _).
  exists r, k. eexists. split; [exact Hr|]. split; [exact Hne|exact Hout].
Defined.

(** X3. A ranged replace with anchors within the file, the start not
    after the end, touches only its range: when [applyReplaceLines]
    returns, the lines before the start line and the lines after the end
    line are those given, in place, and between them stand the corrected
    replacement lines, computed from the lines of the range. *)
Theorem ranged_replace_touches_only_its_range
    {V : Validation} {T : TextNormalization}
    (lines : list jsstring) (startAnchor endAnchor : jsstring)
    (newText : TextOrLines) (options : option EditApplyOptions)
    (rs re : LineRef) (out : list jsstring) :
  parseLineRef startAnchor = Ok rs →
  parseLineRef endAnchor = Ok re →
  (1 ≤ line rs ≤ line re)%Z →
  (line re ≤ Z.of_nat (length lines))%Z →
  applyReplaceLines lines startAnchor endAnchor newText options = Ok out →
  let i := Z.to_nat (line rs) - 1 in
  let j := Z.to_nat (line re) in
  out = take i lines
        ++ restoreFirst (default [] (lines !! i))
             (autocorrectReplacementLines
                (take (j - i) (drop i lines))
                (stripRangeBoundaryEcho lines (line rs) (line re)
                   (toNewLines newText)))
        ++ drop j lines.
Proof.
  intros Hrs Hre Hs He. unfold applyReplaceLines.
  destruct (if shouldValidate options then _ else _) as [[]|]; simpl; [|done].
  rewrite Hrs, Hre. simpl.
  destruct (Z.ltb_spec (line re) (line rs)) as [|_]; [lia|].
  intros [= <-].
  set (i := Z.to_nat (line rs) - 1). set (j := Z.to_nat (line re)).
  rewrite splice_in_range, slice_in_range by lia.
  unfold index. destruct (Z.ltb_spec (line rs - 1) 0); [lia|].
  replace (Z.to_nat (line rs - 1)) with i by lia.
  replace (i + Z.to_nat (line re - line rs + 1)) with j by lia.
  done.
Qed.

Lemma ranged_replace_touches_only_its_range_witness :
  let lines := [js "a"; js "b"; js "c"; js "d"] in
  [js "a"; js "x"; js "d"]
  = take 1 lines
    ++ restoreFirst (T := SpecHelpers.textNormalization) (default [] (lines !! 1))
         (autocorrectReplacementLines
            (take 2 (drop 1 lines))
            (SpecHelpers.stripRangeBoundaryEcho lines 2 3 [js "x"]))
    ++ drop 3 lines.
Proof.
  intros lines.
  exact (ranged_replace_touches_only_its_range (V := SpecHelpers.validation)
           (T := SpecHelpers.textNormalization)
           lines (js "2") (js "3") (Text (js "x")) None
           {| line := 2; hash := None |} {| line := 3; hash := None |}
           [js "a"; js "x"; js "d"]
           eq_refl eq_refl ltac:(simpl; lia) ltac:(simpl; lia) eq_refl).
Defined.

(** X4. A single-line replace with an anchor within the file touches
    only the anchor line: when [applySetLine] returns, the other lines
    are those given, in place, around the corrected replacement; when
    the payload has no line at all, the anchor line is deleted and the
    file is one line shorter. *)
Theorem single_replace_touches_only_its_line
    {V : Validation} {T : TextNormalization}
    (lines : list jsstring) (anchor : jsstring) (newText : TextOrLines)
    (options : option EditApplyOptions) (r : LineRef) (original : jsstring)
    (out : list jsstring) :
  parseLineRef anchor = Ok r →
  (1 ≤ line r)%Z →
  lines !! (Z.to_nat (line r) - 1) = Some original →
  applySetLine lines anchor newText options = Ok out →
  let i := Z.to_nat (line r) - 1 in
  out = take i lines
        ++ restoreFirst original
             (autocorrectReplacementLines [original] (toNewLines newText))
        ++ drop (S i) lines
  ∧ (toNewLines newText = [] →
     out = take i lines ++ drop (S i) lines
     ∧ S (length out) = length lines).
Proof.
  intros Hr Hline Horig. unfold applySetLine.
  destruct (if shouldValidate options then _ else _) as [[]|]; simpl; [|done].
  rewrite Hr. simpl. intros [= <-].
  set (i := Z.to_nat (line r) - 1) in *.
  pose proof (lookup_lt_Some _ _ _ Horig) as Hi.
  unfold index. destruct (Z.ltb_spec (line r - 1) 0); [lia|].
  replace (Z.to_nat (line r - 1)) with i by lia.
  rewrite Horig. simpl.
  rewrite splice_in_range by lia.
  replace (Z.to_nat (line r - 1)) with i by lia.
  replace (i + Z.to_nat 1) with (S i) by lia.
  split; [done|]. intros ->. simpl. split; [done|].
  rewrite length_app, length_take, length_drop. lia.
Qed.

Lemma single_replace_touches_only_its_line_witness :
  let lines := [js "a"; js "b"; js "c"] in
  [js "a"; js "c"] = take 1 lines ++ drop 2 lines
  ∧ S (length [js "a"; js "c"]) = length lines.
Proof.
  intros lines.
  refine (proj2 (single_replace_touches_only_its_line
                   (V := SpecHelpers.validation)
                   (T := SpecHelpers.textNormalization)
                   lines (js "2") (Lines []) None
                   {| line := 2; hash := None |} (js "b") [js "a"; js "c"]
                   _ _ _ _) _).
  - reflexivity.
  - simpl. lia.
  - reflexivity.
  - reflexivity.
  - reflexivity.
Defined.

(** X5. A batch that is one ranged replace whose references are valid
    but whose start line lies after its end line fails with the
    invalid-range error naming both lines; the overlap check does not
    catch it, and nothing is returned. *)
Theorem inverted_range_is_rejected {V : Validation} {T : TextNormalization}
    (content pos e : jsstring) (newText : TextOrLines) (rs re : LineRef) :
  e ≠ [] →
  validateLineRef (contentLines content) pos = Ok () →
  validateLineRef (contentLines content) e = Ok () →
  parseLineRef pos = Ok rs →
  parseLineRef e = Ok re →
  (line re < line rs)%Z →
  applyHashlineEditsWithReport content [Replace pos (Some e) newText]
  = Err (InvalidRange (line rs) (line re)).
Proof.
  intros He Hvs Hve Hrs Hre Hlt.
  unfold applyHashlineEditsWithReport.
  rewrite dedupeEdits_singleton. simpl.
  destruct e as [|c e]; [done|].
  unfold collectLineRefs. simpl. rewrite Hvs. simpl. rewrite Hve. simpl.
  unfold detectOverlappingRanges. simpl. rewrite Hrs, Hre. simpl.
  unfold applyReplaceLines. simpl. rewrite Hrs, Hre. simpl.
  destruct (Z.ltb_spec (line re) (line rs)); [done|lia].
Qed.

Lemma inverted_range_is_rejected_witness :
  SpecHelpers.run (js "a" ++ [LF] ++ js "b" ++ [LF] ++ js "c")
                  [Replace (js "3") (Some (js "2")) (Text (js "x"))]
  = Err (InvalidRange 3 2).
Proof.
  apply (inverted_range_is_rejected (V := SpecHelpers.validation)
           (T := SpecHelpers.textNormalization)
           (js "a" ++ [LF] ++ js "b" ++ [LF] ++ js "c") (js "3") (js "2")
           (Text (js "x")) {| line := 3; hash := None |}
           {| line := 2; hash := None |}).
  - discriminate.
  - reflexivity.
  - reflexivity.
  - reflexivity.
  - reflexivity.
  - simpl. lia.
Defined.

(** ** The heuristics change little *)

Section heuristics.
Local Arguments leadingWhitespace : simpl never.
Local Arguments trim : simpl never.

Lemma takeWhile_Forall {A} (p : A → bool) (l : list A) :
  Forall (λ x, p x = true) (takeWhile p l).
Proof.
  induction l as [|x l IH]; simpl; [constructor|].
  destruct (p x) eqn:E; by constructor.
Qed.

Lemma leadingWhitespace_Forall (text : jsstring) :
  Forall (λ c, isWhiteSpace c = true) (leadingWhitespace text).
Proof.
  unfold leadingWhitespace. destruct text; [constructor|].
  apply takeWhile_Forall.
Qed.

Lemma dropWhile_app_Forall {A} (p : A → bool) (pre l : list A) :
  Forall (λ x, p x = true) pre → dropWhile p (pre ++ l) = dropWhile p l.
Proof. induction 1 as [|x pre Hx _ IH]; simpl; [done|]. by rewrite Hx. Qed.

(** Whitespace in front of a line does not show in its trimmed form. *)
Lemma trim_indent (indent line : jsstring) :
  Forall (λ c, isWhiteSpace c = true) indent → trim (indent ++ line) = trim line.
Proof. intros Hws. unfold trim. by rewrite dropWhile_app_Forall. Qed.

Lemma leadingWhitespace_app (indent line : jsstring) :
  indent ≠ [] → Forall (λ c, isWhiteSpace c = true) indent →
  0 < length (leadingWhitespace (indent ++ line)).
Proof.
  intros Hne Hws. destruct indent as [|c indent]; [done|].
  apply Forall_cons in Hws as [Hc _].
  unfold leadingWhitespace. simpl. rewrite Hc. simpl. lia.
Qed.

Lemma restoreIndent_imap originalLines replacementLines :
  restoreIndentForPairedReplacement originalLines replacementLines
  = if negb (length originalLines =? length replacementLines)
    then replacementLines
    else imap (indentLine originalLines) replacementLines.
Proof. done. Qed.

Lemma indentLine_cases originalLines idx line :
  indentLine originalLines idx line = line
  ∨ (indentLine originalLines idx line
     = leadingWhitespace (default [] (originalLines !! idx)) ++ line
     ∧ leadingWhitespace (default [] (originalLines !! idx)) ≠ []).
Proof.
  unfold indentLine. destruct (_ || _); [by left|].
  destruct (length (leadingWhitespace _) =? 0) eqn:Hlen; simpl; [by left|].
  destruct (bool_decide _); [by left|]. right. split; [done|].
  intros Hnil. by rewrite Hnil in Hlen.
Qed.

Lemma indentLine_trim originalLines idx line :
  trim (indentLine originalLines idx line) = trim line.
Proof.
  destruct (indentLine_cases originalLines idx line) as [Heq|[Heq _]];
    rewrite Heq; [done|].
  apply trim_indent, leadingWhitespace_Forall.
Qed.

Lemma indentLine_idemp originalLines idx line :
  indentLine originalLines idx (indentLine originalLines idx line)
  = indentLine originalLines idx line.
Proof.
  destruct (indentLine_cases originalLines idx line) as [Heq|[Heq Hne]].
  { by rewrite !Heq. }
  rewrite Heq. unfold indentLine at 1.
  pose proof (leadingWhitespace_app _ line Hne (leadingWhitespace_Forall _)) as Hlw.
  apply Nat.ltb_lt in Hlw. rewrite Hlw. by rewrite orb_true_r.
Qed.

End heuristics.

Lemma restoreIndent_length (originalLines replacementLines : list jsstring) :
  length (restoreIndentForPairedReplacement originalLines replacementLines)
  = length replacementLines.
Proof.
  rewrite restoreIndent_imap. destruct (negb _); [done|apply length_imap].
Qed.

(** X6. Indentation restoration changes nothing but leading whitespace:
    for all original and replacement lines the result has as many lines
    as the replacement and, line by line, the same trimmed text; and
    restoring twice is restoring once. *)
Theorem indent_restoration_keeps_text (originalLines replacementLines : list jsstring) :
  let restored :=
    restoreIndentForPairedReplacement originalLines replacementLines in
  length restored = length replacementLines
  ∧ trim <$> restored = trim <$> replacementLines
  ∧ restoreIndentForPairedReplacement originalLines restored = restored.
Proof.
  intros restored. subst restored. rewrite !restoreIndent_imap.
  destruct (length originalLines =? length replacementLines) eqn:Hlen; simpl.
  - rewrite length_imap, Hlen. simpl. split_and!; [done| |].
    + apply list_eq. intros i. rewrite !list_lookup_fmap, list_lookup_imap.
      destruct (replacementLines !! i) as [line|]; simpl; [|done].
      by rewrite indentLine_trim.
    + apply list_eq. intros i. rewrite !list_lookup_imap.
      destruct (replacementLines !! i) as [line|]; simpl; [|done].
      by rewrite indentLine_idemp.
  - by rewrite Hlen.
Qed.

(** X7. A one-line replacement for a one-line original passes the three
    heuristics with at most its indentation changed: the only line
    returned is the replacement line itself or that line behind the
    leading whitespace of the original, and its trimmed text is that of
    the replacement. *)
Theorem single_line_replacement_keeps_text (original replacement : jsstring) :
  ∃ corrected,
    autocorrectReplacementLines [original] [replacement] = [corrected]
    ∧ trim corrected = trim replacement
    ∧ (corrected = replacement
       ∨ corrected = leadingWhitespace original ++ replacement).
Proof.
  exists (indentLine [original] 0 replacement). split_and!.
  - done.
  - apply indentLine_trim.
  - destruct (indentLine_cases [original] 0 replacement) as [->|[-> _]];
      [by left|by right].
Qed.

(** ** Single-line-merge expansion *)

Section expansion.
Local Arguments trim : simpl never.

Lemma dropWhile_suffix {A} (p : A → bool) (l : list A) :
  ∃ pre, l = pre ++ dropWhile p l.
Proof.
  induction l as [|x l [pre IH]]; simpl; [by exists []|].
  destruct (p x); [|by exists []].
  exists (x :: pre). simpl. by rewrite <- IH.
Qed.

Lemma dropWhile_head {A} (p : A → bool) (l : list A) x :
  head (dropWhile p l) = Some x → p x = false.
Proof.
  induction l as [|y l IH]; simpl; [done|].
  destruct (p y) eqn:E; [done|]. simpl. by intros [= <-].
Qed.

Lemma dropWhile_id {A} (p : A → bool) (l : list A) :
  (∀ x, head l = Some x → p x = false) → dropWhile p l = l.
Proof.
  destruct l as [|y l]; simpl; [done|]. intros Hy. by rewrite Hy.
Qed.

(** Trimming what is trimmed changes nothing. *)
Lemma trim_idemp (text : jsstring) : trim (trim text) = trim text.
Proof.
  unfold trim.
  set (y := dropWhile isWhiteSpace text).
  set (z := dropWhile isWhiteSpace (reverse y)).
  destruct (dropWhile_suffix isWhiteSpace (reverse y)) as [pre Hpre].
  fold z in Hpre.
  assert (y = reverse z ++ reverse pre) as Hy.
  { by rewrite <- reverse_app, <- Hpre, reverse_involutive. }
  rewrite (dropWhile_id _ (reverse z)).
  - rewrite reverse_involutive. rewrite (dropWhile_id _ z); [done|].
    intros x Hx. by apply (dropWhile_head isWhiteSpace (reverse y)).
  - intros x Hx. apply (dropWhile_head isWhiteSpace text). fold y.
    rewrite Hy. destruct (reverse z); [done|]. done.
Qed.

Lemma expandAt_tidy merged indices : ∀ expanded,
  expandAt merged indices = Some expanded →
  tidy expanded ∧ length expanded = length indices.
Proof.
  induction indices as [|i rest IH]; intros expanded; simpl.
  - intros [= <-]. split; [|done]. by intros line ?%elem_of_nil.
  - set (candidate := trim _).
    destruct (length candidate =? 0) eqn:Hlen; [done|].
    destruct (expandAt merged rest) as [expanded'|]; simpl; [|done].
    intros [= <-]. destruct (IH expanded' eq_refl) as [Htidy Hlength].
    split; [|simpl; by rewrite Hlength].
    intros line [->|Hin]%elem_of_cons; [|by apply Htidy].
    split; [|apply trim_idemp]. intros Hnil. by rewrite Hnil in Hlen.
Qed.

Lemma semicolonSplitFallback_tidy merged expectedCount replacementLines :
  semicolonSplitFallback merged expectedCount replacementLines = replacementLines
  ∨ (tidy (semicolonSplitFallback merged expectedCount replacementLines)
     ∧ length (semicolonSplitFallback merged expectedCount replacementLines)
       = expectedCount).
Proof.
  unfold semicolonSplitFallback.
  set (pieces := filter _ _).
  destruct (Nat.eqb_spec (length pieces) expectedCount) as [Hlen|]; [|by left].
  right. split; [|done].
  intros line [Hne (x & -> & _)%list_elem_of_fmap]%list_elem_of_filter.
  split; [|apply trim_idemp]. intros Hnil. rewrite Hnil in Hne. simpl in Hne. lia.
Qed.

End expansion.

Lemma maybeExpand_shape (originalLines replacementLines : list jsstring) :
  maybeExpandSingleLineMerge originalLines replacementLines = replacementLines
  ∨ (length (maybeExpandSingleLineMerge originalLines replacementLines)
     = length originalLines
     ∧ ∀ line,
         line ∈ maybeExpandSingleLineMerge originalLines replacementLines →
         line ≠ [] ∧ trim line = line).
Proof.
  unfold maybeExpandSingleLineMerge.
  destruct replacementLines as [|merged [|second rest]]; try by left.
  destruct (length originalLines <=? 1); [by left|].
  set (parts := filter _ _).
  destruct (negb (length parts =? length originalLines)); [by left|].
  assert (semicolonSplitFallback merged (length originalLines) [merged]
          = [merged]
          ∨ (length (semicolonSplitFallback merged (length originalLines)
                       [merged]) = length originalLines
             ∧ ∀ line,
                 line ∈ semicolonSplitFallback merged (length originalLines)
                          [merged] →
                 line ≠ [] ∧ trim line = line)) as Hfallback.
  { destruct (semicolonSplitFallback_tidy merged (length originalLines)
                [merged]) as [Hid|[Htidy Hlen]]; [by left|by right]. }
  destruct (locateParts merged parts 0) as [indices|]; [|exact Hfallback].
  destruct (expandAt merged indices) as [expanded|] eqn:Hexpand;
    [|exact Hfallback].
  destruct (Nat.eqb_spec (length expanded) (length originalLines)) as [Hlen|];
    [|exact Hfallback].
  right. split; [done|]. by apply expandAt_tidy in Hexpand as [Htidy _].
Qed.

(** X8. Single-line-merge expansion either leaves the replacement as it
    is or returns exactly as many lines as the original has, each of
    them trimmed and not empty; and it leaves every replacement alone
    that is not a single line, or whose original has at most one line
    or a blank line. *)
Theorem merge_expansion_matches_original_shape
    (originalLines replacementLines : list jsstring) :
  let expanded := maybeExpandSingleLineMerge originalLines replacementLines in
  (expanded = replacementLines
   ∨ (length expanded = length originalLines
      ∧ ∀ line, line ∈ expanded → line ≠ [] ∧ trim line = line))
  ∧ (length replacementLines ≠ 1
     ∨ length originalLines ≤ 1
     ∨ (∃ line, line ∈ originalLines ∧ trim line = []) →
     expanded = replacementLines).
Proof.
  intros expanded. subst expanded. split.
  { apply maybeExpand_shape. }
  unfold maybeExpandSingleLineMerge.
  - intros Hcases.
    destruct replacementLines as [|merged [|second rest]]; try done.
    destruct (Nat.leb_spec (length originalLines) 1) as [|Hlong]; [done|].
    destruct Hcases as [Hone|[Hshort|(line & Hin & Hblank)]];
      [done|lia|].
    set (parts := filter _ _).
    assert (length parts < length originalLines) as Hlt.
    { unfold parts. clear -Hin Hblank.
      induction originalLines as [|o originalLines IH]; [by apply elem_of_nil in Hin|].
      rewrite fmap_cons, filter_cons. simpl.
      apply elem_of_cons in Hin as [<-|Hin].
      - rewrite Hblank. simpl. destruct (decide (0 < 0)); [lia|].
        pose proof (length_filter (λ l : list N, 0 < length l)
                      (trim <$> originalLines)) as Hle.
        rewrite length_fmap in Hle. lia.
      - specialize (IH Hin). destruct (decide _); simpl; lia. }
    destruct (Nat.eqb_spec (length parts) (length originalLines)); [lia|done].
Qed.

Lemma merge_expansion_matches_original_shape_witness :
  maybeExpandSingleLineMerge [js "a = 1"; js "  "; js "b = 2"] [js "a = 1 b = 2"]
  = [js "a = 1 b = 2"].
Proof.
  apply (proj2 (merge_expansion_matches_original_shape
                  [js "a = 1"; js "  "; js "b = 2"] [js "a = 1 b = 2"])).
  right. right. exists (js "  "). split; [|reflexivity].
  apply (bool_decide_unpack _). vm_compute. exact I.
Defined.

(** ** Stale-wrap restoration only shrinks *)

Section shrink.

Lemma length_spliceNat_one {A} (s d : nat) (x : A) (l : list A) :
  s < length l → 1 ≤ d →
  length (spliceNat s d [x] l) ≤ length l
  ∧ s < length (spliceNat s d [x] l)
  ∧ (s + d ≤ length l → length (spliceNat s d [x] l) + d = S (length l)).
Proof.
  intros Hs Hd. unfold spliceNat.
  rewrite !length_app, length_take, length_drop. simpl. lia.
Qed.

(** Replacing spans from the highest start downwards never makes the
    lines more. *)
Lemma foldl_splice_shrinks (cands : list Candidate) : ∀ lines,
  StronglySorted (λ a b, start b ≤ start a) cands →
  (∀ c, c ∈ cands → start c < length lines ∧ 1 ≤ len c) →
  length (foldl (λ lines c, spliceNat (start c) (len c) [replacement c] lines)
                lines cands) ≤ length lines.
Proof.
  induction cands as [|c cands IH]; intros lines Hsorted Hin; simpl; [done|].
  apply StronglySorted_inv in Hsorted as [Hsorted Hall].
  destruct (Hin c) as [Hs Hd]; [by left|].
  destruct (length_spliceNat_one (start c) (len c) (replacement c) lines Hs Hd)
    as (Hle & Hlt & _).
  etransitivity; [apply IH|exact Hle]; [done|].
  intros c' Hc'. split.
  - rewrite Forall_forall in Hall. specialize (Hall c' Hc'). simpl in Hall. lia.
  - apply Hin. by right.
Qed.

End shrink.

Lemma restoreOld_shrinks (originalLines replacementLines : list jsstring) :
  restoreOldWrappedLines originalLines replacementLines = replacementLines
  ∨ length (restoreOldWrappedLines originalLines replacementLines)
    < length replacementLines.
Proof.
  rewrite restoreOldWrappedLines_fold.
  set (unique := uniqueCandidates originalLines replacementLines).
  assert (∀ c, c ∈ sortByStartDesc unique →
               2 ≤ len c ∧ start c + len c ≤ length replacementLines) as Hin.
  { intros c Hc. unfold sortByStartDesc in Hc.
    rewrite stableSort_Permutation in Hc.
    apply elem_of_uniqueCandidates in Hc as (k & Hspan & _).
    apply elem_of_spanIndices in Hspan. lia. }
  assert (StronglySorted (λ a b, start b ≤ start a) (sortByStartDesc unique))
    as Hsorted.
  { eapply (StronglySorted_weaken (λ a b, (start b <=? start a) = true)).
    - intros a b. apply Nat.leb_le.
    - apply stableSort_sorted.
      + intros x y Hxy. apply Nat.leb_gt in Hxy. apply Nat.leb_le. lia.
      + intros x y z Hxy Hyz. apply Nat.leb_le in Hxy, Hyz.
        apply Nat.leb_le. lia. }
  destruct (sortByStartDesc unique) as [|c cands]; [by left|].
  right. simpl.
  apply StronglySorted_inv in Hsorted as [Hsorted Hall].
  destruct (Hin c) as [Hlen Hfit]; [by left|].
  destruct (length_spliceNat_one (start c) (len c) (replacement c)
              replacementLines) as (_ & Hlt & Hexact); [lia..|].
  specialize (Hexact Hfit).
  eapply Nat.le_lt_trans; [apply foldl_splice_shrinks; [done|]|lia].
  intros c' Hc'. split.
  - rewrite Forall_forall in Hall. specialize (Hall c' Hc'). simpl in Hall. lia.
  - destruct (Hin c') as [? _]; [by right|lia].
Qed.

(** X9. Stale-wrap restoration never adds a line: it returns the
    replacement as it is, or fewer lines than the replacement has. *)
Theorem stale_wrap_restoration_only_shrinks
    (originalLines replacementLines : list jsstring) :
  restoreOldWrappedLines originalLines replacementLines = replacementLines
  ∨ length (restoreOldWrappedLines originalLines replacementLines)
    < length replacementLines.
Proof. apply restoreOld_shrinks. Qed.

(** X10. The three heuristics together never return more lines than the
    longer of the original and the replacement, and an empty
    replacement, which deletes the lines it replaces, stays empty. *)
Theorem autocorrect_line_count (originalLines replacementLines : list jsstring) :
  length (autocorrectReplacementLines originalLines replacementLines)
  ≤ length replacementLines `max` length originalLines
  ∧ autocorrectReplacementLines originalLines [] = [].
Proof.
  split.
  - unfold autocorrectReplacementLines.
    set (expanded := maybeExpandSingleLineMerge originalLines replacementLines).
    rewrite restoreIndent_length.
    assert (length expanded ≤ length replacementLines `max` length originalLines)
      as Hexpanded.
    { destruct (maybeExpand_shape originalLines replacementLines)
        as [Hid|[Hlen _]]; [fold expanded in Hid; rewrite Hid|
                            fold expanded in Hlen]; lia. }
    destruct (restoreOld_shrinks originalLines expanded) as [Heq|Hlt];
      [rewrite Heq|]; lia.
  - unfold autocorrectReplacementLines, restoreOldWrappedLines,
      restoreIndentForPairedReplacement. simpl.
    change (0 <? 2) with true. rewrite orb_true_r. simpl.
    by destruct (length originalLines =? 0).
Qed.

(** ** Deduplication and ordering, again *)

Section batch_order.
Context {V : Validation} {T : TextNormalization}.

(** A batch without repeated keys passes the loop whole. *)
Lemma dedupeLoop_fresh edits : ∀ seen deduped n,
  NoDup (buildDedupeKey <$> edits) →
  (∀ e, e ∈ edits → buildDedupeKey e ∉ seen) →
  dedupeLoop edits seen deduped n = (deduped ++ edits, n).
Proof.
  induction edits as [|edit edits IH]; intros seen deduped n Hnd Hfresh; simpl.
  - by rewrite app_nil_r.
  - rewrite fmap_cons in Hnd. apply NoDup_cons in Hnd as [Hnin Hnd].
    rewrite decide_False by (apply Hfresh; by left).
    rewrite IH; [by rewrite <- app_assoc|done|].
    intros e He [Hk|Hk]%elem_of_union.
    + apply elem_of_singleton in Hk. apply Hnin. rewrite <- Hk.
      apply list_elem_of_fmap. by exists e.
    + apply (Hfresh e); [by right|done].
Qed.

Lemma dedupeEdits_NoDup edits :
  NoDup (buildDedupeKey <$> edits) → dedupeEdits edits = (edits, 0).
Proof.
  intros Hnd. unfold dedupeEdits. rewrite dedupeLoop_fresh; [done..|].
  intros e _. apply not_elem_of_empty.
Qed.

Lemma StronglySorted_of_lookup {A} (R : A → A → Prop) (l : list A) :
  (∀ i j a b, i < j → l !! i = Some a → l !! j = Some b → R a b) →
  StronglySorted R l.
Proof.
  induction l as [|x l IH]; intros Hlookup; constructor.
  - apply IH. intros i j a b Hij Ha Hb. apply (Hlookup (S i) (S j)); [lia|done..].
  - apply Forall_forall. intros b [j Hj]%list_elem_of_lookup.
    apply (Hlookup 0 (S j)); [lia|done..].
Qed.

Lemma appliedBefore_antisym a b :
  appliedBefore a b → appliedBefore b a →
  (getEditLineNumber a, editPrecedence a) = (getEditLineNumber b, editPrecedence b).
Proof.
  intros (la & lb & Ha & Hb & Hab) (lb' & la' & Hb' & Ha' & Hba).
  rewrite Ha in Ha'. rewrite Hb in Hb'. simplify_eq.
  apply editBefore_spec in Hab, Hba.
  destruct Hab as [Hlt|[-> Hle]], Hba as [Hlt'|[Heq Hle']].
  - apply anchorLt_asym in Hlt. congruence.
  - subst. by rewrite anchorLt_irrefl in Hlt.
  - by rewrite anchorLt_irrefl in Hlt'.
  - rewrite Ha, Hb. f_equal. lia.
Qed.

Lemma sortEdits_sorted edits sorted :
  sortEdits edits = Ok sorted →
  sorted ≡ₚ edits ∧ StronglySorted appliedBefore sorted.
Proof.
  intros [Hperm Hsorted]%sortEdits_spec. split; [done|].
  by apply StronglySorted_of_lookup.
Qed.

(** When the sort runs its comparator, every line number was parsed. *)
Lemma sortEdits_parsed edits sorted e :
  sortEdits edits = Ok sorted → 2 ≤ length edits → e ∈ edits →
  ∃ k, getEditLineNumber e = Ok k.
Proof.
  intros Hsort Hlen He. apply sortEdits_spec in Hsort as [Hperm Hsorted].
  rewrite <- Hperm in He, Hlen.
  apply list_elem_of_lookup in He as [i Hi].
  destruct i as [|i].
  - destruct (lookup_lt_is_Some_2 sorted 1) as [b Hb]; [lia|].
    destruct (Hsorted 0 1 e b) as (k & _ & Hk & _); [lia|done..|]. by exists k.
  - destruct (lookup_lt_is_Some_2 sorted 0) as [a Ha]; [lia|].
    destruct (Hsorted 0 (S i) a e) as (_ & k & _ & Hk & _); [lia|done..|].
    by exists k.
Qed.

Lemma keyed_exists edits :
  (∀ e, e ∈ edits → ∃ k, getEditLineNumber e = Ok k) →
  ∃ keyed, mapM (λ edit, k ← getEditLineNumber edit; Ok (k, edit)) edits
           = Ok keyed.
Proof.
  induction edits as [|edit edits IH]; intros Hall; simpl; [by eexists|].
  destruct (Hall edit) as [k ->]; [by left|]. simpl.
  destruct IH as [keyed ->]; [intros e He; apply Hall; by right|].
  simpl. by eexists.
Qed.

(** Two submissions of the same edits sort alike when no two edits
    share line and precedence. *)
Lemma sortEdits_Permutation edits1 edits2 sorted :
  edits1 ≡ₚ edits2 →
  NoDup ((λ e, (getEditLineNumber e, editPrecedence e)) <$> edits1) →
  sortEdits edits1 = Ok sorted →
  sortEdits edits2 = Ok sorted.
Proof.
  intros Hperm Hnd Hsort.
  assert (∃ sorted2, sortEdits edits2 = Ok sorted2) as [sorted2 Hsort2].
  { destruct edits2 as [|e1 [|e2 edits2]]; [by eexists..|].
    unfold sortEdits.
    destruct (keyed_exists (e1 :: e2 :: edits2)) as [keyed ->];
      [|simpl; by eexists].
    intros e He. apply (sortEdits_parsed edits1 sorted); [done| |by rewrite Hperm].
    rewrite Hperm. simpl. lia. }
  rewrite Hsort2. f_equal.
  apply sortEdits_sorted in Hsort as [Hperm1 Hsorted1].
  apply sortEdits_sorted in Hsort2 as [Hperm2 Hsorted2].
  apply (StronglySorted_unique_strong appliedBefore); [|done..|].
  - intros a b Ha Hb Hab Hba.
    pose proof (appliedBefore_antisym a b Hab Hba) as Hkey.
    rewrite Hperm2, <- Hperm in Ha. rewrite Hperm1 in Hb.
    apply list_elem_of_lookup in Ha as [i Hi], Hb as [j Hj].
    assert (i = j) as ->; [|congruence].
    apply (NoDup_lookup _ i j (getEditLineNumber a, editPrecedence a) Hnd).
    + by rewrite list_lookup_fmap, Hi.
    + by rewrite list_lookup_fmap, Hj, Hkey.
  - by rewrite Hperm2, Hperm1.
Qed.

End batch_order.

(** X11. Deduplication is idempotent: a batch is returned whole, with a
    count of zero, exactly when no two of its edits share a
    deduplication key, and what [dedupeEdits] returns is such a batch. *)
Theorem dedupe_is_idempotent {V : Validation} {T : TextNormalization}
    (edits : list HashlineEdit) :
  (dedupeEdits edits = (edits, 0) ↔ NoDup (buildDedupeKey <$> edits))
  ∧ dedupeEdits (dedupeEdits edits).1 = ((dedupeEdits edits).1, 0).
Proof.
  assert (NoDup (buildDedupeKey <$> (dedupeEdits edits).1)) as Hnd.
  { unfold dedupeEdits.
    by destruct (dedupeLoop_spec edits ∅ [] 0) as (kept & -> & _ & Hnd & _). }
  split; [split|].
  - intros Heq. by rewrite Heq in Hnd.
  - apply dedupeEdits_NoDup.
  - by apply dedupeEdits_NoDup.
Qed.

Lemma dedupe_is_idempotent_witness :
  let first := Replace (js "1") None (Text (js "x")) in
  let other := Append None (Text (js "y")) in
  NoDup (buildDedupeKey (T := SpecHelpers.textNormalization) <$> [first; other]).
Proof.
  intros first other.
  apply (proj1 (dedupe_is_idempotent (V := SpecHelpers.validation)
                  (T := SpecHelpers.textNormalization) [first; other])).
  reflexivity.
Defined.

(** X12. For a batch on which the sort returns, so that every
    reference the comparator parses is well-formed, and in which no
    two edits share anchor line and operation precedence, the order of
    submission does not matter: on every rearrangement of the batch the
    sort returns the same sequence, and when moreover no two edits
    share a deduplication key, the engine returns the same result for
    every rearrangement, the same report or the same error of the
    validation, the overlap check or the loop. Batches on which the
    sort throws are not spoken of. *)
Theorem submission_order_is_irrelevant {V : Validation} {T : TextNormalization}
    (edits1 edits2 sorted : list HashlineEdit) :
  edits1 ≡ₚ edits2 →
  NoDup ((λ e, (getEditLineNumber e, editPrecedence e)) <$> edits1) →
  sortEdits edits1 = Ok sorted →
  sortEdits edits2 = Ok sorted
  ∧ (NoDup (buildDedupeKey <$> edits1) →
     ∀ content,
       applyHashlineEditsWithReport content edits2
       = applyHashlineEditsWithReport content edits1).
Proof.
  intros Hperm Hnd Hsort.
  pose proof (sortEdits_Permutation edits1 edits2 sorted Hperm Hnd Hsort) as Hsort2.
  split; [done|]. intros Hkeys content.
  assert (NoDup (buildDedupeKey <$> edits2)) as Hkeys2 by (by rewrite <- Hperm).
  unfold applyHashlineEditsWithReport.
  rewrite !dedupeEdits_NoDup by done. simpl.
  rewrite Hsort, Hsort2, <- Hperm.
  destruct (length edits1 =? 0) eqn:Hlen; [|done].
  apply Nat.eqb_eq, nil_length_inv in Hlen. subst edits1.
  by apply Permutation_nil_l in Hperm as <-.
Qed.

Lemma submission_order_is_irrelevant_witness :
  SpecHelpers.run (js "a" ++ [LF] ++ js "b" ++ [LF] ++ js "c")
    [Replace (js "3") None (Text (js "y")); Append (Some (js "1")) (Text (js "x"))]
  = SpecHelpers.run (js "a" ++ [LF] ++ js "b" ++ [LF] ++ js "c")
      [Append (Some (js "1")) (Text (js "x")); Replace (js "3") None (Text (js "y"))].
Proof.
  refine (proj2 (submission_order_is_irrelevant (V := SpecHelpers.validation)
                   (T := SpecHelpers.textNormalization)
                   [Append (Some (js "1")) (Text (js "x"));
                    Replace (js "3") None (Text (js "y"))]
                   [Replace (js "3") None (Text (js "y"));
                    Append (Some (js "1")) (Text (js "x"))]
                   [Replace (js "3") None (Text (js "y"));
                    Append (Some (js "1")) (Text (js "x"))] _ _ _) _
                (js "a" ++ [LF] ++ js "b" ++ [LF] ++ js "c")).
  - apply Permutation_swap.
  - rewrite !fmap_cons. apply NoDup_cons. split; [|apply NoDup_singleton].
    intros Hin%list_elem_of_singleton. vm_compute in Hin. discriminate.
  - reflexivity.
  - apply (bool_decide_unpack _). vm_compute. exact I.
Defined.

Section stability.
Context {A : Type} (before : A → A → bool).
Context (P : A → Prop) `{∀ x, Decision (P x)}.
Hypothesis before_same : ∀ x y, P x → P y → before x y = true.

(** An element goes in front of the elements tied with it. *)
Lemma insertSorted_filter x l :
  filter P (insertSorted before x l) = filter P [x] ++ filter P l.
Proof.
  induction l as [|y l IH]; simpl; [by rewrite app_nil_r|].
  destruct (before x y) eqn:Hxy.
  { rewrite (filter_cons P x (y :: l)), (filter_cons P x []), filter_nil.
    by destruct (decide (P x)). }
  rewrite filter_cons, IH. rewrite (filter_cons P y l).
  rewrite (filter_cons P x []), filter_nil.
  destruct (decide (P y)) as [Hy|Hy]; [|done].
  destruct (decide (P x)) as [Hx|Hx]; [|done].
  rewrite before_same in Hxy by done. done.
Qed.

Lemma stableSort_filter l : filter P (stableSort before l) = filter P l.
Proof.
  induction l as [|x l IH]; simpl; [done|].
  rewrite insertSorted_filter, IH.
  rewrite (filter_cons P x l), (filter_cons P x []), filter_nil.
  by destruct (decide (P x)).
Qed.

End stability.

Section sort_ties.
Context {V : Validation}.

Lemma filter_keyed k p (keyed : list (AnchorLine * HashlineEdit)) :
  Forall (λ ke, getEditLineNumber ke.2 = Ok ke.1) keyed →
  filter (λ e, hasSortKey k p e = true) (snd <$> keyed)
  = snd <$> filter (λ ke, ke.1 = k ∧ editPrecedence ke.2 = p) keyed.
Proof.
  induction 1 as [|[k' e] keyed Hke _ IH]; [done|].
  rewrite fmap_cons, !filter_cons, IH. simpl in *.
  unfold hasSortKey. rewrite Hke.
  destruct (decide (k' = k ∧ editPrecedence e = p)) as [[-> <-]|Hne].
  - rewrite bool_decide_eq_true_2, Nat.eqb_refl by done. simpl.
    by destruct (decide (true = true)).
  - destruct (decide (_ = true)) as [[Hk Hp%Nat.eqb_eq]%andb_true_iff|_];
      [|done].
    apply bool_decide_eq_true in Hk. by destruct Hne.
Qed.

End sort_ties.

(** X13. The batch sort is stable: the edits that share an anchor line
    and an operation precedence stand in the sorted batch in the order
    in which they were submitted. *)
Theorem sort_keeps_submission_order_of_ties {V : Validation}
    (edits sorted : list HashlineEdit) (k : AnchorLine) (p : nat) :
  sortEdits edits = Ok sorted →
  filter (λ e, hasSortKey k p e = true) sorted
  = filter (λ e, hasSortKey k p e = true) edits.
Proof.
  unfold sortEdits. destruct edits as [|e1 [|e2 edits]]; try by intros [= <-].
  set (batch := e1 :: e2 :: edits).
  destruct (mapM _ batch) as [keyed|] eqn:Hkeyed; simpl; [|done].
  intros [= <-]. apply keyed_spec in Hkeyed as [Hsnd Hall].
  rewrite <- Hsnd. rewrite !filter_keyed; [|done|].
  - f_equal. apply stableSort_filter.
    intros [k1 a] [k2 b] [Hk1 Hp1] [Hk2 Hp2]. simpl in *. subst.
    apply editBefore_spec. right. split; [done|lia].
  - by rewrite stableSort_Permutation.
Qed.

Lemma sort_keeps_submission_order_of_ties_witness :
  sortEdits (V := SpecHelpers.validation)
    [Append (Some (js "2")) (Text (js "x"));
     Replace (js "3") None (Text (js "z"));
     Append (Some (js "2")) (Text (js "y"))]
  = Ok [Replace (js "3") None (Text (js "z"));
        Append (Some (js "2")) (Text (js "x"));
        Append (Some (js "2")) (Text (js "y"))]
  ∧ filter (λ e, hasSortKey (V := SpecHelpers.validation) (Finite 2) 1 e = true)
           [Replace (js "3") None (Text (js "z"));
            Append (Some (js "2")) (Text (js "x"));
            Append (Some (js "2")) (Text (js "y"))]
    = filter (λ e, hasSortKey (V := SpecHelpers.validation) (Finite 2) 1 e = true)
             [Append (Some (js "2")) (Text (js "x"));
              Replace (js "3") None (Text (js "z"));
              Append (Some (js "2")) (Text (js "y"))].
Proof.
  split; [reflexivity|].
  apply (sort_keeps_submission_order_of_ties (V := SpecHelpers.validation)).
  reflexivity.
Defined.

Section diff_facts.
Implicit Types (m : list (jsstring * nat)) (X Y : gmultiset jsstring).

Lemma mapGet_mapSet {W} k x (v : W) (m : list (jsstring * W)) :
  mapGet k (mapSet x v m) = if decide (k = x) then Some v else mapGet k m.
Proof.
  induction m as [|[k' v'] m IH]; simpl.
  - destruct (decide (x = k)), (decide (k = x)); congruence.
  - destruct (decide (k' = x)) as [->|Hne]; simpl.
    + destruct (decide (x = k)), (decide (k = x)); congruence.
    + rewrite IH. destruct (decide (k' = k)), (decide (k = x)); congruence.
Qed.

Lemma mapSet_fst {W} x (v : W) (m : list (jsstring * W)) :
  (mapSet x v m).*1 = if decide (x ∈ m.*1) then m.*1 else m.*1 ++ [x].
Proof.
  induction m as [|[k' v'] m IH]; csimpl; [done|].
  destruct (decide (k' = x)) as [->|Hne]; csimpl.
  - rewrite decide_True; [done|]. by left.
  - rewrite IH. destruct (decide (x ∈ m.*1)) as [Hin|Hin].
    + rewrite decide_True; [done|]. by right.
    + rewrite decide_False; [done|].
      intros [?|?]%elem_of_cons; congruence.
Qed.

Lemma mapSet_NoDup {W} x (v : W) (m : list (jsstring * W)) :
  NoDup m.*1 → NoDup (mapSet x v m).*1.
Proof.
  intros Hm. rewrite mapSet_fst. destruct (decide (x ∈ m.*1)); [done|].
  apply NoDup_app. split_and!; [done| |apply NoDup_singleton].
  intros y Hy ->%list_elem_of_singleton. done.
Qed.

Lemma mapGet_Some {W} k (v : W) (m : list (jsstring * W)) :
  mapGet k m = Some v → (k, v) ∈ m.
Proof.
  induction m as [|[k' v'] m IH]; simpl; [done|].
  destruct (decide (k' = k)) as [->|_].
  - intros [= ->]. by left.
  - intros Hm. right. by apply IH.
Qed.

Lemma mapGet_elem {W} k (v : W) (m : list (jsstring * W)) :
  NoDup m.*1 → (k, v) ∈ m → mapGet k m = Some v.
Proof.
  induction m as [|[k' v'] m IH]; simpl.
  - by intros _ ?%elem_of_nil.
  - intros [Hk' Hm]%NoDup_cons [[= -> ->]|Hin]%elem_of_cons.
    + by rewrite decide_True.
    + destruct (decide (k' = k)) as [->|_]; [|by apply IH].
      destruct Hk'. apply list_elem_of_fmap. by exists (k, v).
Qed.

Lemma tallies_step m X x :
  tallies m X →
  tallies (mapSet x (default 0 (mapGet x m) + 1) m) ({[+ x +]} ⊎ X).
Proof.
  intros [Hnodup Hget]. split; [by apply mapSet_NoDup|]. intros k.
  rewrite mapGet_mapSet, multiplicity_disj_union, multiplicity_singleton.
  destruct (decide (k = x)) as [->|Hne].
  - rewrite decide_False by lia. rewrite Hget.
    destruct (decide (multiplicity x X = 0)); simpl; f_equal; lia.
  - rewrite Hget. simpl. done.
Qed.

Lemma countLines_tallies lines :
  tallies (countLines lines) (list_to_set_disj lines).
Proof.
  unfold countLines.
  assert (∀ m X, tallies m X →
    tallies (foldl (λ m line, mapSet line (default 0 (mapGet line m) + 1) m)
                   m lines) (list_to_set_disj lines ⊎ X)) as Hgen.
  { induction lines as [|x lines IH]; intros m X Hm; cbn [foldl].
    - by rewrite list_to_set_disj_nil, (left_id_L ∅ (⊎)).
    - rewrite list_to_set_disj_cons.
      replace ({[+ x +]} ⊎ list_to_set_disj lines ⊎ X)
        with (list_to_set_disj lines ⊎ ({[+ x +]} ⊎ X)) by multiset_solver.
      by apply IH, tallies_step. }
  rewrite <- (right_id_L ∅ (⊎) (list_to_set_disj lines)). apply Hgen.
  split; [constructor|]. intros k. by rewrite multiplicity_empty.
Qed.

Lemma surplus_sum m others :
  surplus m others
  = sum_list_with (λ lc, lc.2 - default 0 (mapGet lc.1 others)) m.
Proof.
  unfold surplus.
  enough (∀ total,
    foldl (λ total lc,
             let other := default 0 (mapGet lc.1 others) in
             if other <? lc.2 then total + (lc.2 - other) else total)
          total m
    = total + sum_list_with (λ lc, lc.2 - default 0 (mapGet lc.1 others)) m)
    as Hgen by apply Hgen.
  induction m as [|lc m IH]; intros total; simpl; [lia|].
  destruct (_ <? _) eqn:Hlt.
  - rewrite IH. lia.
  - apply Nat.ltb_ge in Hlt. rewrite IH. lia.
Qed.

Lemma sum_indicator (x : jsstring) ks :
  NoDup ks →
  sum_list_with (λ k, if decide (k = x) then 1 else 0) ks
  = if decide (x ∈ ks) then 1 else 0.
Proof.
  induction 1 as [|k ks Hk _ IH]; simpl; [done|].
  rewrite IH. destruct (decide (k = x)) as [->|Hne].
  - rewrite decide_False by done. rewrite decide_True; [done|]. by left.
  - destruct (decide (x ∈ ks)) as [Hin|Hin].
    + rewrite decide_True; [done|]. by right.
    + rewrite decide_False; [done|].
      intros [?|?]%elem_of_cons; congruence.
Qed.

Lemma sum_multiplicity ks X :
  NoDup ks → (∀ x, x ∈ X → x ∈ ks) →
  sum_list_with (λ k, multiplicity k X) ks = size X.
Proof.
  intros Hks. induction X as [|x X IH] using gmultiset_ind; intros Hsub.
  - rewrite gmultiset_size_empty. clear. induction ks; simpl; [done|].
    by rewrite multiplicity_empty.
  - rewrite gmultiset_size_disj_union, gmultiset_size_singleton, <- IH.
    + assert (sum_list_with (λ k, if decide (k = x) then 1 else 0) ks = 1)
        as <-.
      { rewrite (sum_indicator x ks Hks), decide_True; [done|].
        apply Hsub. multiset_solver. }
      clear. induction ks as [|k ks IHks]; simpl; [done|].
      rewrite multiplicity_disj_union, multiplicity_singleton, IHks.
      destruct (decide (k = x)); lia.
    + intros y Hy. apply Hsub. multiset_solver.
Qed.

(** The two sums count the lines that are left when equal lines of
    the two contents are cancelled against each other. *)
Lemma surplus_size ma mb X Y :
  tallies ma X → tallies mb Y → surplus ma mb = size (X ∖ Y).
Proof.
  intros [Hnodup Hget] [_ Hget']. rewrite surplus_sum.
  assert (∀ x, x ∈ X ∖ Y → x ∈ ma.*1) as Hkeys.
  { intros x Hx. assert (0 < multiplicity x (X ∖ Y)) as Hpos by done.
    rewrite multiplicity_difference in Hpos.
    specialize (Hget x). rewrite decide_False in Hget by lia.
    apply mapGet_Some in Hget. apply list_elem_of_fmap.
    by exists (x, multiplicity x X). }
  rewrite <- (sum_multiplicity ma.*1 _ Hnodup Hkeys).
  clear -Hnodup Hget Hget'.
  assert (∀ k c, (k, c) ∈ ma → c = multiplicity k X) as Hin.
  { intros k c Hkc%(mapGet_elem _ _ _ Hnodup). rewrite Hget in Hkc.
    destruct (decide _); congruence. }
  clear Hnodup Hget. induction ma as [|[k c] ma IH]; csimpl; [done|].
  rewrite IH by (intros; apply Hin; by right).
  rewrite multiplicity_difference, Hget'.
  rewrite (Hin k c) by (by left).
  destruct (decide (multiplicity k Y = 0)) as [->|_]; simpl; lia.
Qed.

Lemma size_list_to_set_disj (lines : list jsstring) :
  size (list_to_set_disj lines : gmultiset jsstring) = length lines.
Proof.
  induction lines as [|x lines IH]; [done|].
  rewrite list_to_set_disj_cons, gmultiset_size_disj_union.
  rewrite gmultiset_size_singleton, IH. done.
Qed.

Lemma elements_list_to_set_disj (lines : list jsstring) :
  elements (list_to_set_disj lines : gmultiset jsstring) ≡ₚ lines.
Proof.
  induction lines as [|x lines IH].
  - by rewrite list_to_set_disj_nil, gmultiset_elements_empty.
  - rewrite list_to_set_disj_cons, gmultiset_elements_disj_union.
    by rewrite gmultiset_elements_singleton, IH.
Qed.

Lemma countLineDiffs_size oldContent newContent :
  let X : gmultiset jsstring := list_to_set_disj (splitOn LF oldContent) in
  let Y : gmultiset jsstring := list_to_set_disj (splitOn LF newContent) in
  additions (countLineDiffs oldContent newContent) = size (Y ∖ X)
  ∧ deletions (countLineDiffs oldContent newContent) = size (X ∖ Y).
Proof.
  unfold countLineDiffs; simpl.
  split; apply surplus_size; apply countLines_tallies.
Qed.

End diff_facts.

(** X14. The line counter is balanced: the added lines and the lines
    of the old content are as many as the deleted lines and the lines
    of the new content, so neither count exceeds the number of lines of
    its side. *)
Theorem line_counts_are_balanced (oldContent newContent : jsstring) :
  let diff := countLineDiffs oldContent newContent in
  additions diff + length (splitOn LF oldContent)
  = deletions diff + length (splitOn LF newContent)
  ∧ additions diff ≤ length (splitOn LF newContent)
  ∧ deletions diff ≤ length (splitOn LF oldContent).
Proof.
  intros diff.
  destruct (countLineDiffs_size oldContent newContent) as [Hadd Hdel].
  fold diff in Hadd, Hdel. rewrite Hadd, Hdel.
  rewrite <- !size_list_to_set_disj.
  set (X := list_to_set_disj (splitOn LF oldContent) : gmultiset jsstring).
  set (Y := list_to_set_disj (splitOn LF newContent) : gmultiset jsstring).
  assert (X = (X ∖ Y) ⊎ (X ∩ Y)) as HX by multiset_solver.
  assert (Y = (Y ∖ X) ⊎ (X ∩ Y)) as HY by multiset_solver.
  apply (f_equal size) in HX, HY.
  rewrite gmultiset_size_disj_union in HX, HY. lia.
Qed.

(** X15. The line counter does not see moved lines: it reports no
    addition and no deletion exactly when the lines of the new content
    are a rearrangement of the lines of the old content. *)
Theorem line_counts_ignore_line_order (oldContent newContent : jsstring) :
  countLineDiffs oldContent newContent = {| additions := 0; deletions := 0 |}
  ↔ splitOn LF oldContent ≡ₚ splitOn LF newContent.
Proof.
  destruct (countLineDiffs_size oldContent newContent) as [Hadd Hdel].
  set (X := list_to_set_disj (splitOn LF oldContent) : gmultiset jsstring) in *.
  set (Y := list_to_set_disj (splitOn LF newContent) : gmultiset jsstring) in *.
  split.
  - intros Hzero. rewrite Hzero in Hadd, Hdel. simpl in *.
    symmetry in Hadd, Hdel.
    apply gmultiset_size_empty_inv in Hadd, Hdel.
    assert (X = Y) as HXY by multiset_solver.
    rewrite <- (elements_list_to_set_disj (splitOn LF oldContent)).
    rewrite <- (elements_list_to_set_disj (splitOn LF newContent)).
    fold X Y. by rewrite HXY.
  - intros Hperm. assert (X = Y) as HXY by (unfold X, Y; by rewrite Hperm).
    rewrite HXY in Hadd, Hdel.
    replace (Y ∖ Y) with (∅ : gmultiset jsstring) in * by multiset_solver.
    rewrite gmultiset_size_empty in Hadd, Hdel.
    destruct (countLineDiffs _ _); simpl in *. by subst.
Qed.

Section insertions.
Context {V : Validation} {T : TextNormalization}.

Lemma isEmptyFile_spec (lines : list jsstring) :
  isEmptyFile lines = true ↔ lines = [[]].
Proof.
  unfold isEmptyFile. rewrite andb_true_iff, Nat.eqb_eq, bool_decide_eq_true.
  split; [|by intros ->].
  intros [Hlen H0]. destruct lines as [|x [|y lines]]; simplify_eq/=. done.
Qed.

Lemma length_splice_insert {A} (s : Z) (items l : list A) :
  length (splice s 0 items l) = length l + length items.
Proof.
  destruct (splice_insert s items l) as (k & -> & _).
  rewrite !length_app, length_take, length_drop. lia.
Qed.

Lemma whole_file_insert_grows (lines normalized out : list jsstring) :
  length normalized ≠ 0 →
  (if isEmptyFile lines then Ok normalized else Ok (lines ++ normalized))
  = Ok out
  ∨ (if isEmptyFile lines then Ok normalized else Ok (normalized ++ lines))
    = Ok out →
  length lines ≤ length out ∧ (lines ≠ [[]] → length lines < length out).
Proof.
  intros Hne. destruct (isEmptyFile lines) eqn:Hempty.
  - apply isEmptyFile_spec in Hempty as ->.
    intros [[= <-]|[= <-]]; simpl; split; (lia || done).
  - intros [[= <-]|[= <-]]; rewrite length_app; split; lia.
Qed.

End insertions.

(** X16. An insertion never shortens the line array, and it lengthens
    it unless the array is the single empty line of an empty file: when
    the switch of the loop runs an append or a prepend, anchored or not,
    and the primitive returns, the result has at least as many lines as
    before, strictly more when the lines are not one empty line; so
    only on one empty line can the loop count an insertion as a
    no-op. *)
Theorem insertion_grows_the_file {V : Validation} {T : TextNormalization}
    (lines : list jsstring) (edit : HashlineEdit) (next : list jsstring) :
  editPrecedence edit ≠ 0 →
  applyEdit lines edit = Ok next →
  length lines ≤ length next
  ∧ (lines ≠ [[]] → length lines < length next)
  ∧ (arraysEqual next lines = true → lines = [[]]).
Proof.
  intros Hins Hnext.
  enough (length lines ≤ length next
          ∧ (lines ≠ [[]] → length lines < length next)) as [Hle Hlt].
  { split_and!; [done..|]. intros ->%arraysEqual_spec.
    destruct (decide (lines = [[]])) as [|Hne]; [done|].
    specialize (Hlt Hne). lia. }
  destruct edit as [pos end_ newText|pos text|pos text]; [done|..];
    simpl in Hnext; destruct (truthy pos) as [p|].
  - unfold applyInsertAfter in Hnext. simpl in Hnext.
    destruct (parseLineRef p) as [r|]; simpl in Hnext; [|done].
    destruct (length _ =? 0) eqn:Hlen; [done|]. injection Hnext as <-.
    apply Nat.eqb_neq in Hlen. rewrite length_splice_insert. lia.
  - unfold applyAppend in Hnext.
    destruct (length _ =? 0) eqn:Hlen; [done|]. apply Nat.eqb_neq in Hlen.
    apply (whole_file_insert_grows lines (toNewLines text)); auto.
  - unfold applyInsertBefore in Hnext. simpl in Hnext.
    destruct (parseLineRef p) as [r|]; simpl in Hnext; [|done].
    destruct (length _ =? 0) eqn:Hlen; [done|]. injection Hnext as <-.
    apply Nat.eqb_neq in Hlen. rewrite length_splice_insert. lia.
  - unfold applyPrepend in Hnext.
    destruct (length _ =? 0) eqn:Hlen; [done|]. apply Nat.eqb_neq in Hlen.
    apply (whole_file_insert_grows lines (toNewLines text)); auto.
Qed.

Lemma insertion_grows_the_file_witness :
  length [js "a"; js "b"] < length [js "a"; js "x"; js "b"].
Proof.
  refine (proj1 (proj2 (insertion_grows_the_file
                   (V := SpecHelpers.validation)
                   (T := SpecHelpers.textNormalization)
                   [js "a"; js "b"] (Append (Some (js "1")) (Text (js "x")))
                   [js "a"; js "x"; js "b"] _ _)) _).
  - simpl. lia.
  - reflexivity.
  - discriminate.
Defined.

Section loop_runs_every_edit.
Context {V : Validation} {T : TextNormalization}.

(** When the loop over the sorted edits returns, the switch returned
    on every edit. *)
Lemma applyEdits_Ok_each edits : ∀ lines n r edit,
  applyEdits edits lines n = Ok r → edit ∈ edits →
  ∃ lines' next, applyEdit lines' edit = Ok next.
Proof.
  induction edits as [|first edits IH]; intros lines n r edit Hrun Hin.
  - by apply elem_of_nil in Hin.
  - simpl in Hrun.
    destruct (applyEdit lines first) as [next|] eqn:Hfirst; simpl in Hrun;
      [|done].
    apply elem_of_cons in Hin as [->|Hin]; [by exists lines, next|].
    destruct (arraysEqual next lines); by eapply IH.
Qed.

End loop_runs_every_edit.

(** X17. An insertion without anchor whose text normalises to no line
    at all aborts the batch: when no two edits of the batch share a
    deduplication key, a batch that holds such an append or prepend
    throws, whatever the content and the other edits are. *)
Theorem empty_whole_file_insert_aborts
    {V : Validation} {T : TextNormalization}
    (content : jsstring) (edits : list HashlineEdit)
    (pos : option jsstring) (text : TextOrLines) :
  NoDup (buildDedupeKey <$> edits) →
  Append pos text ∈ edits ∨ Prepend pos text ∈ edits →
  truthy pos = None →
  toNewLines text = [] →
  ∃ e, applyHashlineEditsWithReport content edits = Err e.
Proof.
  intros Hnodup Hin Hpos Htext.
  destruct (applyHashlineEditsWithReport content edits) as [report|e] eqn:Hrun;
    [exfalso|by exists e].
  apply run_ok_inv in Hrun as (sorted & lines & Hsort & _ & _ & Hloop & _).
  - rewrite dedupeEdits_NoDup in Hsort by done. simpl in Hsort.
    apply sortEdits_spec in Hsort as [Hperm _].
    destruct Hin as [Hin|Hin]; rewrite <- Hperm in Hin;
      destruct (applyEdits_Ok_each _ _ _ _ _ Hloop Hin) as (lines' & next & Hok);
      simpl in Hok; rewrite Hpos in Hok.
    + unfold applyAppend in Hok. by rewrite Htext in Hok.
    + unfold applyPrepend in Hok. by rewrite Htext in Hok.
  - intros ->. destruct Hin as [Hin|Hin]; by apply elem_of_nil in Hin.
Qed.

Lemma empty_whole_file_insert_aborts_witness :
  ∃ e, SpecHelpers.run (js "a")
         [Replace (js "1") None (Text (js "b")); Append None (Lines [])]
       = Err e.
Proof.
  refine (empty_whole_file_insert_aborts
            (V := SpecHelpers.validation) (T := SpecHelpers.textNormalization)
            (js "a")
            [Replace (js "1") None (Text (js "b")); Append None (Lines [])]
            None (Lines []) _ _ _ _).
  - apply (bool_decide_unpack _). vm_compute. exact I.
  - left. right. left.
  - reflexivity.
  - reflexivity.
Defined.

Section continuation_tokens.

Lemma startsWith_spec (p text : jsstring) :
  startsWith p text = true ↔ text = p ++ drop (length p) text.
Proof.
  revert text. induction p as [|a p IH]; intros [|b text]; simpl; try done.
  rewrite andb_true_iff, N.eqb_eq, IH. split.
  - intros [-> <-]. done.
  - intros [= -> Htext]. done.
Qed.

Lemma matchesContinuationTail_spec (text : jsstring) :
  matchesContinuationTail text = true
  ↔ ∃ tok ws, tok ∈ continuationTokens
              ∧ forallb isWhiteSpace ws = true
              ∧ text = tok ++ ws.
Proof.
  unfold matchesContinuationTail. rewrite existsb_exists. split.
  - intros (tok & Htok%list_elem_of_In & [Hstart Hws]%andb_true_iff).
    apply startsWith_spec in Hstart.
    by exists tok, (drop (length tok) text).
  - intros (tok & ws & Htok & Hws & ->). exists tok.
    split; [by apply list_elem_of_In|]. apply andb_true_iff.
    rewrite drop_app_length. split; [|done].
    apply startsWith_spec. by rewrite drop_app_length.
Qed.

End continuation_tokens.

(** X18. Stripping the trailing continuation token cuts the text at
    the first place from which a continuation token and then nothing
    but white space reach the end: what is returned is the text before
    that place, and the text itself when there is no such place. The
    cut is made once, at the leftmost such place. *)
Theorem continuation_strip_cuts_at_first_token (text : jsstring) :
  let out := stripTrailingContinuationTokens text in
  (∀ k, k < length out → matchesContinuationTail (drop k text) = false)
  ∧ (out = text
     ∨ ∃ tok ws, tok ∈ continuationTokens
                 ∧ forallb isWhiteSpace ws = true
                 ∧ text = out ++ tok ++ ws)
  ∧ (out = text ↔ ∀ k, matchesContinuationTail (drop k text) = false).
Proof.
  simpl.
  assert ((∀ k, k < length (stripTrailingContinuationTokens text) →
             matchesContinuationTail (drop k text) = false)
          ∧ (stripTrailingContinuationTokens text = text
               ∧ (∀ k, matchesContinuationTail (drop k text) = false)
             ∨ stripTrailingContinuationTokens text ≠ text
               ∧ ∃ tok ws, tok ∈ continuationTokens
                 ∧ forallb isWhiteSpace ws = true
                 ∧ text = stripTrailingContinuationTokens text ++ tok ++ ws))
    as [Hfirst Hcases].
  { induction text as [|c text [IHfirst IH]].
    - split; [simpl; intros; lia|]. left. split; [done|].
      intros k. by rewrite drop_nil.
    - cbn [stripTrailingContinuationTokens].
      destruct (matchesContinuationTail (c :: text)) eqn:Hhere.
      + split; [simpl; intros; lia|]. right. split; [done|].
        by apply matchesContinuationTail_spec.
      + split.
        { intros [|k] Hk; [done|]. simpl in *. apply IHfirst. lia. }
        destruct IH as [[Heq Hnone]|[Hne (tok & ws & Htok & Hws & Heq)]].
        * left. rewrite Heq. split; [done|]. intros [|k]; [done|]. apply Hnone.
        * right. split; [congruence|]. exists tok, ws.
          split_and!; [done..|]. simpl. by rewrite <- Heq. }
  split_and!; [done| |].
  - destruct Hcases as [[Heq _]|[_ Hcut]]; [by left|by right].
  - destruct Hcases as [[Heq Hnone]|[Hne (tok & ws & Htok & Hws & Heq)]].
    + done.
    + split; [done|]. intros Hnone. exfalso.
      specialize (Hnone (length (stripTrailingContinuationTokens text))).
      rewrite Heq in Hnone at 2. rewrite drop_app_length in Hnone.
      assert (matchesContinuationTail (tok ++ ws) = true) as Hyes
        by (apply matchesContinuationTail_spec; by exists tok, ws).
      congruence.
Qed.
